(** * The MPF clock (mpf/core/clock.py) and the time-travel test loop
      (mpf/tests/loop.py): a shallow embedding and its properties.

    Times, timeouts and elapsed times are Python numbers.  They are embedded
    as exact rationals [Q]: the scheduling code only adds, subtracts,
    compares and scales them, and every literal it uses (0.0001, 0.00001,
    1000000) is rational.  The rounding of binary floats is outside that
    part of the model; where a property depends on it, the times of
    [ClockEvent.tick] are embedded a second time as binary64 numbers
    ([tick_times]).

    [ClockBase.counter] is a class attribute, shared by all the clocks of
    the process: a clock starts at any value of it, and other clocks draw
    from it.  Callbacks return or raise; the ticks that an exception leaves
    are in [ClockBase_tick_exn].

    Python objects with identity (ClockEvent instances) live in a store, a
    list indexed by reference; [ordered_events] and [_frame_callbacks] hold
    references, so that a mutation through one alias is seen through all. *)

From Stdlib Require Import ZArith QArith Qround Lqa List Bool Lia Sorted Permutation.
From Stdlib Require Import Floats.
From stdpp Require Import base list strings pretty gmap.

Open Scope Q_scope.

(** ** Python values that the clock inspects *)

(** What a callable hands back.  The clock tests a callback's result with
    [ret is False], and [ClockEvent.__call__] returns [True] or falls off
    its end (None). *)
Inductive PyVal :=
| PyNone
| PyBool (b : bool)
| PyNum (q : Q).

(** [ret is False] *)
Definition is_False (v : PyVal) : bool :=
  match v with PyBool false => true | _ => false end.

(** [bool(v)] *)
Definition truthy (v : PyVal) : bool :=
  match v with
  | PyNone => false
  | PyBool b => b
  | PyNum q => negb (Qeq_bool q 0)
  end.

(** Strict comparison of two numbers, [x < y]. *)
Definition Qltb (x y : Q) : bool := negb (Qle_bool y x).

(** Callables are known by name; what they do when called is given later by
    the program that owns them. *)
Abbreviation cbid := nat (only parsing).

(** References to ClockEvent objects: indices into the store. *)
Abbreviation ref := nat (only parsing).

(** Modelled from the spec: mpf.core.weakmethod.WeakMethod, whose source is
    not part of the files at hand.  A weak reference to a callable resolves
    to the callable while the referent is alive and "resolves to nothing
    (the referenced object has been reclaimed)" afterwards. *)
Record WeakMethod := mkWeakMethod {
  wm_method : option cbid;
  wm_dead : bool
}.

Definition is_dead (w : WeakMethod) : bool := wm_dead w.

Definition wm_call (w : WeakMethod) : option cbid :=
  if wm_dead w then None else wm_method w.

(** The fields [callback] and [weak_callback] of a ClockEvent.  [__init__]
    stores the callable in [callback] and leaves [weak_callback] unset;
    [release] moves it into a WeakMethod and clears [callback].  Exactly one
    of the two is in use at any time. *)
Inductive CallbackRef :=
| Strong (cb : cbid)
| Weak (w : WeakMethod).

(** ** class ClockEvent *)

Record ClockEvent := mkClockEvent {
  ev_id : nat;                 (* self.id *)
  ev_loop : bool;              (* self.loop *)
  ev_callback : CallbackRef;   (* self.callback / self.weak_callback *)
  ev_timeout : Q;              (* self.timeout *)
  ev_is_triggered : bool;      (* self._is_triggered *)
  ev_last_dt : Q;              (* self._last_dt *)
  ev_next_event_time : Q;      (* self._next_event_time *)
  ev_last_event_time : Q;      (* self._last_event_time *)
  ev_dt : Q;                   (* self._dt *)
  ev_priority : Z;             (* self._priority *)
  ev_callback_cancelled : bool (* self._callback_cancelled *)
}.

Definition set_is_triggered (b : bool) (e : ClockEvent) : ClockEvent :=
  mkClockEvent (ev_id e) (ev_loop e) (ev_callback e) (ev_timeout e) b
    (ev_last_dt e) (ev_next_event_time e) (ev_last_event_time e) (ev_dt e)
    (ev_priority e) (ev_callback_cancelled e).

Definition set_last_dt (t : Q) (e : ClockEvent) : ClockEvent :=
  mkClockEvent (ev_id e) (ev_loop e) (ev_callback e) (ev_timeout e)
    (ev_is_triggered e) t (ev_next_event_time e) (ev_last_event_time e)
    (ev_dt e) (ev_priority e) (ev_callback_cancelled e).

Definition set_callback_cancelled (b : bool) (e : ClockEvent) : ClockEvent :=
  mkClockEvent (ev_id e) (ev_loop e) (ev_callback e) (ev_timeout e)
    (ev_is_triggered e) (ev_last_dt e) (ev_next_event_time e)
    (ev_last_event_time e) (ev_dt e) (ev_priority e) b.

Definition set_callback (r : CallbackRef) (e : ClockEvent) : ClockEvent :=
  mkClockEvent (ev_id e) (ev_loop e) r (ev_timeout e)
    (ev_is_triggered e) (ev_last_dt e) (ev_next_event_time e)
    (ev_last_event_time e) (ev_dt e) (ev_priority e)
    (ev_callback_cancelled e).

(** The four assignments at the head of [ClockEvent.tick]:
    [_dt], [_last_dt], [_last_event_time], [_next_event_time]. *)
Definition set_times (dt last_dt last_event next_event : Q) (e : ClockEvent)
  : ClockEvent :=
  mkClockEvent (ev_id e) (ev_loop e) (ev_callback e) (ev_timeout e)
    (ev_is_triggered e) last_dt next_event last_event dt
    (ev_priority e) (ev_callback_cancelled e).

(** [ClockEvent.get_callback]: the callable, or None when the weak reference
    is dead. *)
Definition get_callback (e : ClockEvent) : option cbid :=
  match ev_callback e with
  | Strong cb => Some cb
  | Weak w => if is_dead w then None else wm_call w
  end.

(** [ClockEvent.release]: [self.weak_callback = WeakMethod(self.callback);
    self.callback = None]. *)
Definition release (e : ClockEvent) : ClockEvent :=
  set_callback
    (Weak (mkWeakMethod
             (match ev_callback e with Strong cb => Some cb | Weak _ => None end)
             false)) e.

(** ** class ClockBase *)

Inductive LogLevel := DEBUG | INFO | WARNING | ERROR.

Inductive LogMsg :=
| StartingClock (max_fps : Q)
| ScheduledOnce (cb : cbid) (timeout : Q) (priority : Z)
| ScheduledRecurring (cb : cbid) (timeout : Q) (priority : Z).

Definition LogRecord : Type := LogLevel * LogMsg.

(** An element of [_frame_callbacks]:
    [(event.last_event_time, -event.priority, event.id, event)]. *)
Record FrameEntry := mkFrameEntry {
  fe_time : Q;
  fe_negprio : Z;
  fe_id : nat;
  fe_event : ref
}.

(** The frame-rate statistics kept by [tick] and [tick_draw]. *)
Record FpsStats := mkFpsStats {
  st_fps : Q;                      (* self._fps *)
  st_rfps : Z;                     (* self._rfps *)
  st_fps_counter : Z;              (* self._fps_counter *)
  st_rfps_counter : Z;             (* self._rfps_counter *)
  st_last_fps_tick : option Q;     (* self._last_fps_tick *)
  st_frames_displayed : Z          (* self._frames_displayed *)
}.

Record Clock := mkClock {
  clk_store : list ClockEvent;          (* the ClockEvent objects *)
  clk_counter : nat;                    (* next value of ClockBase.counter *)
  clk_dt : Q;                           (* self._dt *)
  clk_last_tick : Q;                    (* self._last_tick *)
  clk_start_tick : Q;                   (* self._start_tick *)
  clk_frames : Z;                       (* self._frames *)
  clk_stats : FpsStats;
  clk_max_fps : Q;                      (* self._max_fps *)
  ordered_events : list ref;            (* self.ordered_events *)
  frame_callbacks : list FrameEntry;    (* self._frame_callbacks *)
  read_sockets : gmap nat cbid;         (* self.read_sockets *)
  max_iteration : Z;                    (* self.max_iteration *)
  clk_log : list LogRecord              (* records sent to self._log *)
}.

Definition set_store (s : list ClockEvent) (c : Clock) : Clock :=
  mkClock s (clk_counter c) (clk_dt c) (clk_last_tick c) (clk_start_tick c)
    (clk_frames c) (clk_stats c) (clk_max_fps c) (ordered_events c)
    (frame_callbacks c) (read_sockets c) (max_iteration c) (clk_log c).

Definition set_ordered_events (l : list ref) (c : Clock) : Clock :=
  mkClock (clk_store c) (clk_counter c) (clk_dt c) (clk_last_tick c)
    (clk_start_tick c) (clk_frames c) (clk_stats c) (clk_max_fps c) l
    (frame_callbacks c) (read_sockets c) (max_iteration c) (clk_log c).

Definition set_frame_callbacks (l : list FrameEntry) (c : Clock) : Clock :=
  mkClock (clk_store c) (clk_counter c) (clk_dt c) (clk_last_tick c)
    (clk_start_tick c) (clk_frames c) (clk_stats c) (clk_max_fps c)
    (ordered_events c) l (read_sockets c) (max_iteration c) (clk_log c).

Definition set_read_sockets (m : gmap nat cbid) (c : Clock) : Clock :=
  mkClock (clk_store c) (clk_counter c) (clk_dt c) (clk_last_tick c)
    (clk_start_tick c) (clk_frames c) (clk_stats c) (clk_max_fps c)
    (ordered_events c) (frame_callbacks c) m (max_iteration c) (clk_log c).

Definition set_max_iteration (n : Z) (c : Clock) : Clock :=
  mkClock (clk_store c) (clk_counter c) (clk_dt c) (clk_last_tick c)
    (clk_start_tick c) (clk_frames c) (clk_stats c) (clk_max_fps c)
    (ordered_events c) (frame_callbacks c) (read_sockets c) n (clk_log c).

(** [next(clock.counter)]: the counter is an attribute of the class, shared
    by every clock of the process. *)
Definition set_counter (n : nat) (c : Clock) : Clock :=
  mkClock (clk_store c) n (clk_dt c) (clk_last_tick c) (clk_start_tick c)
    (clk_frames c) (clk_stats c) (clk_max_fps c) (ordered_events c)
    (frame_callbacks c) (read_sockets c) (max_iteration c) (clk_log c).

Definition set_stats (s : FpsStats) (c : Clock) : Clock :=
  mkClock (clk_store c) (clk_counter c) (clk_dt c) (clk_last_tick c)
    (clk_start_tick c) (clk_frames c) s (clk_max_fps c)
    (ordered_events c) (frame_callbacks c) (read_sockets c)
    (max_iteration c) (clk_log c).

(** Allocation of a new ClockEvent: the object enters the store, the class
    counter moves on, and the scheduling call logs a debug record. *)
Definition alloc_event (e : ClockEvent) (msg : LogMsg) (c : Clock) : Clock :=
  mkClock (clk_store c ++ [e]) (S (clk_counter c)) (clk_dt c)
    (clk_last_tick c) (clk_start_tick c) (clk_frames c) (clk_stats c)
    (clk_max_fps c) (ordered_events c) (frame_callbacks c) (read_sockets c)
    (max_iteration c) (clk_log c ++ [(DEBUG, msg)]).

(** The time bookkeeping at the head of [ClockBase.tick]. *)
Definition set_tick_time (dt current : Q) (s : FpsStats) (c : Clock) : Clock :=
  mkClock (clk_store c) (clk_counter c) dt current (clk_start_tick c)
    (clk_frames c + 1)%Z s (clk_max_fps c) (ordered_events c)
    (frame_callbacks c) (read_sockets c) (max_iteration c) (clk_log c).

(** Mutation of one object of the store, through any alias. *)
Definition update_event (r : ref) (f : ClockEvent -> ClockEvent) (c : Clock)
  : Clock :=
  set_store (alter f r (clk_store c)) c.

(** [ClockBase.__init__]; [now] is what [self.time()] returns.  [counter]
    is where the class attribute [ClockBase.counter] stands: 0 for the
    first clock of a process, more when clocks made earlier have scheduled
    events. *)
Definition ClockBase_init (max_fps now : Q) (counter : nat) : Clock :=
  mkClock [] counter (1 # 10000) now now 0
    (mkFpsStats 0 0 0 0 None 0) max_fps [] [] ∅ 10
    [(DEBUG, StartingClock max_fps)].

(** [ClockBase.frametime], [get_time], [get_boottime]. *)
Definition frametime (c : Clock) : Q := clk_dt c.
Definition get_time (c : Clock) : Q := clk_last_tick c.
Definition get_boottime (c : Clock) : Q := clk_last_tick c - clk_start_tick c.

(** ** Lists of references *)

(** [list.remove(x)]: drops the first occurrence.  Python raises ValueError
    when there is none; both callers catch it and go on, which leaves the
    list as it was. *)
Fixpoint list_remove (r : ref) (l : list ref) : list ref :=
  match l with
  | [] => []
  | x :: l' => if Nat.eqb x r then l' else x :: list_remove r l'
  end.

(** [list.sort(key=...)] and [sorted(...)]: a stable sort.  [leb x y] says
    that [y] is not smaller than [x]. *)
Section StableSort.
Context {A : Type} (leb : A -> A -> bool).

Fixpoint sort_insert (x : A) (l : list A) : list A :=
  match l with
  | [] => [x]
  | y :: l' => if leb x y then x :: y :: l' else y :: sort_insert x l'
  end.

Definition stable_sort (l : list A) : list A := foldr sort_insert [] l.
End StableSort.

(** ** ClockEvent methods that reach into the clock *)

Definition next_event_time (c : Clock) (r : ref) : Q :=
  match clk_store c !! r with
  | Some e => ev_next_event_time e
  | None => 0
  end.

(** [ClockEvent.cancel] *)
Definition cancel (r : ref) (c : Clock) : Clock :=
  match clk_store c !! r with
  | None => c
  | Some e =>
      let c1 :=
        if ev_is_triggered e
        then set_ordered_events (list_remove r (ordered_events c))
               (update_event r (set_is_triggered false) c)
        else c in
      update_event r (set_callback_cancelled true) c1
  end.

(** [ClockEvent.__call__]: the new starting time is [clock.get_time()], the
    time of the last tick.  The method returns True when it scheduled the
    event and nothing (None) otherwise. *)
Definition ClockEvent_call (r : ref) (c : Clock) : Clock * PyVal :=
  match clk_store c !! r with
  | None => (c, PyNone)
  | Some e =>
      if ev_is_triggered e then (c, PyNone)
      else
        (set_ordered_events (ordered_events c ++ [r])
           (update_event r
              (fun e => set_last_dt (get_time c) (set_is_triggered true e)) c),
         PyBool true)
  end.

(** [ClockBase.add_event_to_frame_callbacks] *)
Definition add_event_to_frame_callbacks (r : ref) (c : Clock) : Clock :=
  match clk_store c !! r with
  | None => c
  | Some e =>
      set_frame_callbacks
        (frame_callbacks c ++
           [mkFrameEntry (ev_last_event_time e) (- ev_priority e) (ev_id e) r])
        c
  end.

(** [remove(self)] guarded by [try ... except ValueError: pass], after
    [self._is_triggered = False]. *)
Definition untrigger_and_remove (r : ref) (c : Clock) : Clock :=
  set_ordered_events (list_remove r (ordered_events c))
    (update_event r (set_is_triggered false) c).

(** [ClockEvent.tick(curtime, remove)], with [remove] the clock's
    [ordered_events.remove].  The result is the method's return value:
    True when the event is not yet due, False when its callback is gone,
    None otherwise. *)
Definition ClockEvent_tick (r : ref) (curtime : Q) (c : Clock)
  : Clock * PyVal :=
  match clk_store c !! r with
  | None => (c, PyNone)
  | Some e =>
      if Qltb 0 (ev_timeout e) && Qltb curtime (ev_next_event_time e)
      then (c, PyBool true)
      else
        let dt := curtime - ev_last_dt e in
        let e1 :=
          if Qltb 0 (ev_timeout e)
          then set_times dt curtime (ev_next_event_time e)
                 (ev_next_event_time e + ev_timeout e) e
          else set_times dt curtime curtime curtime e in
        let c1 := update_event r (fun _ => e1) c in
        match get_callback e1 with
        | None => (untrigger_and_remove r c1, PyBool false)
        | Some _ =>
            let c2 := update_event r (set_callback_cancelled false) c1 in
            let c3 := add_event_to_frame_callbacks r c2 in
            (if ev_loop e then c3 else untrigger_and_remove r c3, PyNone)
        end
  end.

(** ** ClockBase: scheduling *)

(** [ClockEvent.__init__] as the two scheduling calls use it, always with
    [trigger=True]: the new object is appended to [ordered_events]. *)
Definition new_event (c : Clock) (loop : bool) (cb : cbid) (timeout : Q)
    (priority : Z) : ClockEvent :=
  mkClockEvent (clk_counter c) loop (Strong cb) timeout true
    (clk_last_tick c) (clk_last_tick c + timeout) 0 0 priority false.

(** [ClockBase.schedule_once]; the result is the clock and the reference of
    the new event.  Callables are callable: the ValueError branch is for
    arguments that are not. *)
Definition schedule_once (cb : cbid) (timeout : Q) (priority : Z) (c : Clock)
  : Clock * ref :=
  let r := length (clk_store c) in
  let c1 := alloc_event (new_event c false cb timeout priority)
              (ScheduledOnce cb timeout priority) c in
  (set_ordered_events (ordered_events c ++ [r]) c1, r).

(** [ClockBase.schedule_interval] *)
Definition schedule_interval (cb : cbid) (timeout : Q) (priority : Z)
    (c : Clock) : Clock * ref :=
  let r := length (clk_store c) in
  let c1 := alloc_event (new_event c true cb timeout priority)
              (ScheduledRecurring cb timeout priority) c in
  (set_ordered_events (ordered_events c ++ [r]) c1, r).

(** [ev.get_callback() == callback] *)
Definition callback_is (c : Clock) (r : ref) (cb : cbid) : bool :=
  match clk_store c !! r with
  | Some e =>
      match get_callback e with
      | Some cb' => Nat.eqb cb' cb
      | None => false
      end
  | None => false
  end.

(** The two loops of [ClockBase.unschedule] over the copy
    [self.ordered_events[:]]; the second one stops at the first match. *)
Fixpoint unschedule_loop (all_events : bool) (cb : cbid) (snapshot : list ref)
    (c : Clock) : Clock :=
  match snapshot with
  | [] => c
  | r :: rest =>
      if callback_is c r cb
      then if all_events
           then unschedule_loop all_events cb rest (cancel r c)
           else cancel r c
      else unschedule_loop all_events cb rest c
  end.

(** [ClockBase.unschedule] for a callable; for a ClockEvent it is [cancel]. *)
Definition unschedule (cb : cbid) (all_events : bool) (c : Clock) : Clock :=
  unschedule_loop all_events cb (ordered_events c) c.

(** [ClockBase.schedule_socket_read_callback] *)
Definition schedule_socket_read_callback (sock : nat) (cb : cbid) (c : Clock)
  : Clock :=
  set_read_sockets (<[sock := cb]> (read_sockets c)) c.

(** [ClockBase.unschedule_socket_read_callback]: [del] raises KeyError for a
    socket that is not registered. *)
Definition unschedule_socket_read_callback (sock : nat) (c : Clock)
  : option Clock :=
  match read_sockets c !! sock with
  | Some _ => Some (set_read_sockets (delete sock (read_sockets c)) c)
  | None => None
  end.

(** [ClockBase.tick_draw] *)
Definition tick_draw (c : Clock) : Clock :=
  let s := clk_stats c in
  set_stats
    (mkFpsStats (st_fps s) (st_rfps s) (st_fps_counter s)
       (st_rfps_counter s + 1)%Z (st_last_fps_tick s)
       (st_frames_displayed s + 1)%Z) c.

(** ** ClockBase: waiting for the next event *)

(** [self.ordered_events.sort(key=attrgetter("next_event_time"))] *)
Definition sort_ordered_events (c : Clock) : Clock :=
  set_ordered_events
    (stable_sort
       (fun x y => Qle_bool (next_event_time c x) (next_event_time c y))
       (ordered_events c)) c.

(** [ClockBase.get_next_event_time]: False when nothing is scheduled, else
    the time of the first event after sorting. *)
Definition get_next_event_time (c : Clock) : Clock * PyVal :=
  match ordered_events c with
  | [] => (c, PyBool false)
  | _ :: _ =>
      let c1 := sort_ordered_events c in
      (c1, match ordered_events c1 with
           | r :: _ => PyNum (next_event_time c1 r)
           | [] => PyBool false
           end)
  end.

(** [ClockBase._get_sleep_time]; [now] is what [self.time()] returns.  The
    test [if next_event_time:] is Python truthiness. *)
Definition get_sleep_time (now : Q) (c : Clock) : Clock * Q :=
  let '(c1, v) := get_next_event_time c in
  (c1, if truthy v
       then match v with PyNum t => t - now | _ => 0 end
       else 0).

(** What [_sleep_until_next_event] asks of the operating system. *)
Inductive Wait :=
| NoWait
| Usleep (microseconds : Q)
| Select (sockets : list nat) (timeout : Q).

(** [ClockBase._sleep_until_next_event] up to the blocking call. *)
Definition sleep_until_next_event (now : Q) (c : Clock) : Clock * Wait :=
  let '(c1, sleeptime) := get_sleep_time now c in
  if negb (bool_decide (read_sockets c1 = ∅))
  then
    let sleeptime' := if Qle_bool sleeptime 0 then 1 # 100000 else sleeptime in
    (c1, Select (map fst (map_to_list (read_sockets c1))) sleeptime')
  else if Qltb 0 sleeptime
       then (c1, Usleep (1000000 * sleeptime))
       else (c1, NoWait).

(** ** ClockBase: processing of the events that are due *)

(** The loop of [_process_events] over [list(self.ordered_events)]. *)
Fixpoint process_events_loop (snapshot : list ref) (c : Clock) : Clock :=
  match snapshot with
  | [] => c
  | r :: rest =>
      match clk_store c !! r with
      | None => process_events_loop rest c
      | Some e =>
          if Qltb (clk_last_tick c) (ev_next_event_time e) then c
          else if ev_callback_cancelled e
               then process_events_loop rest c
               else process_events_loop rest
                      (fst (ClockEvent_tick r (clk_last_tick c) c))
      end
  end.

(** [ClockBase._process_events] *)
Definition process_events (c : Clock) : Clock :=
  match ordered_events c with
  | [] => c
  | _ :: _ =>
      let c1 := sort_ordered_events c in
      process_events_loop (ordered_events c1) c1
  end.

(** Order of the tuples of [_frame_callbacks]: time, then negated priority,
    then id.  Two tuples that agree on all three hold the same event, since
    ids are handed out once, and compare equal. *)
Definition entry_ltb (a b : FrameEntry) : bool :=
  Qltb (fe_time a) (fe_time b)
  || (Qeq_bool (fe_time a) (fe_time b)
      && ((fe_negprio a <? fe_negprio b)%Z
          || ((fe_negprio a =? fe_negprio b)%Z
              && (fe_id a <? fe_id b)%nat))).

Definition entry_leb (a b : FrameEntry) : bool := negb (entry_ltb b a).

(** The frame statistics of [ClockBase.tick]. *)
Definition update_stats (current : Q) (s : FpsStats) : FpsStats :=
  let n := (st_fps_counter s + 1)%Z in
  match st_last_fps_tick s with
  | None =>
      mkFpsStats (st_fps s) (st_rfps s) n (st_rfps_counter s) (Some current)
        (st_frames_displayed s)
  | Some t =>
      if Qltb 1 (current - t)
      then mkFpsStats (inject_Z n / (current - t)) (st_rfps_counter s) 0 0
             (Some current) (st_frames_displayed s)
      else mkFpsStats (st_fps s) (st_rfps s) n (st_rfps_counter s) (Some t)
             (st_frames_displayed s)
  end.

(** ** What callbacks can do to the clock *)

(** The calls a callback (or any other code of the application, between two
    ticks) makes on the clock and on the events it holds.  [EnvReclaim] is
    not a call: it is the garbage collector reclaiming the referent of a
    weak callback.  [EnvOtherClock] is another clock of the process
    creating an event, which draws an id from the shared counter. *)
Inductive Action :=
| ActScheduleOnce (cb : cbid) (timeout : Q) (priority : Z)
| ActScheduleInterval (cb : cbid) (timeout : Q) (priority : Z)
| ActCall (r : ref)
| ActCancel (r : ref)
| ActUnschedule (cb : cbid) (all_events : bool)
| ActScheduleSocketRead (sock : nat) (cb : cbid)
| ActRelease (r : ref)
| ActSetMaxIteration (n : Z)
| ActTickDraw
| EnvReclaim (r : ref)
| EnvOtherClock.

Definition reclaim (e : ClockEvent) : ClockEvent :=
  match ev_callback e with
  | Strong _ => e
  | Weak w => set_callback (Weak (mkWeakMethod (wm_method w) true)) e
  end.

Definition apply_action (c : Clock) (a : Action) : Clock :=
  match a with
  | ActScheduleOnce cb timeout priority =>
      fst (schedule_once cb timeout priority c)
  | ActScheduleInterval cb timeout priority =>
      fst (schedule_interval cb timeout priority c)
  | ActCall r => fst (ClockEvent_call r c)
  | ActCancel r => cancel r c
  | ActUnschedule cb all_events => unschedule cb all_events c
  | ActScheduleSocketRead sock cb => schedule_socket_read_callback sock cb c
  | ActRelease r => update_event r release c
  | ActSetMaxIteration n => set_max_iteration n c
  | ActTickDraw => tick_draw c
  | EnvReclaim r => update_event r reclaim c
  | EnvOtherClock => set_counter (S (clk_counter c)) c
  end.

Definition apply_actions (acts : list Action) (c : Clock) : Clock :=
  fold_left apply_action acts c.

(** One call of a callback by [_process_event_callbacks]. *)
Record Invocation := mkInvocation {
  inv_entry : FrameEntry;   (* the queued tuple that led to the call *)
  inv_cb : cbid;            (* the callable *)
  inv_arg : Q;              (* its argument *)
  inv_ret : PyVal           (* what it returned *)
}.

Definition inv_event (i : Invocation) : ref := fe_event (inv_entry i).

(** What one [ClockBase.tick] does that can be seen from outside. *)
Record TickOutcome := mkTickOutcome {
  to_wait : Wait;                   (* the blocking call made first *)
  to_calls : list Invocation;       (* the callbacks called, in order *)
  to_result : Q                     (* the value returned, [self._dt] *)
}.

Section Program.
(** The application: a private state [U], and for each callable what it
    does when the clock calls it with one argument: the calls it makes on
    the clock, the value it returns and its new private state.  It may
    read the whole clock.  Here every call returns; callbacks that raise
    are in section [Raising] below. *)
Variable U : Type.
Variable run : cbid -> Q -> U -> Clock -> list Action * PyVal * U.
(** Socket callbacks are called without argument. *)
Variable run_io : cbid -> U -> Clock -> list Action * U.

(** The body of the loop of [_process_event_callbacks] for one tuple.
    [loop] is assigned by [__init__] only, so that reading it before or
    after the call is the same. *)
Definition dispatch_entry (ent : FrameEntry) (c : Clock) (u : U)
  : Clock * U * list Invocation :=
  match clk_store c !! fe_event ent with
  | None => (c, u, [])
  | Some e =>
      if ev_callback_cancelled e then (c, u, [])
      else
        match get_callback e with
        | Some cb =>
            let '(acts, ret, u') := run cb (frametime c) u c in
            let c1 := apply_actions acts c in
            (if ev_loop e && is_False ret
             then cancel (fe_event ent) c1 else c1,
             u', [mkInvocation ent cb (frametime c) ret])
        | None =>
            (if ev_loop e then cancel (fe_event ent) c else c, u, [])
        end
  end.

Fixpoint dispatch (q : list FrameEntry) (c : Clock) (u : U)
  : Clock * U * list Invocation :=
  match q with
  | [] => (c, u, [])
  | ent :: q' =>
      let '(c1, u1, t1) := dispatch_entry ent c u in
      let '(c2, u2, t2) := dispatch q' c1 u1 in
      (c2, u2, t1 ++ t2)
  end.

(** [ClockBase._process_event_callbacks] *)
Definition process_event_callbacks (c : Clock) (u : U)
  : Clock * U * list Invocation :=
  let '(c1, u1, t) :=
    dispatch (stable_sort entry_leb (frame_callbacks c)) c u in
  (set_frame_callbacks [] c1, u1, t).

(** The loop over [read_ready] in [_sleep_until_next_event]; [select]
    only reports sockets that were handed to it. *)
Fixpoint socket_callbacks (ready : list nat) (c : Clock) (u : U)
  : Clock * U :=
  match ready with
  | [] => (c, u)
  | s :: rest =>
      match read_sockets c !! s with
      | Some cb =>
          let '(acts, u') := run_io cb u c in
          socket_callbacks rest (apply_actions acts c) u'
      | None => socket_callbacks rest c u
      end
  end.

(** [ClockBase.tick] up to and including [self._process_events()].  The
    environment supplies [now], the time read by [_get_sleep_time];
    [ready], the sockets that [select] reports; and [current], the time
    read after the wait. *)
Definition before_callbacks (now : Q) (ready : list nat) (current : Q)
    (c : Clock) (u : U) : Clock * U * Wait :=
  let '(c1, w) := sleep_until_next_event now c in
  let '(c2, u2) :=
    match w with
    | Select _ _ => socket_callbacks ready c1 u
    | _ => (c1, u)
    end in
  let c3 := set_tick_time (current - clk_last_tick c2) current
              (update_stats current (clk_stats c2)) c2 in
  (process_events c3, u2, w).

(** [ClockBase.tick] *)
Definition ClockBase_tick (now : Q) (ready : list nat) (current : Q)
    (c : Clock) (u : U) : Clock * U * TickOutcome :=
  let '(c4, u2, w) := before_callbacks now ready current c u in
  let '(c5, u5, t) := process_event_callbacks c4 u2 in
  (c5, u5, mkTickOutcome w t (clk_dt c5)).

(** What happens to a clock over time: ticks, and calls made on it by the
    application between ticks. *)
Inductive Step :=
| StepTick (now : Q) (ready : list nat) (current : Q)
| StepAct (a : Action).

Definition step (s : Step) (c : Clock) (u : U)
  : Clock * U * list Invocation :=
  match s with
  | StepTick now ready current =>
      let '(c', u', o) := ClockBase_tick now ready current c u in
      (c', u', to_calls o)
  | StepAct a => (apply_action c a, u, [])
  end.

Fixpoint steps (l : list Step) (c : Clock) (u : U)
  : Clock * U * list Invocation :=
  match l with
  | [] => (c, u, [])
  | s :: l' =>
      let '(c1, u1, t1) := step s c u in
      let '(c2, u2, t2) := steps l' c1 u1 in
      (c2, u2, t1 ++ t2)
  end.

(** What follows a point inside [_process_event_callbacks]: the rest [q]
    of the sorted queue, the reset of [_frame_callbacks], and then any
    further steps. *)
Definition finish_tick_then (q : list FrameEntry) (l : list Step)
    (c : Clock) (u : U) : Clock * U * list Invocation :=
  let '(c1, u1, t1) := dispatch q c u in
  let '(c2, u2, t2) := steps l (set_frame_callbacks [] c1) u1 in
  (c2, u2, t1 ++ t2).
End Program.

(** ** Callbacks that raise *)

(** Nothing in [tick] catches an exception: one raised by a callback
    leaves [_process_event_callbacks] and [tick] at once, and what follows
    the call in the source is not run.  The exceptions of the operating
    system ([select], [usleep]) are not modelled. *)

(** How a tick ends: it returns [self._dt], or an exception leaves it,
    raised by a socket callback or by the callback of a queued tuple. *)
Inductive TickEnd :=
| Returned (dt : Q)
| RaisedInWait
| RaisedInCallback (ent : FrameEntry).


Definition has_returned (fin : TickEnd) : bool :=
  match fin with
  | Returned _ => true
  | _ => false
  end.

(** Whether the last tick of a history returned; true when there was
    none. *)
Definition last_tick_returned (ends : list TickEnd) : bool :=
  match last ends with
  | Some fin => has_returned fin
  | None => true
  end.

(** The callable that [_process_event_callbacks] calls for a tuple, if it
    calls one: the event is not cancelled and its callback is alive. *)
Definition entry_callback (ent : FrameEntry) (c : Clock) : option cbid :=
  match clk_store c !! fe_event ent with
  | Some e => if ev_callback_cancelled e then None else get_callback e
  | None => None
  end.

(** [tick] from [current = self.time()] up to the call of
    [_process_events]. *)
Definition time_advance (current : Q) (c : Clock) : Clock :=
  set_tick_time (current - clk_last_tick c) current
    (update_stats current (clk_stats c)) c.

Section Raising.
Variable U : Type.
Variable run : cbid -> Q -> U -> Clock -> list Action * PyVal * U.
Variable run_io : cbid -> U -> Clock -> list Action * U.
(** Whether the call ends by raising.  A call that raises has made the
    calls on the clock that [run] lists and has left the private state
    that [run] gives; the value of [run] is then not used. *)
Variable raises : cbid -> Q -> U -> Clock -> bool.
Variable raises_io : cbid -> U -> Clock -> bool.

(** The body of the loop of [_process_event_callbacks] for one tuple; the
    last component tells whether the callback raised. *)
Definition dispatch_entry_exn (ent : FrameEntry) (c : Clock) (u : U)
  : Clock * U * list Invocation * bool :=
  match entry_callback ent c with
  | Some cb =>
      if raises cb (frametime c) u c
      then let '(acts, _, u') := run cb (frametime c) u c in
           (apply_actions acts c, u', [], true)
      else let '(c1, u1, t) := dispatch_entry U run ent c u in
           (c1, u1, t, false)
  | None =>
      let '(c1, u1, t) := dispatch_entry U run ent c u in (c1, u1, t, false)
  end.

(** The loop of [_process_event_callbacks]: the calls that returned, and
    the tuple whose callback raised, if one did. *)
Fixpoint dispatch_exn (q : list FrameEntry) (c : Clock) (u : U)
  : Clock * U * list Invocation * option FrameEntry :=
  match q with
  | [] => (c, u, [], None)
  | ent :: q' =>
      let '(c1, u1, t1, raised) := dispatch_entry_exn ent c u in
      if raised then (c1, u1, t1, Some ent)
      else
        let '(c2, u2, t2, x) := dispatch_exn q' c1 u1 in
        (c2, u2, t1 ++ t2, x)
  end.

(** [ClockBase._process_event_callbacks]: [self._frame_callbacks = []]
    follows the loop and is not reached when a callback raises. *)
Definition process_event_callbacks_exn (c : Clock) (u : U)
  : Clock * U * list Invocation * option FrameEntry :=
  let '(c1, u1, t, x) :=
    dispatch_exn (stable_sort entry_leb (frame_callbacks c)) c u in
  (match x with
   | None => set_frame_callbacks [] c1
   | Some _ => c1
   end, u1, t, x).

(** The loop over [read_ready] in [_sleep_until_next_event]. *)
Fixpoint socket_callbacks_exn (ready : list nat) (c : Clock) (u : U)
  : Clock * U * bool :=
  match ready with
  | [] => (c, u, false)
  | s :: rest =>
      match read_sockets c !! s with
      | Some cb =>
          let '(acts, u') := run_io cb u c in
          if raises_io cb u c then (apply_actions acts c, u', true)
          else socket_callbacks_exn rest (apply_actions acts c) u'
      | None => socket_callbacks_exn rest c u
      end
  end.

(** [ClockBase._sleep_until_next_event] *)
Definition wait_phase_exn (now : Q) (ready : list nat) (c : Clock) (u : U)
  : Clock * U * Wait * bool :=
  let '(c1, w) := sleep_until_next_event now c in
  match w with
  | Select _ _ =>
      let '(c2, u2, x) := socket_callbacks_exn ready c1 u in (c2, u2, w, x)
  | _ => (c1, u, w, false)
  end.

(** [ClockBase.tick] *)
Definition ClockBase_tick_exn (now : Q) (ready : list nat) (current : Q)
    (c : Clock) (u : U) : Clock * U * list Invocation * TickEnd :=
  let '(c2, u2, _, x) := wait_phase_exn now ready c u in
  if x then (c2, u2, [], RaisedInWait)
  else
    let '(c5, u5, t, x5) :=
      process_event_callbacks_exn (process_events (time_advance current c2))
        u2 in
    (c5, u5, t,
     match x5 with
     | Some ent => RaisedInCallback ent
     | None => Returned (clk_dt c5)
     end).

(** Ticks, some of which an exception may leave, and calls made on the
    clock between them: the state reached, the calls that returned, and
    how each tick ended. *)
Definition step_exn (s : Step) (c : Clock) (u : U)
  : Clock * U * list Invocation * list TickEnd :=
  match s with
  | StepTick now ready current =>
      let '(c', u', t, fin) := ClockBase_tick_exn now ready current c u in
      (c', u', t, [fin])
  | StepAct a => (apply_action c a, u, [], [])
  end.

Fixpoint steps_exn (l : list Step) (c : Clock) (u : U)
  : Clock * U * list Invocation * list TickEnd :=
  match l with
  | [] => (c, u, [], [])
  | s :: l' =>
      let '(c1, u1, t1, f1) := step_exn s c u in
      let '(c2, u2, t2, f2) := steps_exn l' c1 u1 in
      (c2, u2, t1 ++ t2, f1 ++ f2)
  end.
End Raising.

(** ** mpf/tests/loop.py: NextTimers and the time-travel loop *)

Inductive Exn := IndexError | KeyError.

(** Python's [heapq] (standard library) on a list of numbers, taken by its
    contract: the list is kept in heap order, [heappush] adds one item,
    [heappop] removes and returns the smallest one and raises IndexError
    (here None) on an empty list. *)
Class Heapq := {
  heappush : list Q -> Q -> list Q;
  heappop : list Q -> option (Q * list Q);
  is_heap : list Q -> Prop;
  is_heap_nil : is_heap [];
  heappush_is_heap : forall h x, is_heap h -> is_heap (heappush h x);
  heappush_perm : forall h x, Permutation (heappush h x) (x :: h);
  heappop_nil : heappop [] = None;
  heappop_min : forall h, is_heap h -> h <> [] ->
    exists m h', heappop h = Some (m, h') /\ Permutation h (m :: h') /\
                 is_heap h' /\ Forall (fun y => m <= y) h
}.

(** A Python set of numbers: membership is by [==], so the elements are kept
    pairwise different as numbers. *)
Definition pyset_mem (x : Q) (s : list Q) : bool := existsb (Qeq_bool x) s.

Definition pyset_add (x : Q) (s : list Q) : list Q :=
  if pyset_mem x s then s else x :: s.

Fixpoint pyset_discard (x : Q) (s : list Q) : list Q :=
  match s with
  | [] => []
  | y :: s' =>
      if Qeq_bool x y then pyset_discard x s' else y :: pyset_discard x s'
  end.

(** [set.remove(x)]: KeyError (None) when [x] is not a member. *)
Definition pyset_remove (x : Q) (s : list Q) : option (list Q) :=
  if pyset_mem x s then Some (pyset_discard x s) else None.

(** How many elements of the list are equal, as numbers, to [x]; in a set
    there is at most one. *)
Fixpoint pyset_count (x : Q) (s : list Q) : nat :=
  match s with
  | [] => 0
  | y :: s' => ((if Qeq_bool x y then 1 else 0) + pyset_count x s')%nat
  end.

Definition pyset_ok (s : list Q) : Prop :=
  forall x, (pyset_count x s <= 1)%nat.

(** class NextTimers *)
Record NextTimers := mkNextTimers {
  timers_set : list Q;    (* self._timers_set *)
  timers_heap : list Q    (* self._timers_heap *)
}.

Definition NextTimers_init : NextTimers := mkNextTimers [] [].

(** [NextTimers.is_empty] *)
Definition NextTimers_is_empty (t : NextTimers) : bool :=
  Nat.eqb (length (timers_set t)) 0.

Section Timers.
Context `{Heapq}.

(** [NextTimers.add] *)
Definition NextTimers_add (when : Q) (t : NextTimers) : NextTimers :=
  if pyset_mem when (timers_set t) then t
  else mkNextTimers (pyset_add when (timers_set t))
         (heappush (timers_heap t) when).

(** [NextTimers.pop_closest] *)
Definition NextTimers_pop_closest (t : NextTimers)
  : Exn + (Q * NextTimers) :=
  if NextTimers_is_empty t then inl IndexError
  else
    match heappop (timers_heap t) with
    | None => inl IndexError
    | Some (when, h') =>
        match pyset_remove when (timers_set t) with
        | None => inl KeyError
        | Some s' => inr (when, mkNextTimers s' h')
        end
    end.

(** The states a NextTimers object goes through. *)
Inductive nt_reachable : NextTimers -> Prop :=
| nt_reach_init : nt_reachable NextTimers_init
| nt_reach_add t when :
    nt_reachable t -> nt_reachable (NextTimers_add when t)
| nt_reach_pop t when t' :
    nt_reachable t -> NextTimers_pop_closest t = inr (when, t') ->
    nt_reachable t'.

(** The part of a TimeTravelLoop that its own methods touch: [_time],
    [_timers], and [_ready], the queue of handles that the base class
    runs at the present time. *)
Record TimeTravelLoop := mkLoop {
  loop_time : Q;             (* self._time *)
  loop_timers : NextTimers;  (* self._timers *)
  loop_ready : list nat      (* self._ready *)
}.

(** [TimeTravelLoop.time] *)
Definition loop_time_now (l : TimeTravelLoop) : Q := loop_time l.

(** [TimeTravelLoop.set_time] *)
Definition loop_set_time (time : Q) (l : TimeTravelLoop) : TimeTravelLoop :=
  mkLoop time (loop_timers l) (loop_ready l).

(** [TimeTravelLoop.advance_time]: [if advance: self._time += advance] *)
Definition loop_advance_time (advance : Q) (l : TimeTravelLoop)
  : TimeTravelLoop :=
  if Qeq_bool advance 0 then l
  else mkLoop (loop_time l + advance) (loop_timers l) (loop_ready l).

(** [TimeTravelLoop.call_at], as far as this class goes: the deadline is
    recorded before the base class schedules the handle. *)
Definition loop_call_at (when : Q) (l : TimeTravelLoop) : TimeTravelLoop :=
  mkLoop (loop_time l) (NextTimers_add when (loop_timers l)) (loop_ready l).

(** [TimeTravelLoop._run_once] up to the call of the base class's
    [_run_once]. *)
Definition loop_run_once (l : TimeTravelLoop) : Exn + TimeTravelLoop :=
  if Nat.eqb (length (loop_ready l)) 0
  then if negb (NextTimers_is_empty (loop_timers l))
       then match NextTimers_pop_closest (loop_timers l) with
            | inl e => inl e
            | inr (when, t') => inr (mkLoop when t' (loop_ready l))
            end
       else inr l
  else inr l.
End Timers.

(** A heap kept as a sorted list: one way to meet the contract of [heapq],
    used to run NextTimers on examples. *)
Definition sorted_heappush (h : list Q) (x : Q) : list Q :=
  sort_insert Qle_bool x h.

Definition sorted_heappop (h : list Q) : option (Q * list Q) :=
  match h with
  | [] => None
  | m :: h' => Some (m, h')
  end.

#[export] Instance sorted_heapq : Heapq.
Proof.
  refine {| heappush := sorted_heappush;
            heappop := sorted_heappop;
            is_heap := StronglySorted Qle |}.
  - constructor.
  - intros h x Hh. unfold sorted_heappush.
    induction Hh as [| y l Hs IH Hall]; simpl.
    + repeat constructor.
    + destruct (Qle_bool x y) eqn:Hxy.
      * apply Qle_bool_iff in Hxy.
        constructor; [constructor; assumption |].
        constructor; [exact Hxy |].
        eapply Forall_impl; [exact Hall |].
        intros z Hz. eapply Qle_trans; eassumption.
      * assert (Hyx : y <= x).
        { apply Qlt_le_weak, Qnot_le_lt. rewrite <- Qle_bool_iff. congruence. }
        constructor; [exact IH |].
        clear IH Hs Hxy. induction Hall as [| z l Hz Hall IH]; simpl.
        -- repeat constructor. exact Hyx.
        -- destruct (Qle_bool x z); repeat constructor; assumption.
  - intros h x. unfold sorted_heappush.
    induction h as [| y l IH]; simpl; [reflexivity |].
    destruct (Qle_bool x y); [reflexivity |].
    rewrite IH. apply perm_swap.
  - reflexivity.
  - intros [| m h'] Hh Hne; [contradiction Hne; reflexivity |].
    exists m, h'. apply StronglySorted_inv in Hh as [Hh Hall].
    repeat split; try assumption; try reflexivity.
    constructor; [apply Qle_refl | exact Hall].
Defined.

(** The timers after three deadlines, one of them given twice. *)
Definition timers_example : NextTimers :=
  NextTimers_add 3 (NextTimers_add (1 # 2) (NextTimers_add 3 NextTimers_init)).

(** ** Programs used as examples *)

(** A callback that does nothing and returns None. *)
Definition cb_plain : cbid := 0%nat.
(** A callback that schedules itself again before the next frame. *)
Definition cb_rearm : cbid := 7%nat.

(** A callback that returns False. *)
Definition cb_stop : cbid := 3%nat.

Definition example_run (cb : cbid) (dt : Q) (u : unit) (c : Clock)
  : list Action * PyVal * unit :=
  if Nat.eqb cb cb_rearm
  then ([ActScheduleOnce cb_rearm (-1) 1], PyNone, tt)
  else if Nat.eqb cb cb_stop
       then ([], PyBool false, tt)
       else ([], PyNone, tt).

Definition example_run_io (cb : cbid) (u : unit) (c : Clock)
  : list Action * unit := ([], tt).

Definition example_steps (l : list (Step)) (c : Clock)
  : Clock * list Invocation :=
  let '(c', _, t) := steps unit example_run example_run_io l c tt in (c', t).

(** A clock created at time 0. *)
Definition clock0 : Clock := ClockBase_init 30 0 0.

(** A callback that raises as long as the time of the clock is at most 1,
    and the program with it; socket callbacks do not raise. *)
Definition cb_boom : cbid := 9%nat.

Definition example_raises (cb : cbid) (dt : Q) (u : unit) (c : Clock) : bool :=
  Nat.eqb cb cb_boom && Qle_bool (clk_last_tick c) 1.

Definition example_raises_io (cb : cbid) (u : unit) (c : Clock) : bool := false.

Definition example_steps_exn (l : list Step) (c : Clock)
  : Clock * list Invocation * list TickEnd :=
  let '(c', _, t, ends) :=
    steps_exn unit example_run example_run_io example_raises
      example_raises_io l c tt in
  (c', t, ends).

(** Two one-shot callbacks for the next frame; the one called second
    raises. *)
Definition clock_boom : Clock :=
  fst (schedule_once cb_boom 0 1 (fst (schedule_once cb_plain 0 5 clock0))).

(** ** Notions used to state the properties *)


(** What every operation of the clock keeps of an event object: the fields
    that only [__init__] assigns; a cancellation once it is recorded; for a
    positive timeout, a next fire time that only moves by whole timeouts;
    and a callback that is gone stays gone. *)
Definition ev_keeps (e e' : ClockEvent) : Prop :=
  ev_id e' = ev_id e /\ ev_loop e' = ev_loop e /\
  ev_timeout e' = ev_timeout e /\ ev_priority e' = ev_priority e /\
  (ev_callback_cancelled e = true -> ev_callback_cancelled e' = true) /\
  (0 < ev_timeout e ->
   exists k : nat,
     ev_next_event_time e' ==
     ev_next_event_time e + inject_Z (Z.of_nat k) * ev_timeout e) /\
  (get_callback e = None -> get_callback e' = None).

(** The store only grows, and each object evolves as [ev_keeps] says. *)
Definition store_keeps (c c' : Clock) : Prop :=
  forall r e, clk_store c !! r = Some e ->
    exists e', clk_store c' !! r = Some e' /\ ev_keeps e e'.

(** The event [r] exists and its cancellation is recorded. *)
Definition cancelled_in (c : Clock) (r : ref) : Prop :=
  exists e, clk_store c !! r = Some e /\ ev_callback_cancelled e = true.

(** The event [r] exists, its cancellation is recorded and its
    [_is_triggered] is clear: what [cancel] leaves of an event. *)
Definition cancelled_untriggered (c : Clock) (r : ref) : Prop :=
  exists e, clk_store c !! r = Some e /\ ev_callback_cancelled e = true /\
            ev_is_triggered e = false.

(** The queued tuple [ent] carries the id and the negated priority of the
    event it refers to. *)
Definition entry_of_event (c : Clock) (ent : FrameEntry) : Prop :=
  exists e, clk_store c !! fe_event ent = Some e /\
            fe_negprio ent = (- ev_priority e)%Z /\ fe_id ent = ev_id e.

(** Two one-shot callbacks for the next frame, the second one with the
    higher priority. *)
Definition clock_two_once : Clock :=
  fst (schedule_once 1%nat 0 5 (fst (schedule_once cb_plain 0 1 clock0))).

(** [ClockEvent.tick] called on the event [r] at the given times, one after
    the other, whatever these times are. *)
Fixpoint event_ticks (r : ref) (times : list Q) (c : Clock) : Clock :=
  match times with
  | [] => c
  | t :: ts => event_ticks r ts (fst (ClockEvent_tick r t c))
  end.

(** A call of [ClockEvent.tick] fires unless it returns True ("not yet"). *)
Definition fired (v : PyVal) : bool :=
  match v with PyBool true => false | _ => true end.

(** How many of these calls fired. *)
Fixpoint event_firings (r : ref) (times : list Q) (c : Clock) : nat :=
  match times with
  | [] => 0
  | t :: ts =>
      ((if fired (snd (ClockEvent_tick r t c)) then 1 else 0) +
       event_firings r ts (fst (ClockEvent_tick r t c)))%nat
  end.

Definition last_event_time (c : Clock) (r : ref) : Q :=
  match clk_store c !! r with
  | Some e => ev_last_event_time e
  | None => 0
  end.

(** One callback due 3 s after the creation of the clock. *)
Definition clock_one_timer : Clock := fst (schedule_once cb_plain 3 1 clock0).


(** The same clock after the callback has been cancelled, and the event
    object as it is then. *)
Definition clock_one_cancelled : Clock := cancel 0%nat clock_one_timer.

Definition event_one_cancelled : ClockEvent :=
  set_callback_cancelled true
    (set_is_triggered false (new_event clock0 false cb_plain 3 1)).

(** What is kept true of a NextTimers object: the heap is in heap order and
    holds exactly the elements of the set, each once. *)
Definition nt_inv `{Heapq} (t : NextTimers) : Prop :=
  is_heap (timers_heap t) /\
  Permutation (timers_set t) (timers_heap t) /\
  pyset_ok (timers_set t).

(** The two times a clock keeps between ticks: the length of the last frame
    and the time of the last tick. *)
Definition clk_times (c : Clock) : Q * Q := (clk_dt c, clk_last_tick c).

(** A one-shot callback 5 s after the creation of the clock, seen at two
    ticks, at 3 s and at 6 s. *)
Definition steps_once_5s : list (Step) :=
  [StepAct (ActScheduleOnce cb_plain 5 1); StepTick 0 [] 3; StepTick 3 [] 6].

(** A callback before the next frame that schedules itself again, and one
    tick. *)
Definition steps_rearm : list (Step) :=
  [StepAct (ActScheduleOnce cb_rearm (-1) 1); StepTick 0 [] 1].

(** A one-shot event with a timeout of 5 s that has fired at 5 s and is then
    called twice as a trigger. *)
Definition clock_fired_once : Clock :=
  fst (example_steps
         [StepAct (ActScheduleOnce cb_plain 5 1); StepTick 0 [] 5] clock0).

Definition clock_triggered_twice : Clock :=
  fst (ClockEvent_call 0%nat (fst (ClockEvent_call 0%nat clock_fired_once))).

(** A repeating event every second whose callback returns False, and the
    same clock in the middle of its first tick, when the event has been
    queued and its callback is about to be called. *)
Definition clock_stop_interval : Clock :=
  fst (schedule_interval cb_stop 1 1 clock0).

Definition clock_stop_interval_due : Clock :=
  fst (fst (before_callbacks unit example_run_io 0 [] 1 clock_stop_interval tt)).

(** What holds of a clock between the calls made on it: the ids of its
    events were drawn from the counter one after the other, so that they
    lie below the counter and grow in the order of creation; and
    [ordered_events] lists, once each, the events whose [_is_triggered] is
    set. *)
Definition clock_wf (c : Clock) : Prop :=
  Forall (fun i => (i < clk_counter c)%nat) (map ev_id (clk_store c)) /\
  StronglySorted lt (map ev_id (clk_store c)) /\
  NoDup (ordered_events c) /\
  (forall r, r ∈ ordered_events c <->
             exists e, clk_store c !! r = Some e /\ ev_is_triggered e = true).

(** ** The other parts of mpf/core/clock.py *)

(** [_hash(cb)]: bits 8 to 15 of [id(cb.__self__)] for a bound method, of
    [id(cb)] otherwise.  [self_id] is the identity of [cb.__self__] when
    the callable has one that is not None, [cb_id] that of the callable. *)
Definition clock_hash (self_id : option Z) (cb_id : Z) : Z :=
  match self_id with
  | Some i => Z.shiftr (Z.land i 65280) 8
  | None => Z.shiftr (Z.land cb_id 65280) 8
  end.

(** [int(x)] on a number: the integer part, towards zero. *)
Definition py_int (x : Q) : Z := Z.quot (Qnum x) (Z.pos (Qden x)).

(** [_ClockBase.usleep] where libc is found (clock.py:459-465):
    [_libc_usleep(int(microseconds))], with [_libc.usleep.argtypes =
    [ctypes.c_ulong]].  [int] drops the fraction; ctypes converts the
    integer to an unsigned long without range check, and libc's [usleep]
    takes a [useconds_t], which is 32 bits wide: it reads the number modulo
    2^32.  The result is the number of microseconds that libc sleeps. *)
Definition libc_usleep (microseconds : Q) : Z :=
  (py_int microseconds mod 4294967296)%Z.

(** ** mpf/tests/loop.py: the selector, readers and writers *)

Definition EVENT_READ : Z := 1.
Definition EVENT_WRITE : Z := 2.

(** What the methods below raise: KeyError from the selector,
    RuntimeError from [_check_closed], AssertionError from the mocked
    sockets. *)
Inductive LoopExn := SelectorKeyError | RuntimeError | AssertionError.

(** A Python dict with sockets as keys, in the order of insertion: a new
    key goes to the end, a key that is there keeps its place. *)
Fixpoint dict_get {V : Type} (k : nat) (d : list (nat * V)) : option V :=
  match d with
  | [] => None
  | (k', v) :: rest => if Nat.eqb k' k then Some v else dict_get k rest
  end.

Fixpoint dict_set {V : Type} (k : nat) (v : V) (d : list (nat * V))
  : list (nat * V) :=
  match d with
  | [] => [(k, v)]
  | (k', v') :: rest =>
      if Nat.eqb k' k then (k', v) :: rest else (k', v') :: dict_set k v rest
  end.

Definition dict_del {V : Type} (k : nat) (d : list (nat * V))
  : list (nat * V) :=
  List.filter (fun p => negb (Nat.eqb (fst p) k)) d.

(** [asyncio.events.Handle] as far as the loop looks at it: the callback
    and the flag [_cancelled].  Handles are objects; selector keys and the
    queue [_ready] hold references into the list of all handles made. *)
Record Handle := mkHandle {
  h_callback : option cbid;
  h_cancelled : bool
}.

(** [Handle.cancel] (standard library): sets the flag and drops the
    callback, once. *)
Definition Handle_cancel (h : Handle) : Handle :=
  if h_cancelled h then h else mkHandle None true.

(** [selectors.SelectorKey]; [data] is the pair (reader, writer) that the
    loop registers. *)
Record SelectorKey := mkKey {
  key_fileobj : nat;
  key_fd : Z;
  key_events : Z;
  key_data : option nat * option nat
}.

(** [TestSelector.register] *)
Definition TestSelector_register (fileobj : nat) (events : Z)
    (data : option nat * option nat) (keys : list (nat * SelectorKey))
  : list (nat * SelectorKey) * SelectorKey :=
  let key := mkKey fileobj 0 events data in
  (dict_set fileobj key keys, key).

(** [TestSelector.unregister]: [self.keys.pop(fileobj)] *)
Definition TestSelector_unregister (fileobj : nat)
    (keys : list (nat * SelectorKey))
  : LoopExn + list (nat * SelectorKey) * SelectorKey :=
  match dict_get fileobj keys with
  | None => inl SelectorKeyError
  | Some key => inr (dict_del fileobj keys, key)
  end.

(** [BaseSelector.get_key] (standard library): the key in [get_map()],
    KeyError (here None) when the socket is not registered. *)
Definition Selector_get_key (fileobj : nat) (keys : list (nat * SelectorKey))
  : option SelectorKey :=
  dict_get fileobj keys.

(** [BaseSelector.modify] (standard library): [unregister], then
    [register]. *)
Definition Selector_modify (fileobj : nat) (events : Z)
    (data : option nat * option nat) (keys : list (nat * SelectorKey))
  : LoopExn + list (nat * SelectorKey) * SelectorKey :=
  match TestSelector_unregister fileobj keys with
  | inl e => inl e
  | inr (keys1, _) => inr (TestSelector_register fileobj events data keys1)
  end.

(** [TestSelector.select]; [read_ready] and [write_ready] are the answers
    of the sockets at the time of the call. *)
Definition TestSelector_select (read_ready write_ready : nat -> bool)
    (keys : list (nat * SelectorKey)) : list (SelectorKey * Z) :=
  flat_map (fun p =>
              (if read_ready (fst p) then [(snd p, EVENT_READ)] else []) ++
              (if write_ready (fst p) then [(snd p, EVENT_WRITE)] else []))
           keys.

(** The part of a TimeTravelLoop that its readers and writers touch:
    [_closed], the keys of [_selector], the handles made so far, and
    [_ready]. *)
Record LoopIO := mkIO {
  io_closed : bool;
  io_keys : list (nat * SelectorKey);
  io_handles : list Handle;
  io_ready : list nat
}.

(** A loop after [__init__]. *)
Definition loop_io_init : LoopIO := mkIO false [] [] [].

(** [handle.cancel()] on a reference that may be None. *)
Definition cancel_handle (h : option nat) (hs : list Handle) : list Handle :=
  match h with
  | Some r => alter Handle_cancel r hs
  | None => hs
  end.

(** [TimeTravelLoop.add_reader] *)
Definition loop_add_reader (fd : nat) (callback : cbid) (l : LoopIO)
  : LoopExn + LoopIO :=
  if io_closed l then inl RuntimeError
  else
    let handle := length (io_handles l) in
    let hs := io_handles l ++ [mkHandle (Some callback) false] in
    match Selector_get_key fd (io_keys l) with
    | None =>
        inr (mkIO (io_closed l)
               (fst (TestSelector_register fd EVENT_READ (Some handle, None)
                       (io_keys l)))
               hs (io_ready l))
    | Some key =>
        let mask := key_events key in
        let reader := fst (key_data key) in
        let writer := snd (key_data key) in
        match Selector_modify fd (Z.lor mask EVENT_READ) (Some handle, writer)
                (io_keys l) with
        | inl e => inl e
        | inr (keys1, _) =>
            inr (mkIO (io_closed l) keys1 (cancel_handle reader hs)
                   (io_ready l))
        end
    end.

(** [TimeTravelLoop.remove_reader] *)
Definition loop_remove_reader (fd : nat) (l : LoopIO)
  : LoopExn + LoopIO * bool :=
  if io_closed l then inr (l, false)
  else
    match Selector_get_key fd (io_keys l) with
    | None => inr (l, false)
    | Some key =>
        let reader := fst (key_data key) in
        let writer := snd (key_data key) in
        let mask := Z.land (key_events key) (Z.lnot EVENT_READ) in
        match (if (mask =? 0)%Z
               then TestSelector_unregister fd (io_keys l)
               else Selector_modify fd mask (None, writer) (io_keys l)) with
        | inl e => inl e
        | inr (keys1, _) =>
            match reader with
            | Some r =>
                inr (mkIO (io_closed l) keys1
                       (alter Handle_cancel r (io_handles l)) (io_ready l),
                     true)
            | None =>
                inr (mkIO (io_closed l) keys1 (io_handles l) (io_ready l),
                     false)
            end
        end
    end.

(** [TimeTravelLoop.add_writer] *)
Definition loop_add_writer (fd : nat) (callback : cbid) (l : LoopIO)
  : LoopExn + LoopIO :=
  if io_closed l then inl RuntimeError
  else
    let handle := length (io_handles l) in
    let hs := io_handles l ++ [mkHandle (Some callback) false] in
    match Selector_get_key fd (io_keys l) with
    | None =>
        inr (mkIO (io_closed l)
               (fst (TestSelector_register fd EVENT_WRITE (None, Some handle)
                       (io_keys l)))
               hs (io_ready l))
    | Some key =>
        let mask := key_events key in
        let reader := fst (key_data key) in
        let writer := snd (key_data key) in
        match Selector_modify fd (Z.lor mask EVENT_WRITE) (reader, Some handle)
                (io_keys l) with
        | inl e => inl e
        | inr (keys1, _) =>
            inr (mkIO (io_closed l) keys1 (cancel_handle writer hs)
                   (io_ready l))
        end
    end.

(** [TimeTravelLoop.remove_writer] *)
Definition loop_remove_writer (fd : nat) (l : LoopIO)
  : LoopExn + LoopIO * bool :=
  if io_closed l then inr (l, false)
  else
    match Selector_get_key fd (io_keys l) with
    | None => inr (l, false)
    | Some key =>
        let reader := fst (key_data key) in
        let writer := snd (key_data key) in
        let mask := Z.land (key_events key) (Z.lnot EVENT_WRITE) in
        match (if (mask =? 0)%Z
               then TestSelector_unregister fd (io_keys l)
               else Selector_modify fd mask (reader, None) (io_keys l)) with
        | inl e => inl e
        | inr (keys1, _) =>
            match writer with
            | Some w =>
                inr (mkIO (io_closed l) keys1
                       (alter Handle_cancel w (io_handles l)) (io_ready l),
                     true)
            | None =>
                inr (mkIO (io_closed l) keys1 (io_handles l) (io_ready l),
                     false)
            end
        end
    end.

(** [BaseEventLoop._add_callback] (standard library): a handle that is
    not cancelled goes to the end of [_ready]. *)
Definition loop_add_callback (h : nat) (l : LoopIO) : LoopIO :=
  match io_handles l !! h with
  | Some hd =>
      if h_cancelled hd then l
      else mkIO (io_closed l) (io_keys l) (io_handles l) (io_ready l ++ [h])
  | None => l
  end.

(** [reader._cancelled] *)
Definition handle_cancelled (h : nat) (l : LoopIO) : bool :=
  match io_handles l !! h with
  | Some hd => h_cancelled hd
  | None => false
  end.

(** One side of the body of the loop in [_process_events]: [bit] is
    EVENT_READ or EVENT_WRITE, [h] the reader or the writer of the key and
    [remove] the matching [remove_reader] or [remove_writer]. *)
Definition process_side (mask bit : Z) (h : option nat)
    (remove : LoopIO -> LoopExn + LoopIO * bool) (l : LoopIO)
  : LoopExn + LoopIO :=
  match h with
  | Some r =>
      if negb (Z.land mask bit =? 0)%Z
      then if handle_cancelled r l
           then match remove l with
                | inl e => inl e
                | inr (l1, _) => inr l1
                end
           else inr (loop_add_callback r l)
      else inr l
  | None => inr l
  end.

(** [TimeTravelLoop._process_events] *)
Fixpoint loop_process_events (event_list : list (SelectorKey * Z))
    (l : LoopIO) : LoopExn + LoopIO :=
  match event_list with
  | [] => inr l
  | (key, mask) :: rest =>
      let fileobj := key_fileobj key in
      let reader := fst (key_data key) in
      let writer := snd (key_data key) in
      match process_side mask EVENT_READ reader
              (loop_remove_reader fileobj) l with
      | inl e => inl e
      | inr l1 =>
          match process_side mask EVENT_WRITE writer
                  (loop_remove_writer fileobj) l1 with
          | inl e => inl e
          | inr l2 => loop_process_events rest l2
          end
      end
  end.

(** What a test does with the readers and writers of a loop. *)
Inductive IOOp :=
| AddReader (fd : nat) (callback : cbid)
| RemoveReader (fd : nat)
| AddWriter (fd : nat) (callback : cbid)
| RemoveWriter (fd : nat)
| SelectAndProcess (read_ready write_ready : nat -> bool).

Definition io_step (op : IOOp) (l : LoopIO) : LoopExn + LoopIO :=
  match op with
  | AddReader fd cb => loop_add_reader fd cb l
  | RemoveReader fd =>
      match loop_remove_reader fd l with
      | inl e => inl e
      | inr (l1, _) => inr l1
      end
  | AddWriter fd cb => loop_add_writer fd cb l
  | RemoveWriter fd =>
      match loop_remove_writer fd l with
      | inl e => inl e
      | inr (l1, _) => inr l1
      end
  | SelectAndProcess rr wr =>
      loop_process_events (TestSelector_select rr wr (io_keys l)) l
  end.

Fixpoint io_steps (ops : list IOOp) (l : LoopIO) : LoopExn + LoopIO :=
  match ops with
  | [] => inr l
  | op :: rest =>
      match io_step op l with
      | inl e => inl e
      | inr l1 => io_steps rest l1
      end
  end.

(** The handles that a key holds, and those of all keys. *)
Definition key_handles (key : SelectorKey) : list nat :=
  option_list (fst (key_data key)) ++ option_list (snd (key_data key)).

Definition registered_handles (keys : list (nat * SelectorKey)) : list nat :=
  flat_map (fun p => key_handles (snd p)) keys.

(** A key as the loop registers it: it sits under its own socket, with
    file descriptor 0, and its mask says which of reader and writer it
    holds. *)
Definition key_ok (fd : nat) (key : SelectorKey) : Prop :=
  key_fileobj key = fd /\ key_fd key = 0%Z /\
  key_events key =
    Z.lor (match fst (key_data key) with Some _ => EVENT_READ | None => 0 end)
          (match snd (key_data key) with Some _ => EVENT_WRITE | None => 0 end)
  /\
  key_events key <> 0%Z.

(** A handle that exists, is not cancelled and still has its callback. *)
Definition live (hs : list Handle) (h : nat) : Prop :=
  exists hd, hs !! h = Some hd /\ h_cancelled hd = false /\
             h_callback hd <> None.

Definition handles_live (keys : list (nat * SelectorKey)) (hs : list Handle)
  : Prop :=
  forall h, h ∈ registered_handles keys -> live hs h.

(** The state of the readers and writers of a loop: every socket has one
    key, every key is as above, no handle is registered twice, and every
    handle that is registered is live. *)
Definition io_wf (l : LoopIO) : Prop :=
  NoDup (map fst (io_keys l)) /\
  (forall fd key, (fd, key) ∈ io_keys l -> key_ok fd key) /\
  NoDup (registered_handles (io_keys l)) /\
  handles_live (io_keys l) (io_handles l).

(** The handles that [_process_events] queues for what [select] reports:
    for each key in the order of the selector, the reader if the socket can
    be read and the writer if it can be written. *)
Definition ready_handles (read_ready write_ready : nat -> bool)
    (keys : list (nat * SelectorKey)) : list nat :=
  flat_map (fun p =>
              (if read_ready (fst p)
               then option_list (fst (key_data (snd p))) else []) ++
              (if write_ready (fst p)
               then option_list (snd (key_data (snd p))) else []))
           keys.

(** A loop with a reader and a writer on socket 1 and a reader on
    socket 2. *)
Definition loop_io_example : LoopIO :=
  mkIO false
    [(1%nat, mkKey 1 0 3 (Some 0%nat, Some 1%nat));
     (2%nat, mkKey 2 0 1 (Some 2%nat, None))]
    [mkHandle (Some cb_plain) false; mkHandle (Some cb_stop) false;
     mkHandle (Some cb_rearm) false]
    [].

(** What the selector holds for a socket before a call: its mask, reader
    and writer, or 0 and None when the socket is not registered. *)
Definition old_events (fd : nat) (l : LoopIO) : Z :=
  match dict_get fd (io_keys l) with
  | Some key => key_events key
  | None => 0
  end.

Definition old_reader (fd : nat) (l : LoopIO) : option nat :=
  match dict_get fd (io_keys l) with
  | Some key => fst (key_data key)
  | None => None
  end.

Definition old_writer (fd : nat) (l : LoopIO) : option nat :=
  match dict_get fd (io_keys l) with
  | Some key => snd (key_data key)
  | None => None
  end.

(** ** mpf/tests/loop.py: mocked sockets *)

(** The sockets that a test has made, as far as the loop looks at them:
    [net_open] holds the sockets whose [is_open] is True (a MockSocket
    starts with False), [net_mock_sockets] is [self._mock_sockets]. *)
Record MockNet := mkNet {
  net_open : gset nat;
  net_mock_sockets : gmap string nat
}.

(** [host + ":" + str(port)] *)
Definition mock_key (host : string) (port : Z) : string :=
  host +:+ ":" +:+ pretty port.

(** [TimeTravelLoop.mock_socket] *)
Definition loop_mock_socket (host : string) (port : Z) (socket : nat)
    (net : MockNet) : MockNet :=
  mkNet (net_open net) (<[mock_key host port := socket]> (net_mock_sockets net)).

(** [TimeTravelLoop._open_mock_socket] *)
Definition loop_open_mock_socket (host : string) (port : Z) (net : MockNet)
  : LoopExn + MockNet * nat :=
  match net_mock_sockets net !! mock_key host port with
  | None => inl AssertionError
  | Some socket =>
      if bool_decide (socket ∈ net_open net) then inl AssertionError
      else inr (mkNet ({[socket]} ∪ net_open net) (net_mock_sockets net),
                socket)
  end.

(** A test that has made one socket and mocked nothing yet. *)
Definition net_example : MockNet := mkNet ∅ ∅.

(** ** Further notions and examples *)

(** The fire time that [ClockEvent.tick] records for an event it fires at
    [curtime]: the time the event was scheduled for when its timeout is
    positive, the time of the tick otherwise. *)
Definition fire_time (e : ClockEvent) (curtime : Q) : Q :=
  if Qltb 0 (ev_timeout e) then ev_next_event_time e else curtime.

(** The event is one that [_process_events] fires: its next fire time has
    come, it is not cancelled and its callback is alive. *)
Definition is_due (c : Clock) (e : ClockEvent) : Prop :=
  ev_next_event_time e <= clk_last_tick c /\
  ev_callback_cancelled e = false /\
  get_callback e <> None.

(** The second of the two one-shot events of [clock_two_once]. *)
Definition event_two_once_second : ClockEvent :=
  new_event (fst (schedule_once cb_plain 0 1 clock0)) false 1%nat 0 5.

(** [clock_one_timer] one second after its creation: the callback is due
    at 3. *)
Definition clock_one_timer_at_1 : Clock :=
  set_tick_time 1 1 (update_stats 1 (clk_stats clock_one_timer)) clock_one_timer.

(** The state in which [_process_events] leaves an event it has queued: the
    cancellation flag is clear, and a one-shot event is no longer
    scheduled. *)
Definition queued_state (c : Clock) (ent : FrameEntry) : Prop :=
  exists e, clk_store c !! fe_event ent = Some e /\
    ev_callback_cancelled e = false /\
    (ev_loop e = false ->
     ev_is_triggered e = false /\ fe_event ent ∉ ordered_events c).

(** Two one-shot events with the same callback and one with another. *)
Definition clock_three_once : Clock :=
  fst (schedule_once cb_plain 2 1
    (fst (schedule_once cb_stop 1 1 (fst (schedule_once cb_plain 0 1 clock0))))).

(** The start time and the number of frames of a clock. *)
Definition clk_counters (c : Clock) : Q * Z := (clk_start_tick c, clk_frames c).



(** A clock with one socket registered and nothing scheduled. *)
Definition clock_one_socket : Clock :=
  schedule_socket_read_callback 4%nat cb_plain clock0.

(** Membership in a list that is written out. *)
Ltac elem_tac :=
  solve [repeat first [apply list_elem_of_here | apply list_elem_of_further]].

(** ** ClockEvent.tick on binary64 numbers *)

(** The time source of the clock returns Python floats, and
    [ClockEvent.tick] adds and compares them as such.  For the one property
    that rests on the exact value of a sum, the drift of a repeating event,
    the numbers of an event are taken as they are in the code: binary64
    floats, here the floats of the kernel, with their addition, subtraction
    and comparison. *)

(** The numbers of a ClockEvent: [timeout], [_last_dt], [_next_event_time],
    [_last_event_time] and [_dt]. *)
Record EventTimes := mkEventTimes {
  et_timeout : float;
  et_last_dt : float;
  et_next_event_time : float;
  et_last_event_time : float;
  et_dt : float
}.

(** [ClockEvent.__init__]: [_last_dt = starttime],
    [_next_event_time = starttime + timeout], [_last_event_time = 0],
    [_dt = 0.]. *)
Definition new_event_times (starttime timeout : float) : EventTimes :=
  mkEventTimes timeout starttime (starttime + timeout)%float 0%float 0%float.

(** The head of [ClockEvent.tick(curtime, remove)] (clock.py:589-602): None
    when the event is not yet due (the method returns True), and otherwise
    the numbers of the event after the assignments. *)
Definition tick_times (curtime : float) (e : EventTimes) : option EventTimes :=
  if (0 <? et_timeout e)%float && (curtime <? et_next_event_time e)%float
  then None
  else
    let dt := (curtime - et_last_dt e)%float in
    if (0 <? et_timeout e)%float
    then Some (mkEventTimes (et_timeout e) curtime
                 (et_next_event_time e + et_timeout e)%float
                 (et_next_event_time e) dt)
    else Some (mkEventTimes (et_timeout e) curtime curtime curtime dt).

(** [tick] called at the given times, one after the other, whatever these
    times are, and the number of these calls that fired. *)
Fixpoint ticks_times (times : list float) (e : EventTimes) : EventTimes :=
  match times with
  | [] => e
  | t :: ts =>
      ticks_times ts (match tick_times t e with Some e' => e' | None => e end)
  end.

Fixpoint firings_times (times : list float) (e : EventTimes) : nat :=
  match times with
  | [] => 0
  | t :: ts =>
      match tick_times t e with
      | Some e' => S (firings_times ts e')
      | None => firings_times ts e
      end
  end.

(** [x + T + T + ... + T] with [n] additions, one after the other, each
    rounded as binary64 addition rounds. *)
Fixpoint add_repeatedly (n : nat) (T x : float) : float :=
  match n with
  | O => x
  | S k => add_repeatedly k T (x + T)%float
  end.

(** The number that a float stands for; 0 for the infinities and NaN, which
    stand for none. *)
Definition float_value (x : float) : Q :=
  match Prim2SF x with
  | S754_finite s m e =>
      (if s then - inject_Z (Z.pos m) else inject_Z (Z.pos m)) * Qpower 2 e
  | _ => 0
  end.

(** The binary64 number nearest to 0.1, which is
    0.1000000000000000055511151231257827. *)
Definition one_tenth : float := 0x1.999999999999ap-4%float.

(** * Properties *)

(** ** Comparisons *)

Lemma Qltb_lt x y : Qltb x y = true <-> x < y.
Proof.
  unfold Qltb. rewrite negb_true_iff, <- not_true_iff_false, Qle_bool_iff.
  split; intros Hxy; [apply Qnot_le_lt | apply Qlt_not_le]; exact Hxy.
Qed.

Lemma Qltb_ge x y : Qltb x y = false <-> y <= x.
Proof.
  unfold Qltb. rewrite negb_false_iff. apply Qle_bool_iff.
Qed.

Lemma Qle_bool_false x y : Qle_bool x y = false -> y < x.
Proof.
  intros Hxy. apply Qnot_le_lt. rewrite <- Qle_bool_iff. congruence.
Qed.





(** ** The stable sort *)

Section StableSortFacts.
Context {A : Type} (leb : A -> A -> bool).

Lemma sort_insert_perm x l : Permutation (sort_insert leb x l) (x :: l).
Proof.
  induction l as [| y l IH]; simpl; [reflexivity |].
  destruct (leb x y); [reflexivity |].
  rewrite IH. apply perm_swap.
Qed.

Lemma stable_sort_perm l : Permutation (stable_sort leb l) l.
Proof.
  induction l as [| x l IH]; simpl; [reflexivity |].
  rewrite sort_insert_perm. constructor. exact IH.
Qed.

Context (le : A -> A -> Prop).
Hypothesis leb_le : forall x y, leb x y = true -> le x y.
Hypothesis leb_total : forall x y, leb x y = false -> le y x.
Hypothesis le_trans : forall x y z, le x y -> le y z -> le x z.

Lemma sort_insert_sorted x l :
  StronglySorted le l -> StronglySorted le (sort_insert leb x l).
Proof.
  induction 1 as [| y l Hs IH Hall]; simpl.
  - repeat constructor.
  - destruct (leb x y) eqn:Hxy.
    + constructor; [constructor; assumption |].
      constructor; [auto |].
      eapply Forall_impl; [exact Hall |].
      intros z Hz. eapply le_trans; [apply leb_le; exact Hxy | exact Hz].
    + constructor; [exact IH |].
      eapply Permutation_Forall;
        [symmetry; apply sort_insert_perm |].
      constructor; [apply leb_total; exact Hxy | exact Hall].
Qed.

Lemma stable_sort_sorted l : StronglySorted le (stable_sort leb l).
Proof.
  induction l as [| x l IH]; simpl; [constructor |].
  apply sort_insert_sorted. exact IH.
Qed.
End StableSortFacts.


(** ** What the operations keep of the store *)

Lemma ev_keeps_same e e' :
  ev_id e' = ev_id e -> ev_loop e' = ev_loop e ->
  ev_timeout e' = ev_timeout e -> ev_priority e' = ev_priority e ->
  (ev_callback_cancelled e = true -> ev_callback_cancelled e' = true) ->
  ev_next_event_time e' = ev_next_event_time e ->
  (get_callback e = None -> get_callback e' = None) ->
  ev_keeps e e'.
Proof.
  intros H1 H2 H3 H4 H5 H6 H7. unfold ev_keeps.
  split; [exact H1 |]. split; [exact H2 |]. split; [exact H3 |].
  split; [exact H4 |]. split; [exact H5 |]. split; [| exact H7].
  intros _. exists 0%nat. rewrite H6. simpl. ring.
Qed.

Lemma ev_keeps_refl e : ev_keeps e e.
Proof. apply ev_keeps_same; auto. Qed.

Lemma ev_keeps_trans e1 e2 e3 : ev_keeps e1 e2 -> ev_keeps e2 e3 -> ev_keeps e1 e3.
Proof.
  unfold ev_keeps.
  intros (A1 & A2 & A3 & A4 & A5 & A6 & A7) (B1 & B2 & B3 & B4 & B5 & B6 & B7).
  split; [congruence |]. split; [congruence |]. split; [congruence |].
  split; [congruence |]. split; [auto |]. split; [| auto].
  intros HT. destruct (A6 HT) as [k1 Hk1].
  rewrite <- A3 in HT. destruct (B6 HT) as [k2 Hk2].
  exists (k1 + k2)%nat. rewrite Hk2, Hk1, A3, Nat2Z.inj_add, inject_Z_plus.
  ring.
Qed.

Lemma store_keeps_refl c : store_keeps c c.
Proof. intros r e Hr. exists e. split; [exact Hr | apply ev_keeps_refl]. Qed.

Lemma store_keeps_trans c1 c2 c3 :
  store_keeps c1 c2 -> store_keeps c2 c3 -> store_keeps c1 c3.
Proof.
  intros H12 H23 r e Hr.
  destruct (H12 r e Hr) as (e2 & Hr2 & K12).
  destruct (H23 r e2 Hr2) as (e3 & Hr3 & K23).
  exists e3. split; [exact Hr3 | eapply ev_keeps_trans; eassumption].
Qed.

Lemma store_keeps_same_store c c' :
  clk_store c' = clk_store c -> store_keeps c c'.
Proof.
  intros Heq r e Hr. exists e. rewrite Heq.
  split; [exact Hr | apply ev_keeps_refl].
Qed.

Lemma cancelled_in_keeps c c' r :
  store_keeps c c' -> cancelled_in c r -> cancelled_in c' r.
Proof.
  intros Hk (e & Hr & Hc). destruct (Hk r e Hr) as (e' & Hr' & K).
  exists e'. split; [exact Hr' | apply K; exact Hc].
Qed.

(** A mutation of the object [r] that is harmless on the object found
    there. *)
Lemma store_keeps_update_at c r f :
  (forall e, clk_store c !! r = Some e -> ev_keeps e (f e)) ->
  store_keeps c (update_event r f c).
Proof.
  intros Hf r' e Hr'. unfold update_event; simpl.
  destruct (decide (r = r')) as [-> | Hne].
  - exists (f e). rewrite list_lookup_alter_eq, Hr'. split; [reflexivity | auto].
  - exists e. rewrite list_lookup_alter_ne by exact Hne.
    split; [exact Hr' | apply ev_keeps_refl].
Qed.

Lemma store_keeps_update c r f :
  (forall e, ev_keeps e (f e)) -> store_keeps c (update_event r f c).
Proof. intros Hf. apply store_keeps_update_at. auto. Qed.

Lemma store_keeps_alloc c e msg : store_keeps c (alloc_event e msg c).
Proof.
  intros r e0 Hr. exists e0. simpl.
  split; [apply lookup_app_l_Some; exact Hr | apply ev_keeps_refl].
Qed.

Lemma ev_keeps_set_is_triggered b e : ev_keeps e (set_is_triggered b e).
Proof. apply ev_keeps_same; simpl; auto. Qed.

Lemma ev_keeps_set_last_dt t e : ev_keeps e (set_last_dt t e).
Proof. apply ev_keeps_same; simpl; auto. Qed.

Lemma ev_keeps_set_cancelled e : ev_keeps e (set_callback_cancelled true e).
Proof. apply ev_keeps_same; simpl; auto. Qed.


(** The assignments of [ClockEvent.tick]. *)
Lemma ev_keeps_tick_times t e :
  ev_keeps e
    (if Qltb 0 (ev_timeout e)
     then set_times (t - ev_last_dt e) t (ev_next_event_time e)
            (ev_next_event_time e + ev_timeout e) e
     else set_times (t - ev_last_dt e) t t t e).
Proof.
  destruct (Qltb 0 (ev_timeout e)) eqn:HT; unfold ev_keeps; simpl.
  - do 5 (split; [tauto |]). split; [| exact (fun H => H)].
    intros _. exists 1%nat. simpl. ring.
  - do 5 (split; [tauto |]). split; [| exact (fun H => H)].
    intros HT'. apply Qltb_lt in HT'. congruence.
Qed.

Lemma ev_keeps_release e : ev_keeps e (release e).
Proof.
  apply ev_keeps_same; simpl; auto.
  unfold get_callback, release. simpl.
  destruct (ev_callback e) as [cb | w]; [discriminate | reflexivity].
Qed.

Lemma ev_keeps_reclaim e : ev_keeps e (reclaim e).
Proof.
  unfold reclaim. destruct (ev_callback e) as [cb | w] eqn:Hcb;
    [apply ev_keeps_refl |].
  apply ev_keeps_same; simpl; auto.
Qed.

Lemma store_keeps_untrigger r c : store_keeps c (untrigger_and_remove r c).
Proof.
  unfold untrigger_and_remove.
  eapply store_keeps_trans;
    [apply store_keeps_update, ev_keeps_set_is_triggered |].
  apply store_keeps_same_store. reflexivity.
Qed.

Lemma store_keeps_cancel r c : store_keeps c (cancel r c).
Proof.
  unfold cancel. destruct (clk_store c !! r) as [e |];
    [| apply store_keeps_refl].
  destruct (ev_is_triggered e).
  - eapply store_keeps_trans; [apply (store_keeps_untrigger r) |].
    apply store_keeps_update, ev_keeps_set_cancelled.
  - apply store_keeps_update, ev_keeps_set_cancelled.
Qed.

Lemma store_keeps_call r c : store_keeps c (fst (ClockEvent_call r c)).
Proof.
  unfold ClockEvent_call. destruct (clk_store c !! r) as [e |];
    [| apply store_keeps_refl].
  destruct (ev_is_triggered e); simpl; [apply store_keeps_refl |].
  eapply store_keeps_trans; [| apply store_keeps_same_store; reflexivity].
  apply store_keeps_update. intros e0.
  eapply ev_keeps_trans;
    [apply ev_keeps_set_is_triggered | apply ev_keeps_set_last_dt].
Qed.

Lemma store_keeps_schedule_once cb t p c :
  store_keeps c (fst (schedule_once cb t p c)).
Proof.
  unfold schedule_once; simpl.
  eapply store_keeps_trans; [apply store_keeps_alloc |].
  apply store_keeps_same_store. reflexivity.
Qed.

Lemma store_keeps_schedule_interval cb t p c :
  store_keeps c (fst (schedule_interval cb t p c)).
Proof.
  unfold schedule_interval; simpl.
  eapply store_keeps_trans; [apply store_keeps_alloc |].
  apply store_keeps_same_store. reflexivity.
Qed.

Lemma store_keeps_unschedule_loop all cb l c :
  store_keeps c (unschedule_loop all cb l c).
Proof.
  revert c. induction l as [| r l IH]; intros c; simpl;
    [apply store_keeps_refl |].
  destruct (callback_is c r cb); [| apply IH].
  destruct all; [| apply store_keeps_cancel].
  eapply store_keeps_trans; [apply (store_keeps_cancel r) | apply IH].
Qed.

Lemma store_keeps_action c a : store_keeps c (apply_action c a).
Proof.
  destruct a; simpl.
  - apply store_keeps_schedule_once.
  - apply store_keeps_schedule_interval.
  - apply store_keeps_call.
  - apply store_keeps_cancel.
  - apply store_keeps_unschedule_loop.
  - apply store_keeps_same_store. reflexivity.
  - apply store_keeps_update, ev_keeps_release.
  - apply store_keeps_same_store. reflexivity.
  - apply store_keeps_same_store. reflexivity.
  - apply store_keeps_update, ev_keeps_reclaim.
  - apply store_keeps_same_store. reflexivity.
Qed.

Lemma store_keeps_actions acts c : store_keeps c (apply_actions acts c).
Proof.
  revert c. induction acts as [| a acts IH]; intros c; simpl;
    [apply store_keeps_refl |].
  eapply store_keeps_trans; [apply store_keeps_action | apply IH].
Qed.

Lemma add_event_to_frame_callbacks_store r c :
  clk_store (add_event_to_frame_callbacks r c) = clk_store c.
Proof.
  unfold add_event_to_frame_callbacks.
  destruct (clk_store c !! r); reflexivity.
Qed.

(** [ClockEvent.tick] clears the cancellation flag; [_process_events] only
    calls it on events whose flag is clear. *)
Lemma store_keeps_event_tick r t c e :
  clk_store c !! r = Some e -> ev_callback_cancelled e = false ->
  store_keeps c (fst (ClockEvent_tick r t c)).
Proof.
  intros Hr Hc. unfold ClockEvent_tick. rewrite Hr.
  destruct (Qltb 0 (ev_timeout e) && Qltb t (ev_next_event_time e));
    [apply store_keeps_refl |].
  set (e1 := if Qltb 0 (ev_timeout e) then _ else _).
  assert (K1 : ev_keeps e e1) by (subst e1; apply ev_keeps_tick_times).
  assert (S1 : store_keeps c (update_event r (fun _ => e1) c)).
  { apply store_keeps_update_at. intros e0 He0.
    assert (e0 = e) by congruence. subst e0. exact K1. }
  destruct (get_callback e1); simpl.
  - assert (S2 : store_keeps c
      (update_event r (set_callback_cancelled false)
         (update_event r (fun _ => e1) c))).
    { intros r' e' Hr'. unfold update_event; simpl.
      destruct (decide (r = r')) as [-> | Hne].
      - rewrite !list_lookup_alter_eq, Hr'. simpl. eexists; split; [reflexivity |].
        assert (e' = e) by congruence. subst e'.
        destruct K1 as (A1 & A2 & A3 & A4 & _ & A6 & A7).
        unfold ev_keeps; simpl.
        split; [exact A1 |]. split; [exact A2 |]. split; [exact A3 |].
        split; [exact A4 |]. split; [congruence |]. split; [exact A6 |].
        exact A7.
      - rewrite !list_lookup_alter_ne by exact Hne.
        exists e'. split; [exact Hr' | apply ev_keeps_refl]. }
    assert (S3 : store_keeps c
      (add_event_to_frame_callbacks r
        (update_event r (set_callback_cancelled false)
           (update_event r (fun _ => e1) c)))).
    { eapply store_keeps_trans; [exact S2 |].
      apply store_keeps_same_store, add_event_to_frame_callbacks_store. }
    destruct (ev_loop e); [exact S3 |].
    eapply store_keeps_trans; [exact S3 | apply store_keeps_untrigger].
  - eapply store_keeps_trans; [exact S1 | apply store_keeps_untrigger].
Qed.

Lemma store_keeps_process_events_loop l c :
  store_keeps c (process_events_loop l c).
Proof.
  revert c. induction l as [| r l IH]; intros c; simpl;
    [apply store_keeps_refl |].
  destruct (clk_store c !! r) as [e |] eqn:Hr; [| apply IH].
  destruct (Qltb (clk_last_tick c) (ev_next_event_time e));
    [apply store_keeps_refl |].
  destruct (ev_callback_cancelled e) eqn:Hc; [apply IH |].
  eapply store_keeps_trans; [| apply IH].
  eapply store_keeps_event_tick; eassumption.
Qed.

Lemma store_keeps_process_events c : store_keeps c (process_events c).
Proof.
  unfold process_events. destruct (ordered_events c);
    [apply store_keeps_refl |].
  eapply store_keeps_trans; [| apply store_keeps_process_events_loop].
  apply store_keeps_same_store. reflexivity.
Qed.

Lemma sleep_until_next_event_store now c :
  clk_store (fst (sleep_until_next_event now c)) = clk_store c.
Proof.
  unfold sleep_until_next_event, get_sleep_time, get_next_event_time.
  destruct (ordered_events c); simpl.
  - destruct (negb _); reflexivity.
  - destruct (negb _); [reflexivity |].
    match goal with |- context [Qltb 0 ?x] => destruct (Qltb 0 x) end;
      reflexivity.
Qed.

(** ** Dispatch: which callbacks are called, and in what order *)

Section ProgramFacts.
Variable U : Type.
Variable run : cbid -> Q -> U -> Clock -> list Action * PyVal * U.
Variable run_io : cbid -> U -> Clock -> list Action * U.

(** One tuple of the queue leads to at most one call, of an event whose
    cancellation flag is clear at that moment. *)
Lemma dispatch_entry_facts ent c u c' u' t :
  dispatch_entry U run ent c u = (c', u', t) ->
  store_keeps c c' /\
  Forall (fun i => inv_entry i = ent /\ ~ cancelled_in c (inv_event i)) t /\
  (length t <= 1)%nat.
Proof.
  unfold dispatch_entry.
  destruct (clk_store c !! fe_event ent) as [e |] eqn:Hr.
  2: { intros [= <- <- <-]. split; [apply store_keeps_refl |]. simpl.
       split; [constructor | lia]. }
  destruct (ev_callback_cancelled e) eqn:Hc.
  { intros [= <- <- <-]. split; [apply store_keeps_refl |]. simpl.
    split; [constructor | lia]. }
  destruct (get_callback e) as [cb |].
  - destruct (run cb (frametime c) u c) as [[acts ret] u1].
    intros [= <- <- <-]. split; [| split; [| simpl; lia]].
    + destruct (ev_loop e && is_False ret).
      * eapply store_keeps_trans;
          [apply store_keeps_actions | apply store_keeps_cancel].
      * apply store_keeps_actions.
    + constructor; [| constructor]. split; [reflexivity |].
      unfold inv_event; simpl. intros (e0 & He0 & Hc0). congruence.
  - intros [= <- <- <-]. split; [| split; [constructor | simpl; lia]].
    destruct (ev_loop e);
      [apply store_keeps_cancel | apply store_keeps_refl].
Qed.

Lemma dispatch_facts q c u c' u' t :
  dispatch U run q c u = (c', u', t) ->
  store_keeps c c' /\
  Forall (fun i => ~ cancelled_in c (inv_event i)) t /\
  sublist (map inv_entry t) q.
Proof.
  revert c u c' u' t. induction q as [| ent q IH]; intros c u c' u' t; simpl.
  - intros [= <- <- <-]. split; [apply store_keeps_refl |].
    split; constructor.
  - destruct (dispatch_entry U run ent c u) as [[c1 u1] t1] eqn:E1.
    destruct (dispatch U run q c1 u1) as [[c2 u2] t2] eqn:E2.
    intros [= <- <- <-].
    apply dispatch_entry_facts in E1 as (K1 & F1 & L1).
    apply IH in E2 as (K2 & F2 & S2).
    split; [eapply store_keeps_trans; eassumption |]. split.
    + apply Forall_app. split.
      * eapply Forall_impl; [exact F1 |]. intros i [_ Hi]. exact Hi.
      * eapply Forall_impl; [exact F2 |]. intros i Hi Hc. apply Hi.
        eapply cancelled_in_keeps; eassumption.
    + rewrite map_app. destruct t1 as [| i1 [| i2 t1]]; simpl in *.
      * apply sublist_cons. exact S2.
      * apply Forall_cons in F1 as [[-> _] _].
        apply sublist_skip. exact S2.
      * lia.
Qed.

Lemma process_event_callbacks_facts c u c' u' t :
  process_event_callbacks U run c u = (c', u', t) ->
  store_keeps c c' /\
  Forall (fun i => ~ cancelled_in c (inv_event i)) t /\
  sublist (map inv_entry t) (stable_sort entry_leb (frame_callbacks c)) /\
  frame_callbacks c' = [].
Proof.
  unfold process_event_callbacks.
  destruct (dispatch U run _ c u) as [[c1 u1] t1] eqn:E.
  intros [= <- <- <-]. apply dispatch_facts in E as (K & F & S).
  split; [| split; [exact F | split; [exact S | reflexivity]]].
  eapply store_keeps_trans; [exact K |].
  apply store_keeps_same_store. reflexivity.
Qed.

Lemma store_keeps_socket_callbacks ready c u :
  store_keeps c (fst (socket_callbacks U run_io ready c u)).
Proof.
  revert c u. induction ready as [| s ready IH]; intros c u; simpl;
    [apply store_keeps_refl |].
  destruct (read_sockets c !! s) as [cb |]; [| apply IH].
  destruct (run_io cb u c) as [acts u1].
  eapply store_keeps_trans; [apply store_keeps_actions | apply IH].
Qed.

Lemma store_keeps_before_callbacks now ready current c u :
  store_keeps c (fst (fst (before_callbacks U run_io now ready current c u))).
Proof.
  unfold before_callbacks.
  pose proof (sleep_until_next_event_store now c) as Hs.
  destruct (sleep_until_next_event now c) as [c1 w]; simpl in Hs.
  assert (K1 : store_keeps c c1) by (apply store_keeps_same_store; exact Hs).
  assert (K2 : forall c2, store_keeps c c2 ->
    store_keeps c (process_events
      (set_tick_time (current - clk_last_tick c2) current
         (update_stats current (clk_stats c2)) c2))).
  { intros c2 K. eapply store_keeps_trans; [exact K |].
    eapply store_keeps_trans; [| apply store_keeps_process_events].
    apply store_keeps_same_store. reflexivity. }
  destruct w; simpl; try (apply K2; exact K1).
  pose proof (store_keeps_socket_callbacks ready c1 u) as K3.
  destruct (socket_callbacks U run_io ready c1 u) as [c2 u2]; simpl in *.
  apply K2. eapply store_keeps_trans; eassumption.
Qed.

Lemma tick_facts now ready current c u c' u' o :
  ClockBase_tick U run run_io now ready current c u = (c', u', o) ->
  store_keeps c c' /\
  Forall (fun i => ~ cancelled_in c (inv_event i)) (to_calls o) /\
  frame_callbacks c' = [].
Proof.
  unfold ClockBase_tick.
  pose proof (store_keeps_before_callbacks now ready current c u) as K1.
  destruct (before_callbacks U run_io now ready current c u) as [[c4 u2] w].
  destruct (process_event_callbacks U run c4 u2) as [[c5 u5] t] eqn:E.
  intros [= <- <- <-]. simpl in *.
  apply process_event_callbacks_facts in E as (K2 & F & _ & Hf).
  split; [eapply store_keeps_trans; eassumption |]. split; [| exact Hf].
  eapply Forall_impl; [exact F |]. intros i Hi Hc. apply Hi.
  eapply cancelled_in_keeps; eassumption.
Qed.

Lemma steps_facts l c u c' u' t :
  steps U run run_io l c u = (c', u', t) ->
  store_keeps c c' /\
  Forall (fun i => ~ cancelled_in c (inv_event i)) t.
Proof.
  revert c u c' u' t. induction l as [| s l IH]; intros c u c' u' t; simpl.
  - intros [= <- <- <-]. split; [apply store_keeps_refl | constructor].
  - destruct (step U run run_io s c u) as [[c1 u1] t1] eqn:E1.
    destruct (steps U run run_io l c1 u1) as [[c2 u2] t2] eqn:E2.
    intros [= <- <- <-]. apply IH in E2 as (K2 & F2).
    assert (K1 : store_keeps c c1 /\
                 Forall (fun i => ~ cancelled_in c (inv_event i)) t1).
    { destruct s as [now ready current | a]; simpl in E1.
      - destruct (ClockBase_tick U run run_io now ready current c u)
          as [[c0 u0] o] eqn:E.
        injection E1 as <- <- <-.
        apply tick_facts in E as (K & F & _). split; assumption.
      - injection E1 as <- <- <-.
        split; [apply store_keeps_action | constructor]. }
    destruct K1 as [K1 F1].
    split; [eapply store_keeps_trans; eassumption |].
    apply Forall_app. split; [exact F1 |].
    eapply Forall_impl; [exact F2 |]. intros i Hi Hc. apply Hi.
    eapply cancelled_in_keeps; eassumption.
Qed.
End ProgramFacts.

(** ** The queue of the frame *)

Lemma entry_of_event_keeps c c' ent :
  store_keeps c c' -> entry_of_event c ent -> entry_of_event c' ent.
Proof.
  intros K (e & Hr & Hp & Hi). destruct (K _ _ Hr) as (e' & Hr' & A1 & _ & _ & A4 & _).
  exists e'. split; [exact Hr' |]. split; congruence.
Qed.

Lemma cancel_frame_callbacks r c :
  frame_callbacks (cancel r c) = frame_callbacks c.
Proof.
  unfold cancel. destruct (clk_store c !! r) as [e |]; [| reflexivity].
  destruct (ev_is_triggered e); reflexivity.
Qed.

Lemma call_frame_callbacks r c :
  frame_callbacks (fst (ClockEvent_call r c)) = frame_callbacks c.
Proof.
  unfold ClockEvent_call. destruct (clk_store c !! r) as [e |]; [| reflexivity].
  destruct (ev_is_triggered e); reflexivity.
Qed.

Lemma unschedule_loop_frame_callbacks all cb l c :
  frame_callbacks (unschedule_loop all cb l c) = frame_callbacks c.
Proof.
  revert c. induction l as [| r l IH]; intros c; simpl; [reflexivity |].
  destruct (callback_is c r cb); [| apply IH].
  destruct all; [| apply cancel_frame_callbacks].
  rewrite IH. apply cancel_frame_callbacks.
Qed.

Lemma action_frame_callbacks c a :
  frame_callbacks (apply_action c a) = frame_callbacks c.
Proof.
  destruct a; simpl; try reflexivity.
  - apply call_frame_callbacks.
  - apply cancel_frame_callbacks.
  - apply unschedule_loop_frame_callbacks.
Qed.

Lemma actions_frame_callbacks acts c :
  frame_callbacks (apply_actions acts c) = frame_callbacks c.
Proof.
  revert c. induction acts as [| a acts IH]; intros c; simpl; [reflexivity |].
  rewrite IH. apply action_frame_callbacks.
Qed.

Lemma sleep_until_next_event_frame_callbacks now c :
  frame_callbacks (fst (sleep_until_next_event now c)) = frame_callbacks c.
Proof.
  unfold sleep_until_next_event, get_sleep_time, get_next_event_time.
  destruct (ordered_events c); simpl.
  - destruct (negb _); reflexivity.
  - destruct (negb _); [reflexivity |].
    match goal with |- context [Qltb 0 ?x] => destruct (Qltb 0 x) end;
      reflexivity.
Qed.

(** Every tuple that [ClockEvent.tick] queues describes its event. *)
Lemma event_tick_queue r t c e :
  clk_store c !! r = Some e -> ev_callback_cancelled e = false ->
  Forall (entry_of_event c) (frame_callbacks c) ->
  Forall (entry_of_event (fst (ClockEvent_tick r t c)))
    (frame_callbacks (fst (ClockEvent_tick r t c))).
Proof.
  intros Hr Hc Hq.
  pose proof (store_keeps_event_tick r t c e Hr Hc) as K.
  assert (Hold : Forall (entry_of_event (fst (ClockEvent_tick r t c)))
                   (frame_callbacks c)).
  { eapply Forall_impl; [exact Hq |]. intros ent.
    apply entry_of_event_keeps. exact K. }
  revert K Hold. unfold ClockEvent_tick. rewrite Hr.
  destruct (Qltb 0 (ev_timeout e) && Qltb t (ev_next_event_time e));
    [intros _ Hold; exact Hold |].
  set (e1 := if Qltb 0 (ev_timeout e) then _ else _).
  destruct (get_callback e1); simpl; [| intros _ Hold; exact Hold].
  set (c2 := update_event r (set_callback_cancelled false)
               (update_event r (fun _ => e1) c)).
  assert (Hq2 : exists e2, clk_store c2 !! r = Some e2).
  { subst c2. unfold update_event; simpl.
    rewrite !list_lookup_alter_eq, Hr. simpl. eauto. }
  destruct Hq2 as [e2 He2].
  assert (Hfc : frame_callbacks (add_event_to_frame_callbacks r c2) =
                frame_callbacks c ++
                [mkFrameEntry (ev_last_event_time e2) (- ev_priority e2)
                   (ev_id e2) r]).
  { unfold add_event_to_frame_callbacks. rewrite He2. reflexivity. }
  assert (Hst : clk_store (add_event_to_frame_callbacks r c2) !! r = Some e2).
  { rewrite add_event_to_frame_callbacks_store. exact He2. }
  destruct (ev_loop e); simpl; intros K Hold.
  - rewrite Hfc. apply Forall_app. split; [exact Hold |].
    constructor; [| constructor]. exists e2. simpl. auto.
  - change (frame_callbacks (untrigger_and_remove r
              (add_event_to_frame_callbacks r c2)))
      with (frame_callbacks (add_event_to_frame_callbacks r c2)).
    rewrite Hfc. apply Forall_app. split; [exact Hold |].
    constructor; [| constructor].
    eapply entry_of_event_keeps; [apply store_keeps_untrigger |].
    exists e2. simpl. auto.
Qed.

Lemma process_events_loop_queue l c :
  Forall (entry_of_event c) (frame_callbacks c) ->
  Forall (entry_of_event (process_events_loop l c))
    (frame_callbacks (process_events_loop l c)).
Proof.
  revert c. induction l as [| r l IH]; intros c Hq; simpl; [exact Hq |].
  destruct (clk_store c !! r) as [e |] eqn:Hr; [| apply IH; exact Hq].
  destruct (Qltb (clk_last_tick c) (ev_next_event_time e)); [exact Hq |].
  destruct (ev_callback_cancelled e) eqn:Hc; [apply IH; exact Hq |].
  apply IH. eapply event_tick_queue; eassumption.
Qed.

Lemma process_events_queue c :
  Forall (entry_of_event c) (frame_callbacks c) ->
  Forall (entry_of_event (process_events c)) (frame_callbacks (process_events c)).
Proof.
  unfold process_events. destruct (ordered_events c); [auto |].
  intros Hq. apply process_events_loop_queue. exact Hq.
Qed.

(** ** The list of scheduled events in the states a clock can reach *)

Lemma list_remove_elem r x l :
  NoDup l -> x ∈ list_remove r l <-> x ∈ l /\ x <> r.
Proof.
  induction 1 as [| y l Hy Hnd IH]; simpl.
  - split; [intros Hin | intros [Hin _]]; inversion Hin.
  - destruct (Nat.eqb_spec y r) as [-> | Hne].
    + rewrite elem_of_cons. split.
      * intros Hin. split; [auto |]. intros ->. contradiction.
      * intros [[-> | Hin] Hx]; [contradiction | exact Hin].
    + rewrite !elem_of_cons, IH. split.
      * intros [-> | [Hin Hx]]; auto.
      * intros [[-> | Hin] Hx]; auto.
Qed.

Lemma list_remove_NoDup r l : NoDup l -> NoDup (list_remove r l).
Proof.
  induction 1 as [| y l Hy Hnd IH]; simpl; [constructor |].
  destruct (Nat.eqb_spec y r) as [-> | Hne]; [exact Hnd |].
  constructor; [| exact IH].
  rewrite list_remove_elem by exact Hnd. tauto.
Qed.

Lemma ids_alter (f : ClockEvent -> ClockEvent) r (s : list ClockEvent) :
  (forall e, ev_id (f e) = ev_id e) -> map ev_id (alter f r s) = map ev_id s.
Proof.
  intros Hf. revert r. induction s as [| e s IH]; intros [| r]; simpl;
    try reflexivity.
  - rewrite Hf. reflexivity.
  - f_equal. apply IH.
Qed.

Lemma StronglySorted_lt_snoc (l : list nat) x :
  StronglySorted lt l -> Forall (fun i => (i < x)%nat) l ->
  StronglySorted lt (l ++ [x]).
Proof.
  induction 1 as [| y l Hs IH Hall]; intros Hx; simpl.
  - repeat constructor.
  - apply Forall_cons in Hx as [Hy Hx]. constructor; [apply IH; exact Hx |].
    apply Forall_app. split; [exact Hall | repeat constructor; exact Hy].
Qed.

Lemma StronglySorted_lt_NoDup (l : list nat) : StronglySorted lt l -> NoDup l.
Proof.
  induction 1 as [| y l Hs IH Hall]; constructor; [| exact IH].
  intros Hin. rewrite Forall_forall in Hall. specialize (Hall y Hin). lia.
Qed.

(** In a clock in good order no two events have the same id. *)
Lemma clock_wf_ids c r1 r2 e1 e2 :
  clock_wf c -> clk_store c !! r1 = Some e1 -> clk_store c !! r2 = Some e2 ->
  ev_id e1 = ev_id e2 -> r1 = r2.
Proof.
  intros (_ & Hs & _) H1 H2 Hid.
  apply StronglySorted_lt_NoDup in Hs.
  apply (NoDup_lookup _ r1 r2 (ev_id e1) Hs).
  - rewrite list_lookup_fmap, H1. reflexivity.
  - rewrite list_lookup_fmap, H2, Hid. reflexivity.
Qed.

Lemma clock_wf_same c c' :
  clk_store c' = clk_store c -> clk_counter c' = clk_counter c ->
  Permutation (ordered_events c) (ordered_events c') ->
  clock_wf c -> clock_wf c'.
Proof.
  intros Hs Hn Hp (W1 & W2 & W3 & W4). unfold clock_wf.
  rewrite Hs, Hn. split; [exact W1 |]. split; [exact W2 |].
  split; [rewrite <- Hp; exact W3 |].
  intros r. rewrite <- Hp. apply W4.
Qed.

Lemma clock_wf_counter c :
  clock_wf c -> clock_wf (set_counter (S (clk_counter c)) c).
Proof.
  intros (W1 & W2 & W3 & W4). unfold clock_wf; simpl.
  split; [| auto]. eapply Forall_impl; [exact W1 |]. intros i Hi. simpl in *. lia.
Qed.

Lemma clock_wf_update r f c :
  (forall e, ev_id (f e) = ev_id e /\ ev_is_triggered (f e) = ev_is_triggered e) ->
  clock_wf c -> clock_wf (update_event r f c).
Proof.
  intros Hf (W1 & W2 & W3 & W4). unfold clock_wf, update_event; simpl.
  rewrite ids_alter by apply Hf.
  split; [exact W1 |]. split; [exact W2 |]. split; [exact W3 |].
  intros r'. rewrite W4. split; intros (e & Hr & Ht).
  - rewrite list_lookup_alter. destruct (decide (r = r')) as [-> | Hne].
    + exists (f e). rewrite Hr. split; [reflexivity |].
      destruct (Hf e) as [_ ->]. exact Ht.
    + exists e. auto.
  - rewrite list_lookup_alter in Hr.
    destruct (decide (r = r')) as [-> | Hne]; [| eauto].
    destruct (clk_store c !! r') as [e0 |]; simpl in Hr; [| discriminate].
    injection Hr as <-. exists e0. split; [reflexivity |].
    destruct (Hf e0) as [_ <-]. exact Ht.
Qed.

Lemma clock_wf_untrigger r c :
  clock_wf c -> clock_wf (untrigger_and_remove r c).
Proof.
  intros (W1 & W2 & W3 & W4). unfold clock_wf, untrigger_and_remove; simpl.
  rewrite ids_alter by reflexivity.
  split; [exact W1 |]. split; [exact W2 |].
  split; [apply list_remove_NoDup; exact W3 |].
  intros r'. rewrite list_remove_elem by exact W3. rewrite W4.
  rewrite list_lookup_alter. destruct (decide (r = r')) as [-> | Hne].
  - split; [intros [_ Hx]; contradiction |].
    intros (e & Hr & Ht).
    destruct (clk_store c !! r'); simpl in Hr; [| discriminate].
    injection Hr as <-. discriminate.
  - split; [tauto |]. intros Hx. split; [exact Hx | congruence].
Qed.

Lemma clock_wf_cancel r c : clock_wf c -> clock_wf (cancel r c).
Proof.
  intros W. unfold cancel. destruct (clk_store c !! r) as [e |]; [| exact W].
  destruct (ev_is_triggered e).
  - apply clock_wf_update; [intros e0; split; reflexivity |].
    apply clock_wf_untrigger. exact W.
  - apply clock_wf_update; [intros e0; split; reflexivity | exact W].
Qed.

Lemma clock_wf_call r c : clock_wf c -> clock_wf (fst (ClockEvent_call r c)).
Proof.
  intros W. unfold ClockEvent_call.
  destruct (clk_store c !! r) as [e |] eqn:Hr; [| exact W].
  destruct (ev_is_triggered e) eqn:Ht; [exact W |].
  destruct W as (W1 & W2 & W3 & W4). unfold clock_wf, update_event; simpl.
  rewrite ids_alter by reflexivity.
  split; [exact W1 |]. split; [exact W2 |].
  assert (Hnin : r ∉ ordered_events c).
  { rewrite W4. intros (e0 & Hr0 & Ht0). congruence. }
  split.
  - apply NoDup_app. split; [exact W3 |]. split; [| apply NoDup_singleton].
    intros x Hx Hx'. apply list_elem_of_singleton in Hx'. congruence.
  - intros r'. rewrite elem_of_app, list_elem_of_singleton, W4.
    rewrite list_lookup_alter. destruct (decide (r = r')) as [-> | Hne].
    + rewrite Hr. simpl. split; [eauto | auto].
    + split; [intros [Hx | Hx]; [exact Hx | congruence] | auto].
Qed.

Lemma clock_wf_schedule loop cb t p msg c :
  clock_wf c ->
  clock_wf (set_ordered_events (ordered_events c ++ [length (clk_store c)])
              (alloc_event (new_event c loop cb t p) msg c)).
Proof.
  intros (W1 & W2 & W3 & W4). unfold clock_wf; simpl.
  rewrite map_app. simpl.
  assert (Hnin : length (clk_store c) ∉ ordered_events c).
  { rewrite W4. intros (e0 & Hr0 & _). apply lookup_lt_Some in Hr0. lia. }
  split; [| split; [| split]].
  - apply Forall_app. split; [| repeat constructor].
    eapply Forall_impl; [exact W1 |]. intros i Hi. simpl in *. lia.
  - apply StronglySorted_lt_snoc; assumption.
  - apply NoDup_app. split; [exact W3 |]. split; [| apply NoDup_singleton].
    intros x Hx Hx'. apply list_elem_of_singleton in Hx'. congruence.
  - intros r. rewrite elem_of_app, list_elem_of_singleton, W4. split.
    + intros [(e & Hr & Ht) | ->].
      * exists e. split; [apply lookup_app_l_Some; exact Hr | exact Ht].
      * eexists. split; [apply list_lookup_middle; reflexivity | reflexivity].
    + intros (e & Hr & Ht).
      apply lookup_app_Some in Hr as [Hr | [Hge Hr]]; [left; eauto |].
      apply list_lookup_singleton_Some in Hr as [Hz _]. right. lia.
Qed.

Lemma clock_wf_unschedule_loop all cb l c :
  clock_wf c -> clock_wf (unschedule_loop all cb l c).
Proof.
  revert c. induction l as [| r l IH]; intros c W; simpl; [exact W |].
  destruct (callback_is c r cb); [| apply IH; exact W].
  destruct all; [apply IH |]; apply clock_wf_cancel; exact W.
Qed.

Lemma clock_wf_action c a : clock_wf c -> clock_wf (apply_action c a).
Proof.
  intros W. destruct a; simpl.
  - apply clock_wf_schedule. exact W.
  - apply clock_wf_schedule. exact W.
  - apply clock_wf_call. exact W.
  - apply clock_wf_cancel. exact W.
  - apply clock_wf_unschedule_loop. exact W.
  - eapply clock_wf_same; [| | | exact W]; reflexivity.
  - apply clock_wf_update; [| exact W]. intros e; split; reflexivity.
  - eapply clock_wf_same; [| | | exact W]; reflexivity.
  - eapply clock_wf_same; [| | | exact W]; reflexivity.
  - apply clock_wf_update; [| exact W]. intros e. unfold reclaim.
    destruct (ev_callback e); split; reflexivity.
  - apply clock_wf_counter. exact W.
Qed.

Lemma clock_wf_actions acts c : clock_wf c -> clock_wf (apply_actions acts c).
Proof.
  revert c. induction acts as [| a acts IH]; intros c W; simpl; [exact W |].
  apply IH, clock_wf_action, W.
Qed.

Lemma clock_wf_add_frame r c :
  clock_wf c -> clock_wf (add_event_to_frame_callbacks r c).
Proof.
  intros W. unfold add_event_to_frame_callbacks.
  destruct (clk_store c !! r); [| exact W].
  eapply clock_wf_same; [| | | exact W]; reflexivity.
Qed.

Lemma clock_wf_event_tick r t c :
  clock_wf c -> clock_wf (fst (ClockEvent_tick r t c)).
Proof.
  intros W. unfold ClockEvent_tick.
  destruct (clk_store c !! r) as [e |] eqn:Hr; [| exact W].
  destruct (Qltb 0 (ev_timeout e) && Qltb t (ev_next_event_time e));
    [exact W |].
  set (e1 := if Qltb 0 (ev_timeout e) then _ else _).
  assert (W1 : clock_wf (update_event r (fun _ => e1) c)).
  { assert (Heq : update_event r (fun _ => e1) c =
                  update_event r (fun e0 =>
                    if Qltb 0 (ev_timeout e)
                    then set_times (t - ev_last_dt e) t (ev_next_event_time e)
                           (ev_next_event_time e + ev_timeout e) e0
                    else set_times (t - ev_last_dt e) t t t e0) c).
    { unfold update_event. f_equal. apply list_eq. intros i.
      rewrite !list_lookup_alter. destruct (decide (r = i)) as [-> | Hne];
        [| reflexivity].
      rewrite Hr. reflexivity. }
    rewrite Heq. apply clock_wf_update; [| exact W].
    intros e0. destruct (Qltb 0 (ev_timeout e)); split; reflexivity. }
  destruct (get_callback e1); simpl.
  - assert (W3 : clock_wf (add_event_to_frame_callbacks r
                   (update_event r (set_callback_cancelled false)
                      (update_event r (fun _ => e1) c)))).
    { apply clock_wf_add_frame, clock_wf_update; [| exact W1].
      intros e0; split; reflexivity. }
    destruct (ev_loop e); [exact W3 | apply clock_wf_untrigger; exact W3].
  - apply clock_wf_untrigger. exact W1.
Qed.

Lemma clock_wf_process_events_loop l c :
  clock_wf c -> clock_wf (process_events_loop l c).
Proof.
  revert c. induction l as [| r l IH]; intros c W; simpl; [exact W |].
  destruct (clk_store c !! r) as [e |]; [| apply IH; exact W].
  destruct (Qltb (clk_last_tick c) (ev_next_event_time e)); [exact W |].
  destruct (ev_callback_cancelled e); apply IH; [exact W |].
  apply clock_wf_event_tick. exact W.
Qed.

Lemma clock_wf_sort c : clock_wf c -> clock_wf (sort_ordered_events c).
Proof.
  intros W. eapply clock_wf_same; [| | | exact W]; try reflexivity.
  simpl. symmetry. apply stable_sort_perm.
Qed.

Lemma clock_wf_process_events c : clock_wf c -> clock_wf (process_events c).
Proof.
  intros W. unfold process_events. destruct (ordered_events c); [exact W |].
  apply clock_wf_process_events_loop, clock_wf_sort, W.
Qed.

Lemma clock_wf_sleep now c :
  clock_wf c -> clock_wf (fst (sleep_until_next_event now c)).
Proof.
  intros W. unfold sleep_until_next_event, get_sleep_time, get_next_event_time.
  destruct (ordered_events c) eqn:Hoe; simpl.
  - destruct (negb _); exact W.
  - apply clock_wf_sort in W.
    destruct (negb _); [exact W |].
    match goal with |- context [Qltb 0 ?x] => destruct (Qltb 0 x) end;
      exact W.
Qed.

Lemma clock_wf_init max_fps now n :
  clock_wf (ClockBase_init max_fps now n).
Proof.
  unfold clock_wf; simpl. split; [constructor |].
  split; [constructor |]. split; [constructor |].
  intros r. split; [intros Hin; inversion Hin |].
  intros (e & Hr & _). inversion Hr.
Qed.

Section Reachable.
Variable U : Type.
Variable run : cbid -> Q -> U -> Clock -> list Action * PyVal * U.
Variable run_io : cbid -> U -> Clock -> list Action * U.

Lemma clock_wf_dispatch q c u :
  clock_wf c -> clock_wf (fst (fst (dispatch U run q c u))).
Proof.
  revert c u. induction q as [| ent q IH]; intros c u W; simpl; [exact W |].
  assert (W1 : clock_wf (fst (fst (dispatch_entry U run ent c u)))).
  { unfold dispatch_entry. destruct (clk_store c !! fe_event ent) as [e |];
      [| exact W].
    destruct (ev_callback_cancelled e); [exact W |].
    destruct (get_callback e) as [cb |].
    - destruct (run cb (frametime c) u c) as [[acts ret] u1]. simpl.
      destruct (ev_loop e && is_False ret);
        [apply clock_wf_cancel |]; apply clock_wf_actions; exact W.
    - simpl. destruct (ev_loop e); [apply clock_wf_cancel |]; exact W. }
  destruct (dispatch_entry U run ent c u) as [[c1 u1] t1]. simpl in W1.
  specialize (IH c1 u1 W1).
  destruct (dispatch U run q c1 u1) as [[c2 u2] t2]. exact IH.
Qed.

Lemma clock_wf_socket_callbacks ready c u :
  clock_wf c -> clock_wf (fst (socket_callbacks U run_io ready c u)).
Proof.
  revert c u. induction ready as [| s ready IH]; intros c u W; simpl;
    [exact W |].
  destruct (read_sockets c !! s) as [cb |]; [| apply IH; exact W].
  destruct (run_io cb u c) as [acts u1]. apply IH, clock_wf_actions, W.
Qed.

Lemma clock_wf_tick now ready current c u :
  clock_wf c ->
  clock_wf (fst (fst (ClockBase_tick U run run_io now ready current c u))).
Proof.
  intros W. unfold ClockBase_tick, before_callbacks, process_event_callbacks.
  pose proof (clock_wf_sleep now c W) as W1.
  destruct (sleep_until_next_event now c) as [c1 w]. simpl in W1.
  assert (W2 : clock_wf (fst (match w with
                              | Select _ _ => socket_callbacks U run_io ready c1 u
                              | _ => (c1, u)
                              end))).
  { destruct w; simpl; try exact W1.
    apply clock_wf_socket_callbacks. exact W1. }
  destruct (match w with Select _ _ => _ | _ => _ end) as [c2 u2].
  simpl in W2.
  set (c3 := set_tick_time _ _ _ c2).
  assert (W3 : clock_wf c3)
    by (eapply clock_wf_same; [| | | exact W2]; reflexivity).
  pose proof (clock_wf_dispatch
                (stable_sort entry_leb (frame_callbacks (process_events c3)))
                (process_events c3) u2
                (clock_wf_process_events c3 W3)) as W5.
  destruct (dispatch U run _ (process_events c3) u2) as [[c5 u5] t].
  simpl in *. eapply clock_wf_same; [| | | exact W5]; reflexivity.
Qed.

(** Whatever happens to a clock from its creation on, its list of scheduled
    events holds each scheduled event once, and the queue of the frame is
    empty between two ticks. *)
Lemma clock_wf_steps l c u :
  clock_wf c -> frame_callbacks c = [] ->
  let c' := fst (fst (steps U run run_io l c u)) in
  clock_wf c' /\ frame_callbacks c' = [].
Proof.
  revert c u. induction l as [| s l IH]; intros c u W Hf; simpl;
    [split; assumption |].
  assert (H1 : clock_wf (fst (fst (step U run run_io s c u))) /\
               frame_callbacks (fst (fst (step U run run_io s c u))) = []).
  { destruct s as [now ready current | a]; simpl.
    - pose proof (clock_wf_tick now ready current c u W) as Wt.
      destruct (ClockBase_tick U run run_io now ready current c u)
        as [[c1 u1] o] eqn:E. simpl in *. split; [exact Wt |].
      apply tick_facts in E as (_ & _ & Hnil). exact Hnil.
    - split; [apply clock_wf_action; exact W |].
      rewrite action_frame_callbacks. exact Hf. }
  destruct (step U run run_io s c u) as [[c1 u1] t1]. simpl in H1.
  destruct H1 as [W1 Hf1]. specialize (IH c1 u1 W1 Hf1).
  destruct (steps U run run_io l c1 u1) as [[c2 u2] t2]. exact IH.
Qed.
End Reachable.

Section OrderOfCalls.
Variable U : Type.
Variable run : cbid -> Q -> U -> Clock -> list Action * PyVal * U.
Variable run_io : cbid -> U -> Clock -> list Action * U.

Lemma socket_callbacks_frame_callbacks ready c u :
  frame_callbacks (fst (socket_callbacks U run_io ready c u)) =
  frame_callbacks c.
Proof.
  revert c u. induction ready as [| s ready IH]; intros c u; simpl;
    [reflexivity |].
  destruct (read_sockets c !! s) as [cb |]; [| apply IH].
  destruct (run_io cb u c) as [acts u1].
  rewrite IH. apply actions_frame_callbacks.
Qed.

Lemma before_callbacks_queue now ready current c u :
  frame_callbacks c = [] ->
  let c4 := fst (fst (before_callbacks U run_io now ready current c u)) in
  Forall (entry_of_event c4) (frame_callbacks c4).
Proof.
  intros Hnil. unfold before_callbacks.
  pose proof (sleep_until_next_event_frame_callbacks now c) as Hs.
  destruct (sleep_until_next_event now c) as [c1 w]; simpl in Hs.
  assert (K : forall c2, frame_callbacks c2 = [] ->
    let c4 := process_events
      (set_tick_time (current - clk_last_tick c2) current
         (update_stats current (clk_stats c2)) c2) in
    Forall (entry_of_event c4) (frame_callbacks c4)).
  { intros c2 H2. apply process_events_queue. simpl. rewrite H2.
    constructor. }
  destruct w; simpl; try (apply K; congruence).
  pose proof (socket_callbacks_frame_callbacks ready c1 u) as Hsc.
  destruct (socket_callbacks U run_io ready c1 u) as [c2 u2]; simpl in *.
  apply K. congruence.
Qed.

End OrderOfCalls.

(** From its creation on, a clock is in good order between the calls made
    on it. *)
Lemma reachable_clock_wf U run run_io max_fps now n l u :
  let c := fst (fst (steps U run run_io l (ClockBase_init max_fps now n) u)) in
  clock_wf c /\ frame_callbacks c = [].
Proof.
  apply clock_wf_steps; [apply clock_wf_init | reflexivity].
Qed.

(** The scenario of the specification: A once with priority 1, then B once
    with priority 5; one tick calls B, then A. *)
Example two_once_order :
  map inv_cb (snd (example_steps [StepTick 0 [] 1] clock_two_once))
  = [1%nat; cb_plain].
Proof. vm_compute. reflexivity. Qed.

(** ** Repeating events *)

Lemma update_event_lookup r f c :
  clk_store (update_event r f c) !! r = f <$> clk_store c !! r.
Proof. unfold update_event; simpl. apply list_lookup_alter_eq. Qed.

Lemma update_event_lookup_ne r r' f c :
  r <> r' -> clk_store (update_event r f c) !! r' = clk_store c !! r'.
Proof. intros Hne. unfold update_event; simpl. apply list_lookup_alter_ne, Hne. Qed.

(** What one call of [ClockEvent.tick] does to the times of an event with a
    positive timeout: nothing when it is too early, and otherwise the fire
    time recorded is the time that was scheduled, and the next one is that
    time plus the timeout. *)
Lemma event_tick_times r t c e :
  clk_store c !! r = Some e -> 0 < ev_timeout e ->
  exists e', clk_store (fst (ClockEvent_tick r t c)) !! r = Some e' /\
    ev_timeout e' = ev_timeout e /\
    if fired (snd (ClockEvent_tick r t c))
    then ev_next_event_time e' = ev_next_event_time e + ev_timeout e /\
         ev_last_event_time e' = ev_next_event_time e
    else e' = e.
Proof.
  intros Hr HT. unfold ClockEvent_tick. rewrite Hr.
  apply Qltb_lt in HT. rewrite HT. simpl.
  destruct (Qltb t (ev_next_event_time e)); simpl.
  { exists e. auto. }
  set (e1 := set_times _ _ _ _ e).
  destruct (get_callback e1); cbn [fst snd fired].
  - destruct (ev_loop e); cbn [fst snd fired].
    + eexists. split.
      * rewrite add_event_to_frame_callbacks_store, !update_event_lookup, Hr.
        reflexivity.
      * subst e1. simpl. auto.
    + eexists. split.
      * unfold untrigger_and_remove.
        change (clk_store (set_ordered_events ?l ?x)) with (clk_store x).
        rewrite update_event_lookup, add_event_to_frame_callbacks_store,
          !update_event_lookup, Hr.
        reflexivity.
      * subst e1. simpl. auto.
  - eexists. split.
    + unfold untrigger_and_remove.
      change (clk_store (set_ordered_events ?l ?x)) with (clk_store x).
      rewrite !update_event_lookup, Hr. reflexivity.
    + subst e1. simpl. auto.
Qed.

Lemma event_ticks_no_firing r times : forall c e,
  clk_store c !! r = Some e -> 0 < ev_timeout e ->
  event_firings r times c = 0%nat ->
  last_event_time (event_ticks r times c) r = ev_last_event_time e.
Proof.
  induction times as [| t ts IH]; intros c e Hr HT Hz; simpl.
  - unfold last_event_time. rewrite Hr. reflexivity.
  - simpl in Hz.
    destruct (event_tick_times r t c e Hr HT) as (e' & Hr' & HT' & Hf).
    destruct (fired (snd (ClockEvent_tick r t c))); [lia |].
    subst e'. apply IH; assumption.
Qed.

Lemma event_ticks_times r times : forall c e,
  clk_store c !! r = Some e -> 0 < ev_timeout e ->
  let n := event_firings r times c in
  next_event_time (event_ticks r times c) r ==
    ev_next_event_time e + inject_Z (Z.of_nat n) * ev_timeout e /\
  ((1 <= n)%nat ->
   last_event_time (event_ticks r times c) r ==
     ev_next_event_time e + inject_Z (Z.of_nat n - 1) * ev_timeout e).
Proof.
  induction times as [| t ts IH]; intros c e Hr HT; simpl.
  - unfold next_event_time. rewrite Hr. split; [ring | lia].
  - destruct (event_tick_times r t c e Hr HT) as (e' & Hr' & HT' & Hf).
    assert (HT2 : 0 < ev_timeout e') by (rewrite HT'; exact HT).
    destruct (IH _ _ Hr' HT2) as [IH1 IH2].
    pose proof (event_ticks_no_firing r ts _ _ Hr' HT2) as Hno.
    set (c1 := fst (ClockEvent_tick r t c)) in *.
    set (k := event_firings r ts c1) in *.
    destruct (fired (snd (ClockEvent_tick r t c))).
    + destruct Hf as [Hn Hl]. rewrite Hn, HT' in IH1. rewrite Hn, HT' in IH2.
      split.
      * rewrite IH1. rewrite Nat2Z.inj_add, inject_Z_plus.
        change (inject_Z (Z.of_nat 1)) with 1. ring.
      * intros _. destruct (Nat.eq_dec k 0%nat) as [Hk | Hk].
        -- rewrite (Hno Hk), Hl, Hk.
           change (inject_Z (Z.of_nat (1 + 0) - 1)) with 0. ring.
        -- rewrite IH2 by lia.
           replace (Z.of_nat (1 + k) - 1)%Z with (Z.of_nat k - 1 + 1)%Z
             by lia.
           rewrite inject_Z_plus. change (inject_Z 1) with 1. ring.
    + subst e'. simpl. split; [exact IH1 | exact IH2].
Qed.

(** In exact arithmetic, a repeating event scheduled with period T > 0 when
    the clock's time is t0 has, after any calls of its [tick] at any times
    of which n fired, its next fire time at t0 + (n+1)*T; the fire time
    recorded by the n-th firing is t0 + n*T.  The times of the calls play no
    part.  On the floats of the code the sums are rounded: see
    [interval_next_fire_time_binary64] below. *)
Theorem interval_next_fire_time cb T priority c0 times :
  0 < T ->
  let '(c, r) := schedule_interval cb T priority c0 in
  let n := event_firings r times c in
  next_event_time (event_ticks r times c) r ==
    clk_last_tick c0 + inject_Z (Z.of_nat n + 1) * T /\
  ((1 <= n)%nat ->
   last_event_time (event_ticks r times c) r ==
     clk_last_tick c0 + inject_Z (Z.of_nat n) * T).
Proof.
  intros HT. unfold schedule_interval.
  set (r := length (clk_store c0)).
  set (c := set_ordered_events _ _).
  assert (Hr : clk_store c !! r = Some (new_event c0 true cb T priority)).
  { subst c r. simpl. apply list_lookup_middle. reflexivity. }
  destruct (event_ticks_times r times c _ Hr HT) as [H1 H2]. simpl in H1, H2.
  split.
  - rewrite H1, inject_Z_plus. change (inject_Z 1) with 1. ring.
  - intros Hn. rewrite (H2 Hn).
    unfold Z.sub. rewrite inject_Z_plus. change (inject_Z (- (1))) with (- (1)).
    ring.
Qed.

Lemma interval_next_fire_time_witness :
  let '(c, r) := schedule_interval cb_plain (1 # 2) 1 clock0 in
  let n := event_firings r [7 # 10; 7 # 10; 12 # 10; 17 # 10] c in
  next_event_time (event_ticks r [7 # 10; 7 # 10; 12 # 10; 17 # 10] c) r ==
    clk_last_tick clock0 + inject_Z (Z.of_nat n + 1) * (1 # 2) /\
  ((1 <= n)%nat ->
   last_event_time (event_ticks r [7 # 10; 7 # 10; 12 # 10; 17 # 10] c) r ==
     clk_last_tick clock0 + inject_Z (Z.of_nat n) * (1 # 2)).
Proof.
  apply (interval_next_fire_time cb_plain (1 # 2) 1 clock0
           [7 # 10; 7 # 10; 12 # 10; 17 # 10]).
  reflexivity.
Defined.

(** The scenario of the specification: every 0.5 s from time 0, observed at
    irregular times up to 1.7 s: three firings, scheduled for 0.5, 1.0 and
    1.5, and the next one for 2.0. *)
Example interval_half_second :
  let '(c, r) := schedule_interval cb_plain (1 # 2) 1 clock0 in
  event_firings r [7 # 10; 7 # 10; 12 # 10; 17 # 10] c = 3%nat /\
  Qred (next_event_time (event_ticks r [7 # 10; 7 # 10; 12 # 10; 17 # 10] c) r)
    = 2.
Proof. vm_compute. split; reflexivity. Qed.

(** Seen from the clock: whatever ticks and calls follow the scheduling of
    a repeating event, its next fire time is the time of scheduling plus a
    whole number of periods. *)
Lemma interval_stays_on_schedule U run run_io cb T priority c0 l u :
  0 < T ->
  let '(c, r) := schedule_interval cb T priority c0 in
  exists n : nat,
    next_event_time (fst (fst (steps U run run_io l c u))) r ==
    clk_last_tick c0 + inject_Z (Z.of_nat n + 1) * T.
Proof.
  intros HT. unfold schedule_interval.
  set (r := length (clk_store c0)).
  set (c := set_ordered_events _ _).
  assert (Hr : clk_store c !! r = Some (new_event c0 true cb T priority)).
  { subst c r. simpl. apply list_lookup_middle. reflexivity. }
  destruct (steps U run run_io l c u) as [[c' u'] t] eqn:E.
  apply steps_facts in E as [K _].
  destruct (K _ _ Hr) as (e' & Hr' & _ & _ & _ & _ & _ & Hgrid & _).
  destruct (Hgrid HT) as [k Hk]. exists k.
  simpl. unfold next_event_time. rewrite Hr', Hk. simpl.
  rewrite inject_Z_plus. change (inject_Z 1) with 1. ring.
Qed.

(** ** Repeating events, on binary64 numbers *)

Lemma tick_times_positive T t e :
  et_timeout e = T -> (0 <? T)%float = true ->
  tick_times t e =
    if (t <? et_next_event_time e)%float then None
    else Some (mkEventTimes T t (et_next_event_time e + T)%float
                 (et_next_event_time e) (t - et_last_dt e)%float).
Proof.
  intros HT Hpos. unfold tick_times. rewrite HT, Hpos. cbn [andb].
  destruct (t <? et_next_event_time e)%float; reflexivity.
Qed.

Lemma ticks_times_idle T times : forall e,
  et_timeout e = T -> (0 <? T)%float = true ->
  firings_times times e = 0%nat ->
  et_last_event_time (ticks_times times e) = et_last_event_time e.
Proof.
  induction times as [| t ts IH]; intros e HT Hpos Hz; simpl; [reflexivity |].
  simpl in Hz. rewrite (tick_times_positive T t e HT Hpos) in *.
  destruct (t <? et_next_event_time e)%float; [| discriminate].
  apply IH; assumption.
Qed.

Lemma ticks_times_next T times : forall e,
  et_timeout e = T -> (0 <? T)%float = true ->
  let e' := ticks_times times e in
  let n := firings_times times e in
  et_timeout e' = T /\
  et_next_event_time e' = add_repeatedly n T (et_next_event_time e) /\
  ((1 <= n)%nat ->
   exists k, n = S k /\
     et_last_event_time e' = add_repeatedly k T (et_next_event_time e)).
Proof.
  induction times as [| t ts IH]; intros e HT Hpos; simpl.
  - split; [exact HT |]. split; [reflexivity |]. intros Hn. lia.
  - rewrite (tick_times_positive T t e HT Hpos).
    destruct (t <? et_next_event_time e)%float.
    + apply IH; assumption.
    + set (e1 := mkEventTimes T t (et_next_event_time e + T)%float
                   (et_next_event_time e) (t - et_last_dt e)%float).
      destruct (IH e1 eq_refl Hpos) as (I1 & I2 & I3).
      split; [exact I1 |]. split; [exact I2 |]. intros _.
      exists (firings_times ts e1). split; [reflexivity |].
      destruct (firings_times ts e1) as [| k] eqn:Hk.
      * simpl. apply (ticks_times_idle T ts e1 eq_refl Hpos Hk).
      * destruct (I3 ltac:(lia)) as (k' & [= <-] & I4). exact I4.
Qed.

(** C2.  A repeating event created with period T > 0 at time t0 has, after
    any calls of its [tick] at any times of which n fired, its next fire
    time at t0 with T added n+1 times, one binary64 addition after the
    other; the fire time recorded by the n-th firing is t0 with T added n
    times.  Each firing adds T to the fire time that was scheduled: the
    times of the calls play no part. *)
Theorem interval_next_fire_time_binary64 t0 T times :
  (0 <? T)%float = true ->
  let e := ticks_times times (new_event_times t0 T) in
  let n := firings_times times (new_event_times t0 T) in
  et_next_event_time e = add_repeatedly (S n) T t0 /\
  ((1 <= n)%nat -> et_last_event_time e = add_repeatedly n T t0).
Proof.
  intros Hpos.
  destruct (ticks_times_next T times (new_event_times t0 T) eq_refl Hpos)
    as (_ & H1 & H2). simpl in H1, H2.
  split; [exact H1 |]. intros Hn.
  destruct (H2 Hn) as (k & Hk & Hl). simpl. rewrite Hk. exact Hl.
Qed.

Lemma interval_next_fire_time_binary64_witness :
  let e := ticks_times [0.75; 0.75; 1.25; 1.75]%float
             (new_event_times 0 0.5) in
  let n := firings_times [0.75; 0.75; 1.25; 1.75]%float
             (new_event_times 0 0.5) in
  et_next_event_time e = add_repeatedly (S n) 0.5 0 /\
  ((1 <= n)%nat -> et_last_event_time e = add_repeatedly n 0.5 0).
Proof.
  apply (interval_next_fire_time_binary64 0 0.5 [0.75; 0.75; 1.25; 1.75]%float).
  reflexivity.
Defined.

(** The claim as the specification has it fails for a period of 0.1 s from
    time 0: after five firings, at ticks that come late, the next fire time
    is 0.1 added six times, 0.59999999999999998, and not 0 + 6 * 0.1, which
    is 0.60000000000000009 when computed with floats; nor is it six times
    the period as an exact number. *)
Lemma interval_next_fire_time_not_exact :
  firings_times [1; 2; 3; 4; 5]%float (new_event_times 0 one_tenth) = 5%nat /\
  et_next_event_time
    (ticks_times [1; 2; 3; 4; 5]%float (new_event_times 0 one_tenth))
    = 0x1.3333333333333p-1%float /\
  (0 + 6 * one_tenth)%float = 0x1.3333333333334p-1%float /\
  (et_next_event_time
     (ticks_times [1; 2; 3; 4; 5]%float (new_event_times 0 one_tenth))
   =? 0 + 6 * one_tenth)%float = false /\
  Qeq_bool
    (float_value
       (et_next_event_time
          (ticks_times [1; 2; 3; 4; 5]%float (new_event_times 0 one_tenth))))
    (float_value 0 + 6 * float_value one_tenth) = false.
Proof. vm_compute. repeat split; reflexivity. Qed.

(** With a period of 0.1 s and ticks at 0.1, 0.2 and 0.3 the event fires
    twice: after two firings its next fire time is 0.30000000000000004,
    later than the tick at 0.3. *)
Example interval_tenth_misses_a_tick :
  firings_times [one_tenth; 0x1.999999999999ap-3; 0x1.3333333333333p-2]%float
    (new_event_times 0 one_tenth) = 2%nat /\
  et_next_event_time
    (ticks_times [one_tenth; 0x1.999999999999ap-3; 0x1.3333333333333p-2]%float
       (new_event_times 0 one_tenth))
    = 0x1.3333333333334p-2%float.
Proof. vm_compute. split; reflexivity. Qed.

(** The scenario of the specification, a period of 0.5 s over 1.7 s: three
    firings, with fire times 0.5, 1.0 and 1.5; these sums are exact. *)
Example interval_half_second_binary64 :
  firings_times [0.5; 1; 1.5; 1.6875]%float (new_event_times 0 0.5) = 3%nat /\
  map (fun ts => et_last_event_time (ticks_times ts (new_event_times 0 0.5)))
    [[0.5]; [0.5; 1]; [0.5; 1; 1.5]]%float = [0.5; 1; 1.5]%float /\
  et_next_event_time
    (ticks_times [0.5; 1; 1.5; 1.6875]%float (new_event_times 0 0.5))
    = 2%float.
Proof. vm_compute. repeat split; reflexivity. Qed.

(** ** Waiting for the next event *)







(** The test [if next_event_time:] takes a deadline of exactly 0 for no
    deadline.  With a time source that could read below zero the clock would
    then not sleep although time remains. *)
Example deadline_zero_is_falsy :
  get_sleep_time (-5) (fst (schedule_once cb_plain 0 1 clock0)) =
    (sort_ordered_events (fst (schedule_once cb_plain 0 1 clock0)), 0) /\
  snd (sleep_until_next_event (-5) (fst (schedule_once cb_plain 0 1 clock0)))
    = NoWait.
Proof. vm_compute. split; reflexivity. Qed.

(** One timer due at 3, the time is 1: a sleep of 2 s, in microseconds. *)
Example sleep_two_seconds :
  snd (sleep_until_next_event 1 clock_one_timer) = Usleep (1000000 * (3 - 1)).
Proof. vm_compute. reflexivity. Qed.

(** A wait of 4295 s is 4295000000 microseconds, which libc reads as
    32704: the clock sleeps 0.03 s, and the tick that follows finds nothing
    due. *)
Example long_sleep_wraps :
  libc_usleep (1000000 * 4295) = 32704%Z.
Proof. reflexivity. Qed.



(** ** Cancellation *)

Section Cancellation.
Variable U : Type.
Variable run : cbid -> Q -> U -> Clock -> list Action * PyVal * U.
Variable run_io : cbid -> U -> Clock -> list Action * U.

Lemma finish_tick_then_facts q l c u c' u' t :
  finish_tick_then U run run_io q l c u = (c', u', t) ->
  store_keeps c c' /\
  Forall (fun i => ~ cancelled_in c (inv_event i)) t.
Proof.
  unfold finish_tick_then.
  destruct (dispatch U run q c u) as [[c1 u1] t1] eqn:E1.
  destruct (steps U run run_io l _ u1) as [[c2 u2] t2] eqn:E2.
  intros [= <- <- <-].
  apply dispatch_facts in E1 as (K1 & F1 & _).
  apply steps_facts in E2 as (K2 & F2).
  assert (K : store_keeps c (set_frame_callbacks [] c1)).
  { eapply store_keeps_trans; [exact K1 |].
    apply store_keeps_same_store. reflexivity. }
  split; [eapply store_keeps_trans; eassumption |].
  apply Forall_app. split; [exact F1 |].
  eapply Forall_impl; [exact F2 |]. intros i Hi Hc. apply Hi.
  eapply cancelled_in_keeps; eassumption.
Qed.

Lemma not_called_when_cancelled (t : list Invocation) c r :
  Forall (fun i => ~ cancelled_in c (inv_event i)) t ->
  cancelled_in c r -> r ∉ map inv_event t.
Proof.
  intros F Hc Hin. apply list_elem_of_fmap in Hin as (i & -> & Hi).
  rewrite Forall_forall in F. exact (F i Hi Hc).
Qed.
End Cancellation.

Lemma cancel_cancelled_in r c e :
  clk_store c !! r = Some e -> cancelled_in (cancel r c) r.
Proof.
  intros Hr. unfold cancel, cancelled_in. rewrite Hr.
  destruct (ev_is_triggered e).
  - unfold untrigger_and_remove. eexists. split.
    + rewrite update_event_lookup.
      change (clk_store (set_ordered_events ?l ?x)) with (clk_store x).
      rewrite update_event_lookup, Hr. reflexivity.
    + reflexivity.
  - eexists. split; [rewrite update_event_lookup, Hr; reflexivity |].
    reflexivity.
Qed.

Lemma cancel_not_triggered r c e :
  clk_store c !! r = Some e -> ev_is_triggered e = false ->
  cancel r c = update_event r (set_callback_cancelled true) c.
Proof. intros Hr Ht. unfold cancel. rewrite Hr, Ht. reflexivity. Qed.

Lemma update_event_id r f c e :
  clk_store c !! r = Some e -> f e = e -> update_event r f c = c.
Proof.
  intros Hr Hf. unfold update_event, set_store. destruct c; simpl in *.
  f_equal. apply list_eq. intros i.
  destruct (decide (r = i)) as [-> | Hne].
  - rewrite list_lookup_alter_eq, Hr. simpl. congruence.
  - apply list_lookup_alter_ne. exact Hne.
Qed.

Section CancelTheorem.
Variable U : Type.
Variable run : cbid -> Q -> U -> Clock -> list Action * PyVal * U.
Variable run_io : cbid -> U -> Clock -> list Action * U.

(** What holds of [cancel].  Once it has been called on an event, no step
    that follows calls its callback: neither the rest of a tick in progress
    nor any later tick, whatever else is scheduled, triggered or cancelled
    in between, and also when the event itself is called again.  On an
    event that is not scheduled (already cancelled, or a one-shot event that
    has fired) [cancel] raises nothing and only sets the event's own
    cancellation flag: the list of scheduled events, the queue of the frame
    and every other event stay as they are; if the flag is already set
    nothing changes at all. *)
Theorem cancel_is_final_and_idempotent c r e :
  clk_store c !! r = Some e ->
  (forall l u,
     let '(_, _, t) := steps U run run_io l (cancel r c) u in
     r ∉ map inv_event t) /\
  (forall q l u,
     let '(_, _, t) := finish_tick_then U run run_io q l (cancel r c) u in
     r ∉ map inv_event t) /\
  (ev_is_triggered e = false ->
     cancel r c = update_event r (set_callback_cancelled true) c /\
     ordered_events (cancel r c) = ordered_events c /\
     frame_callbacks (cancel r c) = frame_callbacks c /\
     (forall r', r' <> r -> clk_store (cancel r c) !! r' = clk_store c !! r') /\
     (ev_callback_cancelled e = true -> cancel r c = c)).
Proof.
  intros Hr. pose proof (cancel_cancelled_in r c e Hr) as Hc.
  split; [| split].
  - intros l u.
    destruct (steps U run run_io l (cancel r c) u) as [[c' u'] t] eqn:E.
    apply steps_facts in E as (_ & F).
    eapply not_called_when_cancelled; eassumption.
  - intros q l u.
    destruct (finish_tick_then U run run_io q l (cancel r c) u)
      as [[c' u'] t] eqn:E.
    apply finish_tick_then_facts in E as (_ & F).
    eapply not_called_when_cancelled; eassumption.
  - intros Ht. rewrite (cancel_not_triggered r c e Hr Ht).
    split; [reflexivity |]. split; [reflexivity |]. split; [reflexivity |].
    split.
    + intros r' Hne. apply update_event_lookup_ne. congruence.
    + intros Hf. apply (update_event_id r _ c e Hr).
      destruct e; simpl in *. subst. reflexivity.
Qed.
End CancelTheorem.

Lemma cancel_is_final_and_idempotent_witness :
  let c := clock_one_cancelled in
  let e := event_one_cancelled in
  (forall l u,
     let '(_, _, t) :=
       steps unit example_run example_run_io l (cancel 0%nat c) u in
     0%nat ∉ map inv_event t) /\
  (forall q l u,
     let '(_, _, t) :=
       finish_tick_then unit example_run example_run_io q l (cancel 0%nat c) u in
     0%nat ∉ map inv_event t) /\
  (ev_is_triggered e = false ->
     cancel 0%nat c = update_event 0%nat (set_callback_cancelled true) c /\
     ordered_events (cancel 0%nat c) = ordered_events c /\
     frame_callbacks (cancel 0%nat c) = frame_callbacks c /\
     (forall r', r' <> 0%nat ->
        clk_store (cancel 0%nat c) !! r' = clk_store c !! r') /\
     (ev_callback_cancelled e = true -> cancel 0%nat c = c)).
Proof.
  apply (cancel_is_final_and_idempotent unit example_run example_run_io
           clock_one_cancelled 0%nat event_one_cancelled).
  reflexivity.
Defined.

(** C7.  [cancel] on a handle that has fired and is retired is not a
    no-op.  The one-shot event of [clock_fired_once] has fired at 5: it is
    not scheduled and its cancellation flag is clear.  Called again as a
    trigger, it is called back at the tick at 10.  With [cancel] before
    that call the flag is set, the event is appended to [ordered_events]
    all the same, and no tick calls it back: [_process_events] tests the
    flag before [ClockEvent.tick], which would clear it, is reached. *)
Theorem cancel_of_retired_handle_disables_it :
  (exists e, clk_store clock_fired_once !! 0%nat = Some e /\
     ev_is_triggered e = false /\ ev_callback_cancelled e = false) /\
  (exists e, clk_store (cancel 0%nat clock_fired_once) !! 0%nat = Some e /\
     ev_is_triggered e = false /\ ev_callback_cancelled e = true) /\
  map inv_cb
    (snd (example_steps
            [StepAct (ActCall 0%nat); StepTick 5 [] 7; StepTick 7 [] 10]
            clock_fired_once)) = [cb_plain] /\
  map inv_cb
    (snd (example_steps
            [StepAct (ActCancel 0%nat); StepAct (ActCall 0%nat);
             StepTick 5 [] 7; StepTick 7 [] 10; StepTick 10 [] 20]
            clock_fired_once)) = [] /\
  ordered_events
    (fst (example_steps
            [StepAct (ActCancel 0%nat); StepAct (ActCall 0%nat);
             StepTick 5 [] 7; StepTick 7 [] 10; StepTick 10 [] 20]
            clock_fired_once)) = [0%nat].
Proof.
  split; [eexists; split; [reflexivity | split; reflexivity] |].
  split; [eexists; split; [reflexivity | split; reflexivity] |].
  vm_compute. repeat split; reflexivity.
Qed.

(** ** Repeating events that return False *)

Section StopRepeat.
Variable U : Type.
Variable run : cbid -> Q -> U -> Clock -> list Action * PyVal * U.
Variable run_io : cbid -> U -> Clock -> list Action * U.

(** C6.  When [_process_event_callbacks] calls the callback of a repeating
    event and gets exactly False, it cancels the event, and nothing that
    follows (the rest of the tick, any later tick) calls that event again.
    When the callback returns anything else, the clock does nothing more to
    the event: it stays as the callback's own calls left it. *)
Theorem false_return_stops_interval ent c u e cb acts ret u1 :
  clk_store c !! fe_event ent = Some e -> ev_loop e = true ->
  ev_callback_cancelled e = false -> get_callback e = Some cb ->
  run cb (frametime c) u c = (acts, ret, u1) ->
  let '(c', u', t) := dispatch_entry U run ent c u in
  t = [mkInvocation ent cb (frametime c) ret] /\ u' = u1 /\
  (ret = PyBool false ->
     c' = cancel (fe_event ent) (apply_actions acts c) /\
     cancelled_in c' (fe_event ent) /\
     forall q l,
       let '(_, _, t') := finish_tick_then U run run_io q l c' u' in
       fe_event ent ∉ map inv_event t') /\
  (ret <> PyBool false -> c' = apply_actions acts c).
Proof.
  intros Hr Hloop Hc Hcb Hrun. unfold dispatch_entry.
  rewrite Hr, Hc, Hcb, Hrun, Hloop. cbn [andb].
  split; [reflexivity |]. split; [reflexivity |]. split.
  - intros ->. cbn [is_False].
    destruct (store_keeps_actions acts c _ _ Hr) as (e1 & Hr1 & _).
    pose proof (cancel_cancelled_in _ _ _ Hr1) as Hcan.
    split; [reflexivity |]. split; [exact Hcan |].
    intros q l.
    destruct (finish_tick_then U run run_io q l _ u1) as [[c2 u2] t2] eqn:E.
    apply finish_tick_then_facts in E as (_ & F).
    eapply not_called_when_cancelled; eassumption.
  - intros Hret. destruct ret as [| [|] | x]; try reflexivity.
    contradiction Hret. reflexivity.
Qed.
End StopRepeat.

Lemma false_return_stops_interval_witness :
  let c := clock_stop_interval_due in
  let ent := mkFrameEntry 1 (-1) 0 0 in
  let '(c', u', t) := dispatch_entry unit example_run ent c tt in
  t = [mkInvocation ent cb_stop (frametime c) (PyBool false)] /\ u' = tt /\
  (PyBool false = PyBool false ->
     c' = cancel (fe_event ent) (apply_actions [] c) /\
     cancelled_in c' (fe_event ent) /\
     forall q l,
       let '(_, _, t') :=
         finish_tick_then unit example_run example_run_io q l c' u' in
       fe_event ent ∉ map inv_event t') /\
  (PyBool false <> PyBool false -> c' = apply_actions [] c).
Proof.
  apply (false_return_stops_interval unit example_run example_run_io
           (mkFrameEntry 1 (-1) 0 0) clock_stop_interval_due tt
           (set_times 1 1 1 2 (new_event clock0 true cb_stop 1 1))
           cb_stop [] (PyBool false) tt);
    reflexivity.
Defined.

(** The interval is called at its first tick and never again; the same
    interval with a callback that returns None goes on. *)
Example interval_stops_on_False :
  map inv_cb (snd (example_steps
    [StepTick 0 [] 1; StepTick 1 [] 2; StepTick 2 [] 3] clock_stop_interval))
  = [cb_stop] /\
  map inv_cb (snd (example_steps
    [StepTick 0 [] 1; StepTick 1 [] 2; StepTick 2 [] 3]
    (fst (schedule_interval cb_plain 1 1 clock0))))
  = [cb_plain; cb_plain; cb_plain].
Proof. vm_compute. split; reflexivity. Qed.

(** ** Events whose callback is gone *)

Lemma list_remove_not_in r l : NoDup l -> r ∉ list_remove r l.
Proof.
  induction 1 as [| x l Hx Hnd IH]; simpl.
  - apply not_elem_of_nil.
  - destruct (Nat.eqb_spec x r) as [-> | Hne]; [exact Hx |].
    rewrite elem_of_cons. intros [-> | Hin]; [congruence | auto].
Qed.

(** C8.  When [ClockEvent.tick] finds an event due whose weak callback
    reference resolves to nothing, it returns False without queueing the
    event and without raising: the event is marked as not scheduled and
    taken out of the list of scheduled events, the queue of the frame is
    unchanged, and a tuple that still refers to the event leads to no call. *)
Theorem dead_callback_retires r t c e :
  clk_store c !! r = Some e -> get_callback e = None ->
  (ev_timeout e <= 0 \/ ev_next_event_time e <= t) ->
  let '(c', v) := ClockEvent_tick r t c in
  v = PyBool false /\
  frame_callbacks c' = frame_callbacks c /\
  ordered_events c' = list_remove r (ordered_events c) /\
  (NoDup (ordered_events c) -> r ∉ ordered_events c') /\
  (exists e', clk_store c' !! r = Some e' /\ ev_is_triggered e' = false /\
              get_callback e' = None) /\
  (forall U run ent u, fe_event ent = r ->
     snd (dispatch_entry U run ent c' u) = []).
Proof.
  intros Hr Hcb Hdue. unfold ClockEvent_tick. rewrite Hr.
  assert (Hnot : Qltb 0 (ev_timeout e) && Qltb t (ev_next_event_time e) = false).
  { apply andb_false_iff. destruct Hdue as [H1 | H1];
      [left | right]; apply Qltb_ge; exact H1. }
  rewrite Hnot.
  set (e1 := if Qltb 0 (ev_timeout e) then _ else _).
  assert (Hcb1 : get_callback e1 = None).
  { subst e1. destruct (Qltb 0 (ev_timeout e)); exact Hcb. }
  rewrite Hcb1.
  set (c' := untrigger_and_remove r (update_event r (fun _ => e1) c)).
  assert (Hr' : clk_store c' !! r = Some (set_is_triggered false e1)).
  { subst c'. unfold untrigger_and_remove.
    change (clk_store (set_ordered_events ?l ?x)) with (clk_store x).
    rewrite !update_event_lookup, Hr. reflexivity. }
  split; [reflexivity |]. split; [reflexivity |]. split; [reflexivity |].
  split; [| split].
  - intros Hnd. apply list_remove_not_in. exact Hnd.
  - exists (set_is_triggered false e1). split; [exact Hr' |].
    split; [reflexivity | exact Hcb1].
  - intros U run ent u <-. unfold dispatch_entry. rewrite Hr'.
    destruct (ev_callback_cancelled (set_is_triggered false e1));
      [reflexivity |].
    change (get_callback (set_is_triggered false e1)) with (get_callback e1).
    rewrite Hcb1. reflexivity.
Qed.

Lemma dead_callback_retires_witness :
  let c := apply_actions [ActRelease 0%nat; EnvReclaim 0%nat] clock_one_timer in
  let '(c', v) := ClockEvent_tick 0%nat 3 c in
  v = PyBool false /\
  frame_callbacks c' = frame_callbacks c /\
  ordered_events c' = list_remove 0%nat (ordered_events c) /\
  (NoDup (ordered_events c) -> 0%nat ∉ ordered_events c') /\
  (exists e', clk_store c' !! 0%nat = Some e' /\ ev_is_triggered e' = false /\
              get_callback e' = None) /\
  (forall U run ent u, fe_event ent = 0%nat ->
     snd (dispatch_entry U run ent c' u) = []).
Proof.
  apply (dead_callback_retires 0%nat 3
           (apply_actions [ActRelease 0%nat; EnvReclaim 0%nat] clock_one_timer)
           (reclaim (release (new_event clock0 false cb_plain 3 1)))).
  - reflexivity.
  - reflexivity.
  - right. discriminate.
Defined.

(** ** The timers of the time-travel loop *)

Lemma Qeq_bool_compat x x' y : x == x' -> Qeq_bool x y = Qeq_bool x' y.
Proof.
  intros Hx. destruct (Qeq_bool x' y) eqn:E.
  - apply Qeq_bool_iff. apply Qeq_bool_iff in E. rewrite Hx. exact E.
  - apply not_true_iff_false. intros E'. apply Qeq_bool_iff in E'.
    apply not_true_iff_false in E. apply E. apply Qeq_bool_iff.
    rewrite <- Hx. exact E'.
Qed.

Lemma pyset_count_compat x x' s : x == x' -> pyset_count x s = pyset_count x' s.
Proof.
  intros Hx. induction s as [| y s IH]; simpl; [reflexivity |].
  rewrite (Qeq_bool_compat x x' y Hx), IH. reflexivity.
Qed.

Lemma pyset_mem_compat x x' s : x == x' -> pyset_mem x s = pyset_mem x' s.
Proof.
  intros Hx. induction s as [| y s IH]; simpl; [reflexivity |].
  rewrite (Qeq_bool_compat x x' y Hx), IH. reflexivity.
Qed.

Lemma pyset_mem_count x s : pyset_mem x s = false <-> pyset_count x s = 0%nat.
Proof.
  induction s as [| y s IH]; simpl; [tauto |].
  rewrite orb_false_iff, IH. destruct (Qeq_bool x y); simpl; split.
  - intros [? _]; discriminate.
  - discriminate.
  - tauto.
  - tauto.
Qed.

Lemma pyset_mem_elem x s : x ∈ s -> pyset_mem x s = true.
Proof.
  induction 1 as [y s | y z s Hin IH]; simpl.
  - assert (E : Qeq_bool y y = true) by (apply Qeq_bool_iff; reflexivity).
    rewrite E. reflexivity.
  - rewrite IH. apply orb_true_r.
Qed.

Lemma pyset_count_perm x s s' :
  Permutation s s' -> pyset_count x s = pyset_count x s'.
Proof.
  induction 1; simpl; lia.
Qed.

Lemma pyset_ok_perm s s' : Permutation s s' -> pyset_ok s -> pyset_ok s'.
Proof.
  intros Hp Hok x. rewrite <- (pyset_count_perm x s s' Hp). apply Hok.
Qed.

Lemma pyset_discard_perm x s s' :
  Permutation s s' -> Permutation (pyset_discard x s) (pyset_discard x s').
Proof.
  induction 1 as [| y s s' Hp IH | y z s | s1 s2 s3 H1 IH1 H2 IH2]; simpl.
  - reflexivity.
  - destruct (Qeq_bool x y); [exact IH | constructor; exact IH].
  - destruct (Qeq_bool x y), (Qeq_bool x z);
      try reflexivity. apply perm_swap.
  - etransitivity; eassumption.
Qed.

Lemma pyset_discard_absent x s :
  pyset_count x s = 0%nat -> pyset_discard x s = s.
Proof.
  induction s as [| y s IH]; simpl; [reflexivity |].
  destruct (Qeq_bool x y); simpl; [discriminate |].
  intros Hc. rewrite IH by exact Hc. reflexivity.
Qed.

Lemma pyset_discard_elem x y s :
  y ∈ pyset_discard x s <-> y ∈ s /\ ~ x == y.
Proof.
  induction s as [| z s IH]; simpl.
  - split; [intros Hin | intros [Hin _]]; inversion Hin.
  - destruct (Qeq_bool x z) eqn:E.
    + apply Qeq_bool_iff in E. rewrite IH, elem_of_cons. split.
      * intros [Hin Hne]. auto.
      * intros [[-> | Hin] Hne]; [contradiction | auto].
    + rewrite !elem_of_cons, IH. split.
      * intros [-> | [Hin Hne]]; [| auto]. split; [auto |].
        intros Hxz. apply Qeq_bool_iff in Hxz. congruence.
      * intros [[-> | Hin] Hne]; auto.
Qed.

Lemma pyset_count_discard x y s :
  (pyset_count y (pyset_discard x s) <= pyset_count y s)%nat.
Proof.
  induction s as [| z s IH]; simpl; [lia |].
  destruct (Qeq_bool x z); simpl; lia.
Qed.

Section TimersFacts.
Context `{Heapq}.

Lemma nt_inv_init : nt_inv NextTimers_init.
Proof.
  split; [apply is_heap_nil |]. split; [reflexivity |].
  intros x. simpl. lia.
Qed.

Lemma nt_inv_add w t : nt_inv t -> nt_inv (NextTimers_add w t).
Proof.
  intros (Hh & Hp & Hok). unfold NextTimers_add, pyset_add.
  destruct (pyset_mem w (timers_set t)) eqn:Hm; [repeat split; assumption |].
  split; [apply heappush_is_heap; exact Hh |]. split; simpl.
  - rewrite heappush_perm. constructor. exact Hp.
  - intros x. simpl. destruct (Qeq_bool x w) eqn:E; [| apply Hok].
    apply Qeq_bool_iff in E.
    rewrite (pyset_count_compat x w _ E).
    apply pyset_mem_count in Hm. rewrite Hm. lia.
Qed.

(** [pop_closest] on a NextTimers object in good order. *)
Lemma pop_closest_spec t :
  nt_inv t ->
  match NextTimers_pop_closest t with
  | inr (m, t') =>
      m ∈ timers_set t /\
      (forall x, x ∈ timers_set t -> m <= x) /\
      (forall x, x ∈ timers_set t' <-> x ∈ timers_set t /\ ~ m == x) /\
      nt_inv t'
  | inl IndexError => timers_set t = []
  | inl KeyError => False
  end.
Proof.
  intros (Hh & Hp & Hok). unfold NextTimers_pop_closest, NextTimers_is_empty.
  destruct (timers_set t) as [| x0 s0] eqn:Hs; [reflexivity |].
  cbn [length Nat.eqb].
  assert (Hne : timers_heap t <> []).
  { intros E. rewrite E in Hp. apply Permutation_sym, Permutation_nil in Hp.
    discriminate. }
  destruct (heappop_min _ Hh Hne) as (m & h' & Hpop & Hperm & Hh' & Hmin).
  rewrite Hpop.
  assert (Hp' : Permutation (x0 :: s0) (m :: h'))
    by (etransitivity; eassumption).
  assert (Hin : m ∈ x0 :: s0) by (rewrite Hp'; left).
  unfold pyset_remove. rewrite (pyset_mem_elem _ _ Hin).
  assert (Hmm : Qeq_bool m m = true) by (apply Qeq_bool_iff; reflexivity).
  assert (Hc0 : pyset_count m h' = 0%nat).
  { pose proof (Hok m) as Hc.
    rewrite (pyset_count_perm m _ _ Hp') in Hc. simpl in Hc.
    rewrite Hmm in Hc. lia. }
  split; [exact Hin |].
  split; [| split; [| split; [| split]]]; cbn [timers_set timers_heap].
  - intros x Hx. rewrite Forall_forall in Hmin. apply Hmin.
    rewrite <- Hp. exact Hx.
  - intros x. apply pyset_discard_elem.
  - exact Hh'.
  - rewrite (pyset_discard_perm m _ _ Hp'). simpl. rewrite Hmm.
    rewrite (pyset_discard_absent m h' Hc0). reflexivity.
  - intros x. etransitivity; [apply pyset_count_discard | apply Hok].
Qed.

Lemma nt_reachable_inv t : nt_reachable t -> nt_inv t.
Proof.
  induction 1 as [| t w Hr IH | t w t' Hr IH Hpop].
  - apply nt_inv_init.
  - apply nt_inv_add. exact IH.
  - pose proof (pop_closest_spec t IH) as Hs. rewrite Hpop in Hs.
    apply Hs.
Qed.

(** C10.  NextTimers keeps each deadline once: adding a value that is
    already there changes nothing, and a new one joins the pending
    deadlines.  [pop_closest] returns the smallest pending deadline and
    removes it, failing only when none is pending.  [_run_once] moves the
    time of the loop to that smallest deadline, and only when nothing is
    ready to run at the present time. *)
Theorem next_timers_min_and_time_travel :
  (forall t w w', w == w' ->
     NextTimers_add w' (NextTimers_add w t) = NextTimers_add w t) /\
  (forall t w x,
     x ∈ timers_set (NextTimers_add w t) <->
     x ∈ timers_set t \/ (x = w /\ pyset_mem w (timers_set t) = false)) /\
  (forall t, nt_reachable t ->
     match NextTimers_pop_closest t with
     | inr (m, t') =>
         m ∈ timers_set t /\
         (forall x, x ∈ timers_set t -> m <= x) /\
         (forall x, x ∈ timers_set t' <-> x ∈ timers_set t /\ ~ m == x)
     | inl IndexError => timers_set t = []
     | inl KeyError => False
     end) /\
  (forall l, nt_reachable (loop_timers l) ->
     match loop_run_once l with
     | inr l' =>
         loop_ready l' = loop_ready l /\
         (loop_ready l <> [] -> l' = l) /\
         (timers_set (loop_timers l) = [] -> l' = l) /\
         (loop_ready l = [] -> timers_set (loop_timers l) <> [] ->
            loop_time l' ∈ timers_set (loop_timers l) /\
            (forall x, x ∈ timers_set (loop_timers l) -> loop_time l' <= x) /\
            NextTimers_pop_closest (loop_timers l) =
              inr (loop_time l', loop_timers l'))
     | inl _ => False
     end).
Proof.
  split; [| split; [| split]].
  - intros t w w' Hw.
    destruct (pyset_mem w (timers_set t)) eqn:Hm.
    + assert (Hadd : NextTimers_add w t = t).
      { unfold NextTimers_add. rewrite Hm. reflexivity. }
      rewrite Hadd. unfold NextTimers_add.
      rewrite <- (pyset_mem_compat w w' _ Hw), Hm. reflexivity.
    + assert (E : Qeq_bool w' w = true)
        by (apply Qeq_bool_iff; symmetry; exact Hw).
      assert (Hadd : NextTimers_add w t =
                     mkNextTimers (w :: timers_set t)
                       (heappush (timers_heap t) w)).
      { unfold NextTimers_add, pyset_add. rewrite Hm. reflexivity. }
      rewrite Hadd. unfold NextTimers_add. simpl. rewrite E. reflexivity.
  - intros t w x. unfold NextTimers_add, pyset_add.
    destruct (pyset_mem w (timers_set t)) eqn:Hm; simpl.
    + split; [auto |]. intros [Hin | [_ Hf]]; [exact Hin | discriminate].
    + rewrite elem_of_cons. split.
      * intros [-> | Hin]; auto.
      * intros [Hin | [-> _]]; auto.
  - intros t Hr. pose proof (pop_closest_spec t (nt_reachable_inv t Hr)) as Hs.
    destruct (NextTimers_pop_closest t) as [[|] | [m t']]; try exact Hs.
    destruct Hs as (H1 & H2 & H3 & _). auto.
  - intros l Hr.
    pose proof (pop_closest_spec _ (nt_reachable_inv _ Hr)) as Hs.
    unfold loop_run_once, NextTimers_is_empty in *.
    destruct (loop_ready l) as [| h ready] eqn:Hready; cbn [length Nat.eqb].
    2: { rewrite Hready. split; [reflexivity |].
         split; [reflexivity |]. split; [reflexivity |].
         intros E; discriminate. }
    destruct (timers_set (loop_timers l)) as [| x0 s0] eqn:Hset;
      cbn [length Nat.eqb negb].
    { rewrite Hready. split; [reflexivity |]. split; [reflexivity |].
      split; [reflexivity |]. intros _ Hne. contradiction Hne. reflexivity. }
    destruct (NextTimers_pop_closest (loop_timers l))
      as [[|] | [m t']] eqn:Hpop; try discriminate; try contradiction.
    destruct Hs as (H1 & H2 & _). simpl.
    split; [reflexivity |].
    split; [intros Hne; contradiction Hne; reflexivity |].
    split; [discriminate |]. intros _ _. auto.
Qed.
End TimersFacts.

Lemma next_timers_min_and_time_travel_witness :
  NextTimers_add 3 timers_example = timers_example /\
  match NextTimers_pop_closest timers_example with
  | inr (m, t') =>
      m ∈ timers_set timers_example /\
      (forall x, x ∈ timers_set timers_example -> m <= x) /\
      (forall x, x ∈ timers_set t' <-> x ∈ timers_set timers_example /\ ~ m == x)
  | inl IndexError => timers_set timers_example = []
  | inl KeyError => False
  end.
Proof.
  destruct (@next_timers_min_and_time_travel sorted_heapq) as (H1 & _ & H3 & _).
  split.
  - apply (H1 (NextTimers_add (1 # 2) (NextTimers_add 3 NextTimers_init)) 3 3).
    reflexivity.
  - apply (H3 timers_example). unfold timers_example.
    repeat apply nt_reach_add. apply nt_reach_init.
Defined.

(** Deadlines 3, 0.5 and 3 again: two are pending, 0.5 comes out first and
    the loop moves to it when nothing is ready; with a handle ready the time
    stays. *)
Example timers_run :
  timers_set timers_example = [1 # 2; 3] /\
  loop_run_once (mkLoop 0 timers_example []) =
    inr (mkLoop (1 # 2) (mkNextTimers [3] [3]) []) /\
  loop_run_once (mkLoop 0 timers_example [5%nat]) =
    inr (mkLoop 0 timers_example [5%nat]).
Proof. vm_compute. repeat split; reflexivity. Qed.

(** ** The argument of the callbacks *)

Lemma cancel_times r c : clk_times (cancel r c) = clk_times c.
Proof.
  unfold cancel. destruct (clk_store c !! r) as [e |]; [| reflexivity].
  destruct (ev_is_triggered e); reflexivity.
Qed.

Lemma call_times r c : clk_times (fst (ClockEvent_call r c)) = clk_times c.
Proof.
  unfold ClockEvent_call. destruct (clk_store c !! r) as [e |]; [| reflexivity].
  destruct (ev_is_triggered e); reflexivity.
Qed.

Lemma unschedule_loop_times all cb l c :
  clk_times (unschedule_loop all cb l c) = clk_times c.
Proof.
  revert c. induction l as [| r l IH]; intros c; simpl; [reflexivity |].
  destruct (callback_is c r cb); [| apply IH].
  destruct all; [| apply cancel_times].
  rewrite IH. apply cancel_times.
Qed.

Lemma action_times c a : clk_times (apply_action c a) = clk_times c.
Proof.
  destruct a; simpl; try reflexivity.
  - apply call_times.
  - apply cancel_times.
  - apply unschedule_loop_times.
Qed.

Lemma actions_times acts c : clk_times (apply_actions acts c) = clk_times c.
Proof.
  revert c. induction acts as [| a acts IH]; intros c; simpl; [reflexivity |].
  rewrite IH. apply action_times.
Qed.

Lemma event_tick_times_kept r t c :
  clk_times (fst (ClockEvent_tick r t c)) = clk_times c.
Proof.
  unfold ClockEvent_tick. destruct (clk_store c !! r) as [e |]; [| reflexivity].
  destruct (Qltb 0 (ev_timeout e) && Qltb t (ev_next_event_time e));
    [reflexivity |].
  set (e1 := if Qltb 0 (ev_timeout e) then _ else _).
  destruct (get_callback e1); [| reflexivity].
  unfold add_event_to_frame_callbacks.
  destruct (clk_store _ !! r); destruct (ev_loop e); reflexivity.
Qed.

Lemma process_events_loop_times l c :
  clk_times (process_events_loop l c) = clk_times c.
Proof.
  revert c. induction l as [| r l IH]; intros c; simpl; [reflexivity |].
  destruct (clk_store c !! r) as [e |]; [| apply IH].
  destruct (Qltb (clk_last_tick c) (ev_next_event_time e)); [reflexivity |].
  destruct (ev_callback_cancelled e); [apply IH |].
  rewrite IH. apply event_tick_times_kept.
Qed.

Lemma process_events_times c : clk_times (process_events c) = clk_times c.
Proof.
  unfold process_events. destruct (ordered_events c); [reflexivity |].
  rewrite process_events_loop_times. reflexivity.
Qed.

Lemma sleep_until_next_event_times now c :
  clk_times (fst (sleep_until_next_event now c)) = clk_times c.
Proof.
  unfold sleep_until_next_event, get_sleep_time, get_next_event_time.
  destruct (ordered_events c); simpl.
  - destruct (negb _); reflexivity.
  - destruct (negb _); [reflexivity |].
    match goal with |- context [Qltb 0 ?x] => destruct (Qltb 0 x) end;
      reflexivity.
Qed.

Section Arguments.
Variable U : Type.
Variable run : cbid -> Q -> U -> Clock -> list Action * PyVal * U.
Variable run_io : cbid -> U -> Clock -> list Action * U.

Lemma dispatch_arguments q c u c' u' t :
  dispatch U run q c u = (c', u', t) ->
  clk_times c' = clk_times c /\ Forall (fun i => inv_arg i = clk_dt c) t.
Proof.
  revert c u c' u' t. induction q as [| ent q IH]; intros c u c' u' t; simpl.
  - intros [= <- <- <-]. split; [reflexivity | constructor].
  - destruct (dispatch_entry U run ent c u) as [[c1 u1] t1] eqn:E1.
    destruct (dispatch U run q c1 u1) as [[c2 u2] t2] eqn:E2.
    intros [= <- <- <-]. apply IH in E2 as [T2 F2].
    assert (H1 : clk_times c1 = clk_times c /\
                 Forall (fun i => inv_arg i = clk_dt c) t1).
    { revert E1. unfold dispatch_entry.
      destruct (clk_store c !! fe_event ent) as [e |];
        [| intros [= <- <- <-]; split; [reflexivity | constructor]].
      destruct (ev_callback_cancelled e);
        [intros [= <- <- <-]; split; [reflexivity | constructor] |].
      destruct (get_callback e) as [cb |].
      - destruct (run cb (frametime c) u c) as [[acts ret] u0].
        intros [= <- <- <-]. split.
        + destruct (ev_loop e && is_False ret);
            [rewrite cancel_times |]; apply actions_times.
        + repeat constructor.
      - intros [= <- <- <-]. split; [| constructor].
        destruct (ev_loop e); [apply cancel_times | reflexivity]. }
    destruct H1 as [T1 F1]. split; [congruence |].
    apply Forall_app. split; [exact F1 |].
    assert (Hdt : clk_dt c1 = clk_dt c) by (injection T1; auto).
    rewrite Hdt in F2. exact F2.
Qed.

Lemma socket_callbacks_times ready c u :
  clk_times (fst (socket_callbacks U run_io ready c u)) = clk_times c.
Proof.
  revert c u. induction ready as [| s ready IH]; intros c u; simpl;
    [reflexivity |].
  destruct (read_sockets c !! s) as [cb |]; [| apply IH].
  destruct (run_io cb u c) as [acts u1].
  rewrite IH. apply actions_times.
Qed.

(** What the code passes to every callback: [self.frametime], the time
    between the previous tick and this one.  The event's own [_dt] plays
    no part. *)
Lemma callbacks_get_frametime now ready current c u :
  let '(_, _, o) := ClockBase_tick U run run_io now ready current c u in
  Forall (fun i => inv_arg i = current - clk_last_tick c) (to_calls o).
Proof.
  unfold ClockBase_tick, before_callbacks.
  pose proof (sleep_until_next_event_times now c) as Hs.
  destruct (sleep_until_next_event now c) as [c1 w]; simpl in Hs.
  assert (H2 : clk_times
            (fst (match w with
                  | Select _ _ => socket_callbacks U run_io ready c1 u
                  | _ => (c1, u)
                  end)) = clk_times c).
  { destruct w; simpl; try exact Hs.
    rewrite socket_callbacks_times. exact Hs. }
  destruct (match w with Select _ _ => _ | _ => _ end) as [c2 u2].
  simpl in H2.
  assert (Hlt : clk_last_tick c2 = clk_last_tick c) by (injection H2; auto).
  set (c3 := set_tick_time _ _ _ c2).
  pose proof (process_events_times c3) as H4.
  unfold process_event_callbacks.
  destruct (dispatch U run _ (process_events c3) u2) as [[c5 u5] t] eqn:E.
  apply dispatch_arguments in E as [_ F]. simpl.
  assert (Hdt : clk_dt (process_events c3) = current - clk_last_tick c).
  { injection H4 as -> _. subst c3. simpl. rewrite Hlt. reflexivity. }
  rewrite Hdt in F. exact F.
Qed.
End Arguments.

(** C5.  A callback scheduled at time 0 to run after 5 s, with ticks at 3 s
    and at 6 s, is called once, at the second tick.  Its argument is 3, the
    time since the previous tick; the time since the event was scheduled is
    6, which the event has computed into its own [_dt] and which the module
    documents as the argument ("the time elapsed between the scheduling and
    the calling of the callback"). *)
Theorem callback_argument_is_frame_time :
  let '(c, t) := example_steps steps_once_5s clock0 in
  map (fun i => (inv_event i, inv_cb i, inv_arg i)) t
    = [(0%nat, cb_plain, 3)] /\
  ev_dt <$> clk_store c !! 0%nat = Some 6.
Proof. vm_compute. split; reflexivity. Qed.

(** C3.  A callback scheduled before the next frame that schedules itself
    again is called once in the tick, not up to [max_iteration] = 10 times:
    the new event waits in [ordered_events] for the next tick, and the log
    holds no warning.  Nothing in [tick] reads [max_iteration]. *)
Theorem before_frame_rearm_waits_for_next_tick :
  let '(c, t) := example_steps steps_rearm clock0 in
  map inv_cb t = [cb_rearm] /\
  max_iteration c = 10%Z /\
  ordered_events c = [1%nat] /\
  map fst (clk_log c) = [DEBUG; DEBUG; DEBUG].
Proof. vm_compute. repeat split; reflexivity. Qed.

(** ** Triggers *)

(** Calling an idle event schedules it, with the time of the last tick as
    its new starting time, and returns True. *)
Lemma call_idle r c e :
  clk_store c !! r = Some e -> ev_is_triggered e = false ->
  snd (ClockEvent_call r c) = PyBool true /\
  ordered_events (fst (ClockEvent_call r c)) = ordered_events c ++ [r] /\
  clk_store (fst (ClockEvent_call r c)) !! r =
    Some (set_last_dt (get_time c) (set_is_triggered true e)).
Proof.
  intros Hr Ht. unfold ClockEvent_call. rewrite Hr, Ht. simpl.
  split; [reflexivity |]. split; [reflexivity |].
  rewrite list_lookup_alter_eq, Hr. reflexivity.
Qed.

(** Calling an event that is already scheduled changes nothing and returns
    None. *)
Lemma call_pending r c e :
  clk_store c !! r = Some e -> ev_is_triggered e = true ->
  ClockEvent_call r c = (c, PyNone).
Proof. intros Hr Ht. unfold ClockEvent_call. rewrite Hr, Ht. reflexivity. Qed.

(** An event that is cancelled and then called again is back in
    [ordered_events] but keeps its cancellation flag, which [_process_events]
    tests before [ClockEvent.tick] could clear it: no tick calls it. *)
Example retrigger_after_cancel :
  let '(c, t) :=
    example_steps
      [StepAct (ActScheduleOnce cb_plain 0 1); StepAct (ActCancel 0%nat);
       StepAct (ActCall 0%nat); StepTick 0 [] 1; StepTick 1 [] 2] clock0 in
  t = [] /\ ordered_events c = [0%nat].
Proof. vm_compute. split; reflexivity. Qed.

(** C4.  An event that has fired and is idle is called twice as a trigger
    when the clock's time is 5: the first call schedules it and returns
    True, the second returns None, and its callback is called once, at the
    tick at 10 (the tick at 7 is too early).  The argument of that call is
    3, the time since the tick at 7, and not 5, the time since the first
    activation, which the event has in its own [_dt]. *)
Theorem trigger_argument_ignores_activation :
  snd (ClockEvent_call 0%nat clock_fired_once) = PyBool true /\
  snd (ClockEvent_call 0%nat (fst (ClockEvent_call 0%nat clock_fired_once)))
    = PyNone /\
  ev_last_dt <$> clk_store clock_triggered_twice !! 0%nat = Some 5 /\
  let '(c, t) :=
    example_steps [StepTick 5 [] 7; StepTick 7 [] 10] clock_triggered_twice in
  map (fun i => (inv_event i, inv_arg i)) t = [(0%nat, 3)] /\
  ev_dt <$> clk_store c !! 0%nat = Some 5.
Proof. vm_compute. repeat split; reflexivity. Qed.

(** * Further properties *)

(** ** Firing an event *)

Lemma event_tick_other r t c r' :
  r' <> r -> clk_store (fst (ClockEvent_tick r t c)) !! r' = clk_store c !! r'.
Proof.
  intros Hne. unfold ClockEvent_tick.
  destruct (clk_store c !! r) as [e |]; [| reflexivity].
  destruct (Qltb 0 (ev_timeout e) && Qltb t (ev_next_event_time e));
    [reflexivity |].
  set (e1 := if Qltb 0 (ev_timeout e) then _ else _).
  assert (H1 : clk_store (update_event r (fun _ => e1) c) !! r' =
               clk_store c !! r')
    by (apply update_event_lookup_ne; congruence).
  destruct (get_callback e1); cbn [fst].
  - assert (H3 : clk_store (add_event_to_frame_callbacks r
                   (update_event r (set_callback_cancelled false)
                      (update_event r (fun _ => e1) c))) !! r' =
                 clk_store c !! r').
    { rewrite add_event_to_frame_callbacks_store, update_event_lookup_ne
        by congruence. exact H1. }
    destruct (ev_loop e); [exact H3 |].
    unfold untrigger_and_remove.
    change (clk_store (set_ordered_events ?l ?x)) with (clk_store x).
    rewrite update_event_lookup_ne by congruence. exact H3.
  - unfold untrigger_and_remove.
    change (clk_store (set_ordered_events ?l ?x)) with (clk_store x).
    rewrite update_event_lookup_ne by congruence. exact H1.
Qed.

Lemma add_event_ordered_events r c :
  ordered_events (add_event_to_frame_callbacks r c) = ordered_events c.
Proof.
  unfold add_event_to_frame_callbacks.
  destruct (clk_store c !! r); reflexivity.
Qed.

(** What [ClockEvent.tick] does when it fires an event whose callback is
    alive. *)
Lemma event_tick_fires r t c e cb :
  clk_store c !! r = Some e ->
  Qltb 0 (ev_timeout e) && Qltb t (ev_next_event_time e) = false ->
  get_callback e = Some cb ->
  let c' := fst (ClockEvent_tick r t c) in
  frame_callbacks c' =
    frame_callbacks c ++
      [mkFrameEntry (fire_time e t) (- ev_priority e) (ev_id e) r] /\
  ordered_events c' =
    (if ev_loop e then ordered_events c
     else list_remove r (ordered_events c)) /\
  exists e', clk_store c' !! r = Some e' /\
    ev_callback_cancelled e' = false /\
    ev_is_triggered e' = (ev_loop e && ev_is_triggered e) /\
    ev_loop e' = ev_loop e /\
    get_callback e' = Some cb /\
    ev_last_event_time e' = fire_time e t /\
    ev_dt e' = t - ev_last_dt e /\
    ev_last_dt e' = t.
Proof.
  intros Hr Hdue Hcb. unfold ClockEvent_tick. rewrite Hr, Hdue.
  set (e1 := if Qltb 0 (ev_timeout e) then _ else _).
  assert (Hcb1 : get_callback e1 = Some cb).
  { subst e1. destruct (Qltb 0 (ev_timeout e)); exact Hcb. }
  rewrite Hcb1.
  set (c2 := update_event r (set_callback_cancelled false)
               (update_event r (fun _ => e1) c)).
  assert (H2 : clk_store c2 !! r = Some (set_callback_cancelled false e1)).
  { subst c2. rewrite !update_event_lookup, Hr. reflexivity. }
  assert (Hfc : frame_callbacks (add_event_to_frame_callbacks r c2) =
                frame_callbacks c ++
                [mkFrameEntry (fire_time e t) (- ev_priority e) (ev_id e) r]).
  { unfold add_event_to_frame_callbacks. rewrite H2. subst e1.
    unfold fire_time. destruct (Qltb 0 (ev_timeout e)); reflexivity. }
  assert (Hf : ev_last_event_time e1 = fire_time e t /\
               ev_dt e1 = t - ev_last_dt e /\ ev_last_dt e1 = t /\
               ev_loop e1 = ev_loop e /\
               ev_is_triggered e1 = ev_is_triggered e).
  { subst e1. unfold fire_time. destruct (Qltb 0 (ev_timeout e)); simpl; auto. }
  destruct Hf as (F1 & F2 & F3 & F4 & F5).
  destruct (ev_loop e) eqn:Hloop; cbn [fst andb].
  - split; [exact Hfc |].
    split; [rewrite add_event_ordered_events; reflexivity |].
    exists (set_callback_cancelled false e1).
    rewrite add_event_to_frame_callbacks_store.
    split; [exact H2 |]. simpl. auto 10.
  - split; [exact Hfc |].
    split; [unfold untrigger_and_remove; simpl;
            rewrite add_event_ordered_events; reflexivity |].
    exists (set_is_triggered false (set_callback_cancelled false e1)).
    split.
    + unfold untrigger_and_remove.
      change (clk_store (set_ordered_events ?l ?x)) with (clk_store x).
      rewrite update_event_lookup, add_event_to_frame_callbacks_store, H2.
      reflexivity.
    + simpl. auto 10.
Qed.

Lemma event_tick_queue_grows r t c :
  exists suf, frame_callbacks (fst (ClockEvent_tick r t c)) =
              frame_callbacks c ++ suf /\
              Forall (fun ent => fe_event ent = r) suf.
Proof.
  unfold ClockEvent_tick.
  destruct (clk_store c !! r) as [e |] eqn:Hr;
    [| exists []; rewrite app_nil_r; split; [reflexivity | constructor]].
  destruct (Qltb 0 (ev_timeout e) && Qltb t (ev_next_event_time e));
    [exists []; rewrite app_nil_r; split; [reflexivity | constructor] |].
  set (e1 := if Qltb 0 (ev_timeout e) then _ else _).
  destruct (get_callback e1);
    [| exists []; rewrite app_nil_r; split; [reflexivity | constructor]].
  set (c2 := update_event r (set_callback_cancelled false)
               (update_event r (fun _ => e1) c)).
  assert (H2 : clk_store c2 !! r = Some (set_callback_cancelled false e1)).
  { subst c2. rewrite !update_event_lookup, Hr. reflexivity. }
  eexists. split.
  - assert (Hfc : frame_callbacks
        (fst (if ev_loop e then add_event_to_frame_callbacks r c2
              else untrigger_and_remove r (add_event_to_frame_callbacks r c2),
              PyNone)) = frame_callbacks (add_event_to_frame_callbacks r c2))
      by (destruct (ev_loop e); reflexivity).
    rewrite Hfc. unfold add_event_to_frame_callbacks. rewrite H2. reflexivity.
  - repeat constructor.
Qed.

Lemma event_tick_ordered_events r t c :
  ordered_events (fst (ClockEvent_tick r t c)) = ordered_events c \/
  ordered_events (fst (ClockEvent_tick r t c)) = list_remove r (ordered_events c).
Proof.
  unfold ClockEvent_tick.
  destruct (clk_store c !! r) as [e |]; [| left; reflexivity].
  destruct (Qltb 0 (ev_timeout e) && Qltb t (ev_next_event_time e));
    [left; reflexivity |].
  set (e1 := if Qltb 0 (ev_timeout e) then _ else _).
  destruct (get_callback e1); [| right; reflexivity].
  destruct (ev_loop e); [left | right]; cbn [fst];
    unfold untrigger_and_remove; simpl;
    rewrite add_event_ordered_events; reflexivity.
Qed.

Lemma list_remove_elem_ne r x l : x <> r -> x ∈ list_remove r l <-> x ∈ l.
Proof.
  intros Hne. induction l as [| y l IH]; simpl; [reflexivity |].
  destruct (Nat.eqb_spec y r) as [-> | Hyr].
  - rewrite elem_of_cons. split; [auto |]. intros [-> | Hin]; [contradiction | exact Hin].
  - rewrite !elem_of_cons, IH. reflexivity.
Qed.

Lemma StronglySorted_impl_in {A : Type} (R R' : A -> A -> Prop) (l : list A) :
  (forall x y, x ∈ l -> y ∈ l -> R x y -> R' x y) ->
  StronglySorted R l -> StronglySorted R' l.
Proof.
  intros Himp Hs. induction Hs as [| x l Hs IH Hall]; [constructor |].
  constructor.
  - apply IH. intros a b Ha Hb. apply Himp; right; assumption.
  - rewrite Forall_forall in Hall |- *. intros y Hy.
    apply Himp; [left | right; exact Hy | apply Hall; exact Hy].
Qed.

Lemma process_events_loop_queue_grows l c :
  exists suf, frame_callbacks (process_events_loop l c) =
              frame_callbacks c ++ suf.
Proof.
  revert c. induction l as [| r l IH]; intros c; simpl.
  - exists []. rewrite app_nil_r. reflexivity.
  - destruct (clk_store c !! r) as [e |]; [| apply IH].
    destruct (Qltb (clk_last_tick c) (ev_next_event_time e)).
    { exists []. rewrite app_nil_r. reflexivity. }
    destruct (ev_callback_cancelled e); [apply IH |].
    destruct (event_tick_queue_grows r (clk_last_tick c) c) as (s1 & H1 & _).
    destruct (IH (fst (ClockEvent_tick r (clk_last_tick c) c))) as (s2 & H2).
    exists (s1 ++ s2). rewrite H2, H1, app_assoc. reflexivity.
Qed.

Lemma last_tick_event_tick r t c :
  clk_last_tick (fst (ClockEvent_tick r t c)) = clk_last_tick c.
Proof.
  pose proof (event_tick_times_kept r t c) as H. injection H. auto.
Qed.

Lemma process_events_loop_queues l : forall c r e,
  NoDup l ->
  StronglySorted (fun x y => next_event_time c x <= next_event_time c y) l ->
  r ∈ l -> clk_store c !! r = Some e -> is_due c e ->
  mkFrameEntry (fire_time e (clk_last_tick c)) (- ev_priority e) (ev_id e) r
    ∈ frame_callbacks (process_events_loop l c).
Proof.
  induction l as [| r0 l IH]; intros c r e Hnd Hs Hin Hr Hdue.
  { inversion Hin. }
  apply NoDup_cons in Hnd as [Hr0 Hnd].
  apply StronglySorted_inv in Hs as [Hs Hall].
  destruct Hdue as (Hnext & Hcan & Hcb).
  assert (Hle : forall e0, clk_store c !! r0 = Some e0 ->
                  ev_next_event_time e0 <= ev_next_event_time e).
  { intros e0 H0. apply elem_of_cons in Hin as [-> | Hin].
    - assert (e0 = e) by congruence. subst. apply Qle_refl.
    - rewrite Forall_forall in Hall. specialize (Hall r Hin).
      unfold next_event_time in Hall. rewrite H0, Hr in Hall. exact Hall. }
  simpl. destruct (clk_store c !! r0) as [e0 |] eqn:H0.
  2: { apply elem_of_cons in Hin as [-> | Hin]; [congruence |].
       apply IH; try assumption. repeat split; assumption. }
  specialize (Hle e0 eq_refl).
  destruct (Qltb (clk_last_tick c) (ev_next_event_time e0)) eqn:Hlate.
  { apply Qltb_lt in Hlate. lra. }
  destruct (decide (r = r0)) as [-> | Hne].
  - assert (e0 = e) by congruence. subst e0. rewrite Hcan.
    destruct (get_callback e) as [cb |] eqn:Hcb'; [| congruence].
    assert (Htest : Qltb 0 (ev_timeout e) &&
                    Qltb (clk_last_tick c) (ev_next_event_time e) = false)
      by (rewrite Hlate; apply andb_false_r).
    destruct (event_tick_fires r0 (clk_last_tick c) c e cb H0 Htest Hcb')
      as (Hfc & _).
    destruct (process_events_loop_queue_grows l
                (fst (ClockEvent_tick r0 (clk_last_tick c) c))) as (suf & Hsuf).
    rewrite Hsuf, Hfc, !elem_of_app. left. right. left.
  - apply elem_of_cons in Hin as [-> | Hin]; [contradiction |].
    destruct (ev_callback_cancelled e0).
    + apply IH; try assumption. repeat split; assumption.
    + set (c1 := fst (ClockEvent_tick r0 (clk_last_tick c) c)).
      assert (Hlt : clk_last_tick c1 = clk_last_tick c)
        by apply last_tick_event_tick.
      rewrite <- Hlt. apply IH; try assumption.
      * eapply StronglySorted_impl_in; [| exact Hs].
        intros x y Hx Hy. unfold next_event_time.
        subst c1. rewrite !event_tick_other; [auto | |];
          intros ->; contradiction.
      * subst c1. rewrite event_tick_other by exact Hne. exact Hr.
      * unfold is_due. rewrite Hlt. repeat split; assumption.
Qed.

(** X1.  [_process_events] stops at the first event that is not yet due;
    since it sorts first, it loses none: every scheduled event whose next
    fire time has come, that is not cancelled and whose callback is alive,
    is queued for the frame, under its fire time, its negated priority and
    its id. *)
Theorem process_events_queues_every_due_event c r e :
  clock_wf c -> r ∈ ordered_events c -> clk_store c !! r = Some e ->
  is_due c e ->
  mkFrameEntry (fire_time e (clk_last_tick c)) (- ev_priority e) (ev_id e) r
    ∈ frame_callbacks (process_events c).
Proof.
  intros (_ & _ & Hnd & _) Hin Hr Hdue. unfold process_events.
  destruct (ordered_events c) as [| r0 l] eqn:Hoe; [inversion Hin |].
  rewrite <- Hoe in *.
  set (leb := fun x y => Qle_bool (next_event_time c x) (next_event_time c y)).
  pose proof (stable_sort_perm leb (ordered_events c)) as Hp.
  change (clk_last_tick c) with (clk_last_tick (sort_ordered_events c)).
  apply process_events_loop_queues.
  - simpl. fold leb. rewrite Hp. exact Hnd.
  - simpl. fold leb.
    change (fun x y => next_event_time (sort_ordered_events c) x <=
                        next_event_time (sort_ordered_events c) y)
      with (fun x y => next_event_time c x <= next_event_time c y).
    apply (stable_sort_sorted leb).
    + intros x y Hxy. apply Qle_bool_iff. exact Hxy.
    + intros x y Hxy. apply Qlt_le_weak, Qle_bool_false. exact Hxy.
    + intros x y z. apply Qle_trans.
  - simpl. fold leb. rewrite Hp. exact Hin.
  - exact Hr.
  - exact Hdue.
Qed.

Lemma clock_two_once_wf : clock_wf clock_two_once.
Proof.
  apply (clock_wf_action _ (ActScheduleOnce 1%nat 0 5)).
  apply (clock_wf_action _ (ActScheduleOnce cb_plain 0 1)).
  apply clock_wf_init.
Qed.

Lemma process_events_queues_every_due_event_witness :
  mkFrameEntry (fire_time event_two_once_second (clk_last_tick clock_two_once))
    (- ev_priority event_two_once_second) (ev_id event_two_once_second) 1%nat
    ∈ frame_callbacks (process_events clock_two_once).
Proof.
  apply (process_events_queues_every_due_event clock_two_once 1%nat
           event_two_once_second).
  - apply clock_two_once_wf.
  - right. left.
  - reflexivity.
  - split; [discriminate |]. split; [reflexivity | discriminate].
Defined.

Lemma process_events_loop_leaves l : forall c r e,
  clk_store c !! r = Some e ->
  (clk_last_tick c < ev_next_event_time e \/ ev_callback_cancelled e = true) ->
  let c' := process_events_loop l c in
  clk_store c' !! r = Some e /\
  (r ∈ ordered_events c' <-> r ∈ ordered_events c) /\
  (forall ent, ent ∈ frame_callbacks c' -> fe_event ent = r ->
               ent ∈ frame_callbacks c).
Proof.
  induction l as [| r0 l IH]; intros c r e Hr Hskip; simpl.
  { split; [exact Hr |]. split; [reflexivity | auto]. }
  destruct (clk_store c !! r0) as [e0 |] eqn:H0; [| apply IH; assumption].
  destruct (Qltb (clk_last_tick c) (ev_next_event_time e0)) eqn:Hlate.
  { split; [exact Hr |]. split; [reflexivity | auto]. }
  destruct (ev_callback_cancelled e0) eqn:Hc0; [apply IH; assumption |].
  assert (Hne : r <> r0).
  { intros ->. assert (e0 = e) by congruence. subst e0.
    apply Qltb_ge in Hlate. destruct Hskip as [Hl | Hc]; [lra | congruence]. }
  set (c1 := fst (ClockEvent_tick r0 (clk_last_tick c) c)).
  assert (Hr1 : clk_store c1 !! r = Some e)
    by (subst c1; rewrite event_tick_other by exact Hne; exact Hr).
  assert (Hskip1 : clk_last_tick c1 < ev_next_event_time e \/
                   ev_callback_cancelled e = true).
  { subst c1. rewrite last_tick_event_tick. exact Hskip. }
  destruct (IH c1 r e Hr1 Hskip1) as (I1 & I2 & I3).
  split; [exact I1 |]. split.
  - rewrite I2. subst c1.
    destruct (event_tick_ordered_events r0 (clk_last_tick c) c) as [-> | ->];
      [reflexivity | apply list_remove_elem_ne; exact Hne].
  - intros ent Hent Hev. specialize (I3 ent Hent Hev). subst c1.
    destruct (event_tick_queue_grows r0 (clk_last_tick c) c) as (suf & Hq & Hsuf).
    rewrite Hq in I3. apply elem_of_app in I3 as [Hold | Hnew]; [exact Hold |].
    rewrite Forall_forall in Hsuf. specialize (Hsuf ent Hnew). congruence.
Qed.

(** X2.  [_process_events] leaves alone every event that is not yet due or
    that is cancelled: the object is unchanged, it stays in (or out of) the
    list of scheduled events, and nothing is queued for it. *)
Theorem process_events_leaves_later_and_cancelled c r e :
  clk_store c !! r = Some e ->
  (clk_last_tick c < ev_next_event_time e \/ ev_callback_cancelled e = true) ->
  let c' := process_events c in
  clk_store c' !! r = Some e /\
  (r ∈ ordered_events c' <-> r ∈ ordered_events c) /\
  (forall ent, ent ∈ frame_callbacks c' -> fe_event ent = r ->
               ent ∈ frame_callbacks c).
Proof.
  intros Hr Hskip. unfold process_events.
  destruct (ordered_events c) as [| r0 l] eqn:Hoe.
  { rewrite Hoe. split; [exact Hr |]. split; [reflexivity | auto]. }
  rewrite <- Hoe.
  destruct (process_events_loop_leaves
              (ordered_events (sort_ordered_events c))
              (sort_ordered_events c) r e Hr Hskip) as (I1 & I2 & I3).
  split; [exact I1 |]. split; [| exact I3].
  rewrite I2. simpl. rewrite stable_sort_perm. reflexivity.
Qed.

Lemma process_events_leaves_later_and_cancelled_witness :
  let c := clock_one_timer_at_1 in
  let e := new_event clock0 false cb_plain 3 1 in
  let c' := process_events c in
  clk_store c' !! 0%nat = Some e /\
  (0%nat ∈ ordered_events c' <-> 0%nat ∈ ordered_events c) /\
  (forall ent, ent ∈ frame_callbacks c' -> fe_event ent = 0%nat ->
               ent ∈ frame_callbacks c).
Proof.
  apply (process_events_leaves_later_and_cancelled clock_one_timer_at_1 0%nat
           (new_event clock0 false cb_plain 3 1)).
  - reflexivity.
  - left. reflexivity.
Defined.

(** [ClockEvent.tick] on an event whose cancellation flag is clear either
    changes nothing (too early) or leaves the flag clear and a one-shot
    event untriggered. *)
Lemma event_tick_cases r t c e :
  clk_store c !! r = Some e -> ev_callback_cancelled e = false ->
  fst (ClockEvent_tick r t c) = c \/
  exists e', clk_store (fst (ClockEvent_tick r t c)) !! r = Some e' /\
    ev_callback_cancelled e' = false /\
    (ev_loop e' = false -> ev_is_triggered e' = false).
Proof.
  intros Hr Hc.
  destruct (Qltb 0 (ev_timeout e) && Qltb t (ev_next_event_time e)) eqn:Htest.
  { left. unfold ClockEvent_tick. rewrite Hr, Htest. reflexivity. }
  right. destruct (get_callback e) as [cb |] eqn:Hcb.
  - destruct (event_tick_fires r t c e cb Hr Htest Hcb)
      as (_ & _ & e' & H1 & H2 & H3 & H4 & _).
    exists e'. split; [exact H1 |]. split; [exact H2 |].
    intros Hl. rewrite H3. rewrite H4 in Hl. rewrite Hl. reflexivity.
  - unfold ClockEvent_tick. rewrite Hr, Htest.
    set (e1 := if Qltb 0 (ev_timeout e) then _ else _).
    assert (Hcb1 : get_callback e1 = None).
    { subst e1. destruct (Qltb 0 (ev_timeout e)); exact Hcb. }
    rewrite Hcb1. cbn [fst].
    exists (set_is_triggered false e1). split.
    + unfold untrigger_and_remove.
      change (clk_store (set_ordered_events ?l ?x)) with (clk_store x).
      rewrite !update_event_lookup, Hr. reflexivity.
    + split; [| reflexivity].
      subst e1. destruct (Qltb 0 (ev_timeout e)); exact Hc.
Qed.

Lemma process_events_loop_queued l : forall c,
  Forall (fun ent => exists e, clk_store c !! fe_event ent = Some e /\
            ev_callback_cancelled e = false /\
            (ev_loop e = false -> ev_is_triggered e = false))
    (frame_callbacks c) ->
  let c' := process_events_loop l c in
  Forall (fun ent => exists e, clk_store c' !! fe_event ent = Some e /\
            ev_callback_cancelled e = false /\
            (ev_loop e = false -> ev_is_triggered e = false))
    (frame_callbacks c').
Proof.
  induction l as [| r0 l IH]; intros c Hq; simpl; [exact Hq |].
  destruct (clk_store c !! r0) as [e0 |] eqn:H0; [| apply IH; exact Hq].
  destruct (Qltb (clk_last_tick c) (ev_next_event_time e0)); [exact Hq |].
  destruct (ev_callback_cancelled e0) eqn:Hc0; [apply IH; exact Hq |].
  apply IH.
  destruct (event_tick_cases r0 (clk_last_tick c) c e0 H0 Hc0)
    as [-> | (e' & Hr' & Hc' & Hst)]; [exact Hq |].
  destruct (event_tick_queue_grows r0 (clk_last_tick c) c) as (suf & Hfc & Hsuf).
  rewrite Hfc. apply Forall_app. split.
  - eapply Forall_impl; [exact Hq |]. intros ent (e & He & Hce & Hle).
    destruct (decide (fe_event ent = r0)) as [Heq | Hne].
    + exists e'. rewrite Heq. auto.
    + exists e. rewrite event_tick_other by exact Hne. auto.
  - eapply Forall_impl; [exact Hsuf |]. intros ent ->.
    exists e'. auto.
Qed.

(** X3.  Between two ticks the queue of the frame is empty; after
    [_process_events] every tuple in it refers to an event whose
    cancellation flag is clear, and a one-shot event among them has already
    left the list of scheduled events, before its callback is called. *)
Theorem queued_one_shot_is_unscheduled c :
  clock_wf c -> frame_callbacks c = [] ->
  Forall (queued_state (process_events c)) (frame_callbacks (process_events c)).
Proof.
  intros Hwf Hnil.
  pose proof (clock_wf_process_events c Hwf) as (_ & _ & _ & Hoe).
  assert (Hq : Forall (fun ent => exists e,
                 clk_store (process_events c) !! fe_event ent = Some e /\
                 ev_callback_cancelled e = false /\
                 (ev_loop e = false -> ev_is_triggered e = false))
               (frame_callbacks (process_events c))).
  { unfold process_events. destruct (ordered_events c);
      [rewrite Hnil; constructor |].
    apply process_events_loop_queued. simpl. rewrite Hnil. constructor. }
  eapply Forall_impl; [exact Hq |]. intros ent (e & He & Hc & Hl).
  exists e. split; [exact He |]. split; [exact Hc |].
  intros Hloop. split; [auto |]. rewrite Hoe. intros (e2 & He2 & Ht).
  assert (e2 = e) by congruence. subst e2. rewrite (Hl Hloop) in Ht.
  discriminate.
Qed.

Lemma queued_one_shot_is_unscheduled_witness :
  Forall (queued_state (process_events clock_two_once))
    (frame_callbacks (process_events clock_two_once)).
Proof.
  apply (queued_one_shot_is_unscheduled clock_two_once).
  - apply clock_two_once_wf.
  - reflexivity.
Defined.

(** ** unschedule *)

Lemma cancel_other r r' c :
  r' <> r -> clk_store (cancel r c) !! r' = clk_store c !! r'.
Proof.
  intros Hne. unfold cancel. destruct (clk_store c !! r) as [e |]; [| reflexivity].
  destruct (ev_is_triggered e).
  - rewrite update_event_lookup_ne by congruence.
    change (clk_store (set_ordered_events ?l ?x)) with (clk_store x).
    apply update_event_lookup_ne. congruence.
  - apply update_event_lookup_ne. congruence.
Qed.

Lemma cancel_get_callback r r' c :
  get_callback <$> clk_store (cancel r c) !! r' =
  get_callback <$> clk_store c !! r'.
Proof.
  destruct (decide (r' = r)) as [-> | Hne];
    [| rewrite cancel_other by exact Hne; reflexivity].
  unfold cancel. destruct (clk_store c !! r) as [e |] eqn:Hr; [| rewrite Hr; reflexivity].
  destruct (ev_is_triggered e).
  - rewrite update_event_lookup.
    change (clk_store (set_ordered_events ?l ?x)) with (clk_store x).
    rewrite update_event_lookup, Hr. reflexivity.
  - rewrite update_event_lookup, Hr. reflexivity.
Qed.

Lemma callback_is_cancel r r' cb c :
  callback_is (cancel r c) r' cb = callback_is c r' cb.
Proof.
  unfold callback_is. pose proof (cancel_get_callback r r' c) as H.
  destruct (clk_store (cancel r c) !! r'), (clk_store c !! r');
    simpl in H; try discriminate; [| reflexivity].
  injection H as ->. reflexivity.
Qed.

Lemma filter_remove_absent r (l : list nat) :
  r ∉ l -> List.filter (fun x => negb (Nat.eqb x r)) l = l.
Proof.
  induction l as [| y l IH]; intros Hnin; simpl; [reflexivity |].
  apply not_elem_of_cons in Hnin as [Hne Hnin].
  destruct (Nat.eqb_spec y r) as [-> | _]; [congruence |].
  simpl. rewrite IH by exact Hnin. reflexivity.
Qed.

Lemma list_remove_filter r (l : list nat) :
  NoDup l -> list_remove r l = List.filter (fun x => negb (Nat.eqb x r)) l.
Proof.
  induction 1 as [| y l Hy Hnd IH]; simpl; [reflexivity |].
  destruct (Nat.eqb_spec y r) as [-> | Hne]; simpl.
  - rewrite filter_remove_absent by exact Hy. reflexivity.
  - rewrite IH. reflexivity.
Qed.

(** In a clock in good order [cancel] takes the event, and nothing else, out
    of the list of scheduled events. *)
Lemma cancel_ordered_events r c :
  clock_wf c ->
  ordered_events (cancel r c) =
  List.filter (fun x => negb (Nat.eqb x r)) (ordered_events c).
Proof.
  intros (_ & _ & Hnd & Hoe). unfold cancel.
  destruct (clk_store c !! r) as [e |] eqn:Hr.
  - destruct (ev_is_triggered e) eqn:Ht; simpl.
    + apply list_remove_filter. exact Hnd.
    + rewrite filter_remove_absent; [reflexivity |].
      rewrite Hoe. intros (e' & He' & Ht'). congruence.
  - rewrite filter_remove_absent; [reflexivity |].
    rewrite Hoe. intros (e' & He' & _). congruence.
Qed.

Lemma filter_filter {A : Type} (f g : A -> bool) (l : list A) :
  List.filter f (List.filter g l) = List.filter (fun x => g x && f x) l.
Proof.
  induction l as [| x l IH]; simpl; [reflexivity |].
  destruct (g x); simpl; [destruct (f x) |]; rewrite IH; reflexivity.
Qed.

Lemma filter_ext_elem {A : Type} (f g : A -> bool) (l : list A) :
  (forall x, x ∈ l -> f x = g x) -> List.filter f l = List.filter g l.
Proof.
  induction l as [| x l IH]; intros Hfg; simpl; [reflexivity |].
  rewrite (Hfg x) by left. rewrite IH; [reflexivity |].
  intros y Hy. apply Hfg. right. exact Hy.
Qed.

Lemma callback_is_lookup c r cb :
  callback_is c r cb = true -> exists e, clk_store c !! r = Some e.
Proof.
  unfold callback_is. destruct (clk_store c !! r) as [e |]; [eauto | discriminate].
Qed.

(** In a clock in good order an event that has left the list of scheduled
    events is not triggered. *)
Lemma cancelled_outside_untriggered c r :
  clock_wf c -> cancelled_in c r -> r ∉ ordered_events c ->
  cancelled_untriggered c r.
Proof.
  intros (_ & _ & _ & Hoe) (e & He & Hc) Hnin. exists e.
  split; [exact He |]. split; [exact Hc |].
  destruct (ev_is_triggered e) eqn:Ht; [| reflexivity].
  exfalso. apply Hnin. apply Hoe. eauto.
Qed.

Lemma unschedule_loop_all cb l : forall c,
  clock_wf c ->
  let c' := unschedule_loop true cb l c in
  ordered_events c' =
    List.filter (fun x => negb (existsb (Nat.eqb x) l && callback_is c x cb))
      (ordered_events c) /\
  (forall r, r ∈ l -> callback_is c r cb = true -> cancelled_in c' r) /\
  (forall r e, clk_store c !! r = Some e -> callback_is c r cb = false ->
               clk_store c' !! r = Some e).
Proof.
  induction l as [| r0 l IH]; intros c Hwf; simpl.
  - split; [| split; [intros r Hin; inversion Hin | auto]].
    induction (ordered_events c) as [| x xs IHx]; simpl; [reflexivity |].
    rewrite <- IHx at 1. reflexivity.
  - destruct (callback_is c r0 cb) eqn:Hm.
    + destruct (IH (cancel r0 c) (clock_wf_cancel r0 c Hwf)) as (I1 & I2 & I3).
      split; [| split].
      * rewrite I1, (cancel_ordered_events r0 c Hwf), filter_filter.
        apply filter_ext_elem. intros x _.
        rewrite callback_is_cancel.
        destruct (Nat.eqb_spec x r0) as [-> | Hne]; simpl; [| reflexivity].
        rewrite Hm. reflexivity.
      * intros r Hin Hr. apply elem_of_cons in Hin as [-> | Hin].
        -- destruct (callback_is_lookup _ _ _ Hm) as [e He].
           eapply cancelled_in_keeps;
             [apply store_keeps_unschedule_loop |].
           eapply cancel_cancelled_in. exact He.
        -- apply I2; [exact Hin |]. rewrite callback_is_cancel. exact Hr.
      * intros r e He Hr. apply I3; [| rewrite callback_is_cancel; exact Hr].
        rewrite cancel_other; [exact He |]. intros ->. congruence.
    + destruct (IH c Hwf) as (I1 & I2 & I3).
      split; [| split].
      * rewrite I1. apply filter_ext_elem. intros x _.
        destruct (Nat.eqb_spec x r0) as [-> | Hne]; simpl; [| reflexivity].
        rewrite Hm, andb_false_r. reflexivity.
      * intros r Hin Hr. apply elem_of_cons in Hin as [-> | Hin];
          [congruence | auto].
      * exact I3.
Qed.

(** X4.  [unschedule(callback)] with [all_events] set cancels every
    scheduled event of that callable and no other: the list of scheduled
    events keeps, in their order, exactly the events of other callables;
    the events of the callable have their cancellation recorded and are
    no longer triggered; the objects of the other events are untouched. *)
Theorem unschedule_all_matches c cb :
  clock_wf c ->
  let c' := unschedule cb true c in
  ordered_events c' =
    List.filter (fun r => negb (callback_is c r cb)) (ordered_events c) /\
  (forall r, r ∈ ordered_events c -> callback_is c r cb = true ->
             cancelled_untriggered c' r) /\
  (forall r e, clk_store c !! r = Some e -> callback_is c r cb = false ->
               clk_store c' !! r = Some e).
Proof.
  intros Hwf. unfold unschedule.
  destruct (unschedule_loop_all cb (ordered_events c) c Hwf) as (I1 & I2 & I3).
  assert (Hoe : ordered_events (unschedule_loop true cb (ordered_events c) c) =
                List.filter (fun r => negb (callback_is c r cb))
                  (ordered_events c)).
  { rewrite I1. apply filter_ext_elem. intros x Hx.
    assert (Hin : existsb (Nat.eqb x) (ordered_events c) = true).
    { apply existsb_exists. exists x. split; [| apply Nat.eqb_refl].
      apply list_elem_of_In. exact Hx. }
    rewrite Hin. reflexivity. }
  split; [exact Hoe |]. split; [| exact I3].
  intros r Hin Hm. apply cancelled_outside_untriggered.
  - apply clock_wf_unschedule_loop. exact Hwf.
  - apply I2; assumption.
  - rewrite Hoe, list_elem_of_In, List.filter_In, Hm. intros [_ Hf].
    discriminate.
Qed.

Lemma clock_three_once_wf : clock_wf clock_three_once.
Proof.
  apply (clock_wf_action _ (ActScheduleOnce cb_plain 2 1)).
  apply (clock_wf_action _ (ActScheduleOnce cb_stop 1 1)).
  apply (clock_wf_action _ (ActScheduleOnce cb_plain 0 1)).
  apply clock_wf_init.
Qed.

Lemma unschedule_all_matches_witness :
  let c := clock_three_once in
  let c' := unschedule cb_plain true c in
  ordered_events c' =
    List.filter (fun r => negb (callback_is c r cb_plain)) (ordered_events c) /\
  (forall r, r ∈ ordered_events c -> callback_is c r cb_plain = true ->
             cancelled_untriggered c' r) /\
  (forall r e, clk_store c !! r = Some e -> callback_is c r cb_plain = false ->
               clk_store c' !! r = Some e).
Proof.
  apply (unschedule_all_matches clock_three_once cb_plain).
  apply clock_three_once_wf.
Defined.

(** Two events of the callable out of three: the other one stays. *)
Example unschedule_all_example :
  ordered_events clock_three_once = [0%nat; 1%nat; 2%nat] /\
  ordered_events (unschedule cb_plain true clock_three_once) = [1%nat] /\
  ordered_events (unschedule cb_plain false clock_three_once) = [1%nat; 2%nat].
Proof. vm_compute. repeat split; reflexivity. Qed.

Lemma unschedule_loop_first cb l c :
  unschedule_loop false cb l c =
  match List.find (fun r => callback_is c r cb) l with
  | Some r => cancel r c
  | None => c
  end.
Proof.
  induction l as [| r0 l IH]; simpl; [reflexivity |].
  destruct (callback_is c r0 cb); [reflexivity | exact IH].
Qed.

(** X5.  [unschedule(callback, all_events=False)] cancels one event at
    most: the first event of that callable in [ordered_events].  All other
    events, also later ones of the same callable, keep their objects and
    their places in the list; without a match the clock is unchanged. *)
Theorem unschedule_first_match c cb :
  clock_wf c ->
  match List.find (fun r => callback_is c r cb) (ordered_events c) with
  | Some r0 =>
      unschedule cb false c = cancel r0 c /\
      r0 ∈ ordered_events c /\ callback_is c r0 cb = true /\
      ordered_events (unschedule cb false c) =
        List.filter (fun x => negb (Nat.eqb x r0)) (ordered_events c) /\
      (forall r, r <> r0 ->
         clk_store (unschedule cb false c) !! r = clk_store c !! r)
  | None =>
      unschedule cb false c = c /\
      forall r, r ∈ ordered_events c -> callback_is c r cb = false
  end.
Proof.
  intros Hwf. unfold unschedule. rewrite unschedule_loop_first.
  destruct (List.find _ (ordered_events c)) as [r0 |] eqn:Hfind.
  - apply find_some in Hfind as [Hin Hm].
    split; [reflexivity |]. split; [apply list_elem_of_In; exact Hin |].
    split; [exact Hm |]. split; [apply cancel_ordered_events; exact Hwf |].
    intros r Hne. apply cancel_other. exact Hne.
  - split; [reflexivity |]. intros r Hr.
    apply list_elem_of_In in Hr.
    pose proof (find_none _ _ Hfind r Hr) as Hn. exact Hn.
Qed.

Lemma unschedule_first_match_witness :
  match List.find (fun r => callback_is clock_three_once r cb_plain)
          (ordered_events clock_three_once) with
  | Some r0 =>
      unschedule cb_plain false clock_three_once = cancel r0 clock_three_once /\
      r0 ∈ ordered_events clock_three_once /\
      callback_is clock_three_once r0 cb_plain = true /\
      ordered_events (unschedule cb_plain false clock_three_once) =
        List.filter (fun x => negb (Nat.eqb x r0))
          (ordered_events clock_three_once) /\
      (forall r, r <> r0 ->
         clk_store (unschedule cb_plain false clock_three_once) !! r =
         clk_store clock_three_once !! r)
  | None =>
      unschedule cb_plain false clock_three_once = clock_three_once /\
      forall r, r ∈ ordered_events clock_three_once ->
                callback_is clock_three_once r cb_plain = false
  end.
Proof.
  apply (unschedule_first_match clock_three_once cb_plain).
  apply clock_three_once_wf.
Defined.

(** ** The time and the frame count of the clock *)

Lemma cancel_counters r c : clk_counters (cancel r c) = clk_counters c.
Proof.
  unfold cancel. destruct (clk_store c !! r) as [e |]; [| reflexivity].
  destruct (ev_is_triggered e); reflexivity.
Qed.

Lemma call_counters r c :
  clk_counters (fst (ClockEvent_call r c)) = clk_counters c.
Proof.
  unfold ClockEvent_call. destruct (clk_store c !! r) as [e |]; [| reflexivity].
  destruct (ev_is_triggered e); reflexivity.
Qed.

Lemma unschedule_loop_counters all cb l c :
  clk_counters (unschedule_loop all cb l c) = clk_counters c.
Proof.
  revert c. induction l as [| r l IH]; intros c; simpl; [reflexivity |].
  destruct (callback_is c r cb); [| apply IH].
  destruct all; [| apply cancel_counters].
  rewrite IH. apply cancel_counters.
Qed.

Lemma action_counters c a : clk_counters (apply_action c a) = clk_counters c.
Proof.
  destruct a; simpl; try reflexivity.
  - apply call_counters.
  - apply cancel_counters.
  - apply unschedule_loop_counters.
Qed.

Lemma actions_counters acts c :
  clk_counters (apply_actions acts c) = clk_counters c.
Proof.
  revert c. induction acts as [| a acts IH]; intros c; simpl; [reflexivity |].
  rewrite IH. apply action_counters.
Qed.

Lemma event_tick_counters r t c :
  clk_counters (fst (ClockEvent_tick r t c)) = clk_counters c.
Proof.
  unfold ClockEvent_tick. destruct (clk_store c !! r) as [e |]; [| reflexivity].
  destruct (Qltb 0 (ev_timeout e) && Qltb t (ev_next_event_time e));
    [reflexivity |].
  set (e1 := if Qltb 0 (ev_timeout e) then _ else _).
  destruct (get_callback e1); [| reflexivity].
  unfold add_event_to_frame_callbacks.
  destruct (clk_store _ !! r); destruct (ev_loop e); reflexivity.
Qed.

Lemma process_events_loop_counters l c :
  clk_counters (process_events_loop l c) = clk_counters c.
Proof.
  revert c. induction l as [| r l IH]; intros c; simpl; [reflexivity |].
  destruct (clk_store c !! r) as [e |]; [| apply IH].
  destruct (Qltb (clk_last_tick c) (ev_next_event_time e)); [reflexivity |].
  destruct (ev_callback_cancelled e); [apply IH |].
  rewrite IH. apply event_tick_counters.
Qed.

Lemma process_events_counters c :
  clk_counters (process_events c) = clk_counters c.
Proof.
  unfold process_events. destruct (ordered_events c); [reflexivity |].
  rewrite process_events_loop_counters. reflexivity.
Qed.

Lemma sleep_counters now c :
  clk_counters (fst (sleep_until_next_event now c)) = clk_counters c.
Proof.
  unfold sleep_until_next_event, get_sleep_time, get_next_event_time.
  destruct (ordered_events c); simpl.
  - destruct (negb _); reflexivity.
  - destruct (negb _); [reflexivity |].
    match goal with |- context [Qltb 0 ?x] => destruct (Qltb 0 x) end;
      reflexivity.
Qed.

Section Bookkeeping.
Variable U : Type.
Variable run : cbid -> Q -> U -> Clock -> list Action * PyVal * U.
Variable run_io : cbid -> U -> Clock -> list Action * U.

Lemma dispatch_counters q c u :
  clk_counters (fst (fst (dispatch U run q c u))) = clk_counters c.
Proof.
  revert c u. induction q as [| ent q IH]; intros c u; simpl; [reflexivity |].
  assert (H1 : clk_counters (fst (fst (dispatch_entry U run ent c u))) =
               clk_counters c).
  { unfold dispatch_entry.
    destruct (clk_store c !! fe_event ent) as [e |]; [| reflexivity].
    destruct (ev_callback_cancelled e); [reflexivity |].
    destruct (get_callback e) as [cb |].
    - destruct (run cb (frametime c) u c) as [[acts ret] u1]. simpl.
      destruct (ev_loop e && is_False ret);
        [rewrite cancel_counters |]; apply actions_counters.
    - simpl. destruct (ev_loop e); [apply cancel_counters | reflexivity]. }
  destruct (dispatch_entry U run ent c u) as [[c1 u1] t1]. simpl in H1.
  specialize (IH c1 u1).
  destruct (dispatch U run q c1 u1) as [[c2 u2] t2]. simpl in *. congruence.
Qed.

Lemma socket_callbacks_counters ready c u :
  clk_counters (fst (socket_callbacks U run_io ready c u)) = clk_counters c.
Proof.
  revert c u. induction ready as [| s ready IH]; intros c u; simpl;
    [reflexivity |].
  destruct (read_sockets c !! s) as [cb |]; [| apply IH].
  destruct (run_io cb u c) as [acts u1].
  rewrite IH. apply actions_counters.
Qed.

Lemma tick_scalars now ready current c u :
  let '(c', _, o) := ClockBase_tick U run run_io now ready current c u in
  get_time c' = current /\
  frametime c' = current - get_time c /\
  to_result o = current - get_time c /\
  clk_frames c' = (clk_frames c + 1)%Z /\
  clk_start_tick c' = clk_start_tick c /\
  get_boottime c' = current - clk_start_tick c.
Proof.
  unfold ClockBase_tick, before_callbacks, process_event_callbacks.
  pose proof (sleep_until_next_event_times now c) as T1.
  pose proof (sleep_counters now c) as K1.
  destruct (sleep_until_next_event now c) as [c1 w]. simpl in T1, K1.
  assert (H2 : clk_times
            (fst (match w with
                  | Select _ _ => socket_callbacks U run_io ready c1 u
                  | _ => (c1, u)
                  end)) = clk_times c /\
               clk_counters
            (fst (match w with
                  | Select _ _ => socket_callbacks U run_io ready c1 u
                  | _ => (c1, u)
                  end)) = clk_counters c).
  { destruct w; simpl; try (split; assumption).
    rewrite socket_callbacks_times, socket_callbacks_counters.
    split; assumption. }
  destruct (match w with Select _ _ => _ | _ => _ end) as [c2 u2].
  simpl in H2. destruct H2 as [T2 K2].
  set (c3 := set_tick_time _ _ _ c2).
  pose proof (process_events_times c3) as T4.
  pose proof (process_events_counters c3) as K4.
  pose proof (dispatch_counters
                (stable_sort entry_leb (frame_callbacks (process_events c3)))
                (process_events c3) u2) as K5.
  destruct (dispatch U run _ (process_events c3) u2) as [[c5 u5] t] eqn:E.
  apply dispatch_arguments in E as [T5 _]. simpl in K5.
  unfold clk_times, clk_counters, get_time, frametime, get_boottime in *.
  subst c3. simpl in *.
  injection T2 as Hdt2 Hlt2. injection K2 as Hst2 Hfr2.
  injection T4 as Hdt4 Hlt4. injection K4 as Hst4 Hfr4.
  injection T5 as Hdt5 Hlt5. injection K5 as Hst5 Hfr5.
  rewrite Hdt5, Hlt5, Hst5, Hfr5, Hdt4, Hlt4, Hst4, Hfr4, Hlt2, Hst2, Hfr2.
  auto 10.
Qed.

(** X6.  Whatever the callbacks do, a tick leaves the clock at the time it
    read: [get_time()] is that time, the value returned and [frametime] are
    the time since the previous tick, one frame is counted, and the start
    time, hence the origin of [get_boottime()], is unchanged. *)
Theorem tick_time_bookkeeping now ready current c u :
  let '(c', _, o) := ClockBase_tick U run run_io now ready current c u in
  get_time c' = current /\
  frametime c' = current - get_time c /\
  to_result o = current - get_time c /\
  clk_frames c' = (clk_frames c + 1)%Z /\
  clk_start_tick c' = clk_start_tick c /\
  get_boottime c' = current - clk_start_tick c.
Proof. apply tick_scalars. Qed.

End Bookkeeping.

(** ** Sockets *)

(** X8.  With a socket registered, [_sleep_until_next_event] waits in
    [select] on exactly the registered sockets, and the timeout it passes is
    always positive: the time to the next event when there is one ahead,
    0.00001 s when nothing is scheduled or the next event is already due, so
    that [select] never blocks for good. *)
Theorem select_timeout_is_positive now c :
  read_sockets c <> ∅ ->
  exists socks timeout,
    snd (sleep_until_next_event now c) = Select socks timeout /\
    0 < timeout /\
    (forall s, s ∈ socks <-> is_Some (read_sockets c !! s)) /\
    (if Qltb 0 (snd (get_sleep_time now c))
     then timeout = snd (get_sleep_time now c)
     else timeout = 1 # 100000).
Proof.
  intros Hne. unfold sleep_until_next_event.
  assert (Hrs : read_sockets (fst (get_sleep_time now c)) = read_sockets c).
  { unfold get_sleep_time, get_next_event_time.
    destruct (ordered_events c); reflexivity. }
  destruct (get_sleep_time now c) as [c1 st]. simpl in Hrs. cbn [snd].
  rewrite Hrs, bool_decide_eq_false_2 by exact Hne. cbn [negb snd].
  eexists _, _. split; [reflexivity |].
  destruct (Qle_bool st 0) eqn:Hle.
  - assert (Hlt : Qltb 0 st = false) by (unfold Qltb; rewrite Hle; reflexivity).
    rewrite Hlt. split; [reflexivity |]. split; [| reflexivity].
    intros s. rewrite list_elem_of_fmap. split.
    + intros ([s' cb] & -> & Hin). apply elem_of_map_to_list in Hin. eauto.
    + intros [cb Hcb]. exists (s, cb). split; [reflexivity |].
      apply elem_of_map_to_list. exact Hcb.
  - assert (Hlt : Qltb 0 st = true) by (unfold Qltb; rewrite Hle; reflexivity).
    rewrite Hlt. split; [apply Qltb_lt; exact Hlt |]. split; [| reflexivity].
    intros s. rewrite list_elem_of_fmap. split.
    + intros ([s' cb] & -> & Hin). apply elem_of_map_to_list in Hin. eauto.
    + intros [cb Hcb]. exists (s, cb). split; [reflexivity |].
      apply elem_of_map_to_list. exact Hcb.
Qed.

Lemma select_timeout_is_positive_witness :
  exists socks timeout,
    snd (sleep_until_next_event 1 clock_one_socket) = Select socks timeout /\
    0 < timeout /\
    (forall s, s ∈ socks <-> is_Some (read_sockets clock_one_socket !! s)) /\
    (if Qltb 0 (snd (get_sleep_time 1 clock_one_socket))
     then timeout = snd (get_sleep_time 1 clock_one_socket)
     else timeout = 1 # 100000).
Proof.
  apply (select_timeout_is_positive 1 clock_one_socket).
  apply insert_non_empty.
Defined.

Lemma set_read_sockets_same c : set_read_sockets (read_sockets c) c = c.
Proof. destruct c; reflexivity. Qed.

(** X9.  A socket has one read callback: registering it again replaces the
    callback and leaves the other sockets alone.  Unregistering a socket
    that is not registered fails (KeyError), and unregistering one that was
    just registered gives back the clock as it was. *)
Theorem socket_registration c s cb :
  read_sockets (schedule_socket_read_callback s cb c) !! s = Some cb /\
  (forall s', s' <> s ->
     read_sockets (schedule_socket_read_callback s cb c) !! s' =
     read_sockets c !! s') /\
  (forall cb', schedule_socket_read_callback s cb'
                 (schedule_socket_read_callback s cb c) =
               schedule_socket_read_callback s cb' c) /\
  (read_sockets c !! s = None ->
     unschedule_socket_read_callback s c = None /\
     unschedule_socket_read_callback s (schedule_socket_read_callback s cb c)
       = Some c) /\
  (forall c', unschedule_socket_read_callback s c = Some c' ->
     read_sockets c' !! s = None /\
     forall s', s' <> s -> read_sockets c' !! s' = read_sockets c !! s').
Proof.
  unfold schedule_socket_read_callback, unschedule_socket_read_callback.
  split; [simpl; apply lookup_insert_eq |].
  split; [intros s' Hne; simpl; apply lookup_insert_ne; congruence |].
  split.
  { intros cb'. destruct c; simpl. unfold set_read_sockets; simpl.
    rewrite insert_insert_eq. reflexivity. }
  split.
  - intros Hnone. rewrite Hnone. split; [reflexivity |]. simpl.
    rewrite lookup_insert_eq. f_equal. destruct c; simpl in *.
    unfold set_read_sockets; simpl. rewrite delete_insert_id by exact Hnone.
    reflexivity.
  - intros c'. destruct (read_sockets c !! s); [| discriminate].
    intros [= <-]. simpl. split; [apply lookup_delete_eq |].
    intros s' Hne. apply lookup_delete_ne. congruence.
Qed.

(** ** Scheduling and the list of scheduled events *)

(** X10.  In a clock in good order, scheduling a callback and cancelling the
    event straight away leaves the list of scheduled events and every
    earlier event as they were; the new object stays in the store, with its
    cancellation recorded and [_is_triggered] clear.  The same holds for a
    repeating event. *)
Theorem schedule_then_cancel c cb t p :
  clock_wf c ->
  (let '(c1, r) := schedule_once cb t p c in
   r = length (clk_store c) /\ r ∈ ordered_events c1 /\
   ordered_events (cancel r c1) = ordered_events c /\
   frame_callbacks (cancel r c1) = frame_callbacks c /\
   (forall r' e, clk_store c !! r' = Some e ->
                 clk_store (cancel r c1) !! r' = Some e) /\
   cancelled_untriggered (cancel r c1) r) /\
  (let '(c1, r) := schedule_interval cb t p c in
   r = length (clk_store c) /\ r ∈ ordered_events c1 /\
   ordered_events (cancel r c1) = ordered_events c /\
   frame_callbacks (cancel r c1) = frame_callbacks c /\
   (forall r' e, clk_store c !! r' = Some e ->
                 clk_store (cancel r c1) !! r' = Some e) /\
   cancelled_untriggered (cancel r c1) r).
Proof.
  intros Hwf.
  assert (H : forall loop msg,
    let r := length (clk_store c) in
    let c1 := set_ordered_events (ordered_events c ++ [r])
                (alloc_event (new_event c loop cb t p) msg c) in
    r = length (clk_store c) /\ r ∈ ordered_events c1 /\
    ordered_events (cancel r c1) = ordered_events c /\
    frame_callbacks (cancel r c1) = frame_callbacks c /\
    (forall r' e, clk_store c !! r' = Some e ->
                  clk_store (cancel r c1) !! r' = Some e) /\
    cancelled_untriggered (cancel r c1) r).
  { intros loop msg r c1.
    assert (Hwf1 : clock_wf c1) by (apply clock_wf_schedule; exact Hwf).
    assert (Hnin : r ∉ ordered_events c).
    { destruct Hwf as (_ & _ & _ & Hoe). rewrite Hoe.
      intros (e & He & _). apply lookup_lt_Some in He. subst r. lia. }
    assert (Hr : clk_store c1 !! r = Some (new_event c loop cb t p))
      by (subst c1 r; simpl; apply list_lookup_middle; reflexivity).
    split; [reflexivity |].
    split; [subst c1; simpl; apply elem_of_app; right; left |].
    split.
    - rewrite (cancel_ordered_events r c1 Hwf1). subst c1. simpl.
      rewrite List.filter_app. simpl. rewrite Nat.eqb_refl. simpl.
      rewrite app_nil_r. apply filter_remove_absent. exact Hnin.
    - split; [rewrite cancel_frame_callbacks; reflexivity |]. split.
      + intros r' e He. rewrite cancel_other.
        * subst c1. simpl. apply lookup_app_l_Some. exact He.
        * apply lookup_lt_Some in He. subst r. lia.
      + apply cancelled_outside_untriggered.
        * apply clock_wf_cancel. exact Hwf1.
        * eapply cancel_cancelled_in. exact Hr.
        * rewrite (cancel_ordered_events r c1 Hwf1). subst c1. simpl.
          rewrite List.filter_app. simpl. rewrite Nat.eqb_refl. simpl.
          rewrite app_nil_r, filter_remove_absent by exact Hnin.
          exact Hnin. }
  split; [apply (H false) | apply (H true)].
Qed.

Lemma schedule_then_cancel_witness :
  (let '(c1, r) := schedule_once cb_stop 2 3 clock_two_once in
   r = length (clk_store clock_two_once) /\ r ∈ ordered_events c1 /\
   ordered_events (cancel r c1) = ordered_events clock_two_once /\
   frame_callbacks (cancel r c1) = frame_callbacks clock_two_once /\
   (forall r' e, clk_store clock_two_once !! r' = Some e ->
                 clk_store (cancel r c1) !! r' = Some e) /\
   cancelled_untriggered (cancel r c1) r) /\
  (let '(c1, r) := schedule_interval cb_stop 2 3 clock_two_once in
   r = length (clk_store clock_two_once) /\ r ∈ ordered_events c1 /\
   ordered_events (cancel r c1) = ordered_events clock_two_once /\
   frame_callbacks (cancel r c1) = frame_callbacks clock_two_once /\
   (forall r' e, clk_store clock_two_once !! r' = Some e ->
                 clk_store (cancel r c1) !! r' = Some e) /\
   cancelled_untriggered (cancel r c1) r).
Proof.
  apply (schedule_then_cancel clock_two_once cb_stop 2 3).
  apply clock_two_once_wf.
Defined.

Lemma stable_sort_of_sorted {A : Type} (leb : A -> A -> bool) (l : list A) :
  StronglySorted (fun x y => leb x y = true) l -> stable_sort leb l = l.
Proof.
  induction 1 as [| x l Hs IH Hall]; simpl; [reflexivity |].
  rewrite IH. destruct l as [| y l]; simpl; [reflexivity |].
  apply Forall_cons in Hall as [Hxy _]. rewrite Hxy. reflexivity.
Qed.

Lemma set_ordered_events_same c : set_ordered_events (ordered_events c) c = c.
Proof. destruct c; reflexivity. Qed.

Lemma sort_ordered_events_sorted c :
  StronglySorted (fun x y => next_event_time c x <= next_event_time c y)
    (ordered_events (sort_ordered_events c)).
Proof.
  simpl.
  apply (stable_sort_sorted
           (fun x y => Qle_bool (next_event_time c x) (next_event_time c y))).
  - intros x y Hxy. apply Qle_bool_iff. exact Hxy.
  - intros x y Hxy. apply Qlt_le_weak, Qle_bool_false. exact Hxy.
  - intros x y z. apply Qle_trans.
Qed.

Lemma sort_ordered_events_idem c :
  sort_ordered_events (sort_ordered_events c) = sort_ordered_events c.
Proof.
  unfold sort_ordered_events at 1.
  change (next_event_time (sort_ordered_events c))
    with (next_event_time c).
  rewrite stable_sort_of_sorted; [apply set_ordered_events_same |].
  eapply StronglySorted_impl_in; [| apply sort_ordered_events_sorted].
  intros x y _ _ Hxy. apply Qle_bool_iff. exact Hxy.
Qed.

(** X11.  [get_next_event_time] is a query with one side effect: it leaves
    [ordered_events] sorted by next fire time, holding the same events.  The
    event objects and the queue of the frame are untouched, and asking again
    gives the same answer and changes nothing more. *)
Theorem get_next_event_time_sorts_only c :
  let c1 := fst (get_next_event_time c) in
  clk_store c1 = clk_store c /\
  frame_callbacks c1 = frame_callbacks c /\
  Permutation (ordered_events c) (ordered_events c1) /\
  StronglySorted (fun x y => next_event_time c x <= next_event_time c y)
    (ordered_events c1) /\
  get_next_event_time c1 = (c1, snd (get_next_event_time c)).
Proof.
  unfold get_next_event_time.
  destruct (ordered_events c) as [| r0 l] eqn:Hoe; cbn [fst snd].
  - rewrite Hoe. split; [reflexivity |]. split; [reflexivity |].
    split; [reflexivity |]. split; [constructor | reflexivity].
  - rewrite <- Hoe.
    split; [reflexivity |]. split; [reflexivity |].
    split; [simpl; symmetry; apply stable_sort_perm |].
    split; [apply sort_ordered_events_sorted |].
    destruct (ordered_events (sort_ordered_events c)) as [| r1 l1] eqn:Hs.
    + exfalso. pose proof (stable_sort_perm
        (fun x y => Qle_bool (next_event_time c x) (next_event_time c y))
        (ordered_events c)) as Hp.
      simpl in Hs. rewrite Hs, Hoe in Hp.
      apply Permutation_nil in Hp. discriminate.
    + rewrite sort_ordered_events_idem, Hs. reflexivity.
Qed.

(** ** Callbacks that raise *)

Lemma entry_callback_gone c c' ent :
  store_keeps c c' -> (exists e, clk_store c !! fe_event ent = Some e) ->
  entry_callback ent c = None -> entry_callback ent c' = None.
Proof.
  intros K [e He] Hn. unfold entry_callback in *. rewrite He in Hn.
  destruct (K _ _ He) as (e' & He' & _ & _ & _ & _ & Hc & _ & Hg).
  rewrite He'. destruct (ev_callback_cancelled e) eqn:Hce.
  - rewrite (Hc eq_refl). reflexivity.
  - destruct (ev_callback_cancelled e'); [reflexivity | exact (Hg Hn)].
Qed.

Lemma lookup_keeps c c' r :
  store_keeps c c' -> (exists e, clk_store c !! r = Some e) ->
  exists e', clk_store c' !! r = Some e'.
Proof.
  intros K [e He]. destruct (K _ _ He) as (e' & He' & _). exists e'. exact He'.
Qed.

Section RaisingFacts.
Variable U : Type.
Variable run : cbid -> Q -> U -> Clock -> list Action * PyVal * U.
Variable run_io : cbid -> U -> Clock -> list Action * U.
Variable raises : cbid -> Q -> U -> Clock -> bool.
Variable raises_io : cbid -> U -> Clock -> bool.

Lemma dispatch_entry_calls ent c u :
  map inv_entry (snd (dispatch_entry U run ent c u)) =
  match entry_callback ent c with Some _ => [ent] | None => [] end.
Proof.
  unfold dispatch_entry, entry_callback.
  destruct (clk_store c !! fe_event ent) as [e |]; [| reflexivity].
  destruct (ev_callback_cancelled e); [reflexivity |].
  destruct (get_callback e) as [cb |]; [| reflexivity].
  destruct (run cb (frametime c) u c) as [[acts ret] u1]. reflexivity.
Qed.

Lemma dispatch_entry_frame_callbacks ent c u :
  frame_callbacks (fst (fst (dispatch_entry U run ent c u))) = frame_callbacks c.
Proof.
  unfold dispatch_entry.
  destruct (clk_store c !! fe_event ent) as [e |]; [| reflexivity].
  destruct (ev_callback_cancelled e); [reflexivity |].
  destruct (get_callback e) as [cb |].
  - destruct (run cb (frametime c) u c) as [[acts ret] u1]. simpl.
    destruct (ev_loop e && is_False ret);
      rewrite ?cancel_frame_callbacks; apply actions_frame_callbacks.
  - simpl. destruct (ev_loop e); rewrite ?cancel_frame_callbacks; reflexivity.
Qed.

Lemma clock_wf_dispatch_entry ent c u :
  clock_wf c -> clock_wf (fst (fst (dispatch_entry U run ent c u))).
Proof.
  intros W. unfold dispatch_entry.
  destruct (clk_store c !! fe_event ent) as [e |]; [| exact W].
  destruct (ev_callback_cancelled e); [exact W |].
  destruct (get_callback e) as [cb |].
  - destruct (run cb (frametime c) u c) as [[acts ret] u1]. simpl.
    destruct (ev_loop e && is_False ret);
      [apply clock_wf_cancel |]; apply clock_wf_actions; exact W.
  - simpl. destruct (ev_loop e); [apply clock_wf_cancel |]; exact W.
Qed.

(** One tuple of the queue: what the state keeps, and which call is made. *)
Lemma dispatch_entry_exn_facts ent c u c' u' t x :
  dispatch_entry_exn U run raises ent c u = (c', u', t, x) ->
  store_keeps c c' /\ (clock_wf c -> clock_wf c') /\
  frame_callbacks c' = frame_callbacks c /\
  map inv_entry t =
    (if x then []
     else match entry_callback ent c with Some _ => [ent] | None => [] end) /\
  (x = true -> entry_callback ent c <> None).
Proof.
  unfold dispatch_entry_exn.
  assert (Hret : forall c1 u1 t1,
    dispatch_entry U run ent c u = (c1, u1, t1) ->
    store_keeps c c1 /\ (clock_wf c -> clock_wf c1) /\
    frame_callbacks c1 = frame_callbacks c /\
    map inv_entry t1 =
      match entry_callback ent c with Some _ => [ent] | None => [] end).
  { intros c1 u1 t1 E.
    pose proof (dispatch_entry_calls ent c u) as Hc.
    pose proof (dispatch_entry_frame_callbacks ent c u) as Hf.
    pose proof (clock_wf_dispatch_entry ent c u) as Hw.
    rewrite E in Hc, Hf, Hw. simpl in *.
    apply dispatch_entry_facts in E as (K & _).
    split; [exact K |]. split; [exact Hw |]. split; [exact Hf | exact Hc]. }
  destruct (entry_callback ent c) as [cb |] eqn:Hcb.
  - destruct (raises cb (frametime c) u c).
    + destruct (run cb (frametime c) u c) as [[acts ret] u1].
      intros [= <- <- <- <-].
      split; [apply store_keeps_actions |].
      split; [apply clock_wf_actions |].
      split; [apply actions_frame_callbacks |].
      split; [reflexivity | discriminate].
    + destruct (dispatch_entry U run ent c u) as [[c1 u1] t1] eqn:E.
      intros [= <- <- <- <-].
      destruct (Hret _ _ _ eq_refl) as (K & W & F & T).
      repeat (split; [assumption |]). discriminate.
  - destruct (dispatch_entry U run ent c u) as [[c1 u1] t1] eqn:E.
    intros [= <- <- <- <-].
    destruct (Hret _ _ _ eq_refl) as (K & W & F & T).
    repeat (split; [assumption |]). discriminate.
Qed.

(** The loop over the sorted queue: the calls made, with the call that
    raised at their end, follow the queue; and when no call raises, every
    tuple is called unless its event is cancelled or its callback gone. *)
Lemma dispatch_exn_facts q c u c' u' t x :
  dispatch_exn U run raises q c u = (c', u', t, x) ->
  store_keeps c c' /\ (clock_wf c -> clock_wf c') /\
  frame_callbacks c' = frame_callbacks c /\
  sublist (map inv_entry t ++ option_list x) q /\
  (x = None -> forall ent, ent ∈ q ->
     (exists e, clk_store c !! fe_event ent = Some e) ->
     ent ∈ map inv_entry t \/ entry_callback ent c' = None).
Proof.
  revert c u c' u' t x. induction q as [| ent q IH]; intros c u c' u' t x; simpl.
  - intros [= <- <- <- <-]. split; [apply store_keeps_refl |].
    split; [exact (fun W => W) |]. split; [reflexivity |].
    split; [constructor |]. intros _ ent Hin. inversion Hin.
  - destruct (dispatch_entry_exn U run raises ent c u)
      as [[[c1 u1] t1] r1] eqn:E1.
    apply dispatch_entry_exn_facts in E1 as (K1 & W1 & F1 & T1 & X1).
    destruct r1.
    + intros [= <- <- <- <-]. split; [exact K1 |]. split; [exact W1 |].
      split; [exact F1 |]. split; [| discriminate].
      rewrite T1. simpl. apply sublist_skip, sublist_nil_l.
    + destruct (dispatch_exn U run raises q c1 u1)
        as [[[c2 u2] t2] x2] eqn:E2.
      intros [= <- <- <- <-].
      apply IH in E2 as (K2 & W2 & F2 & S2 & C2).
      split; [eapply store_keeps_trans; eassumption |].
      split; [exact (fun W => W2 (W1 W)) |].
      split; [congruence |]. split.
      * rewrite map_app, T1, <- app_assoc.
        destruct (entry_callback ent c); simpl.
        -- apply sublist_skip. exact S2.
        -- apply sublist_cons. exact S2.
      * intros -> ent' Hin Hex. rewrite map_app, T1.
        apply elem_of_cons in Hin as [-> | Hin].
        -- destruct (entry_callback ent c) eqn:Hcb.
           ++ left. apply list_elem_of_here.
           ++ right. eapply entry_callback_gone; [exact K2 | | ].
              ** eapply lookup_keeps; eassumption.
              ** eapply entry_callback_gone; eassumption.
        -- destruct (C2 eq_refl ent' Hin) as [Hl | Hr].
           ++ eapply lookup_keeps; eassumption.
           ++ left. apply elem_of_app. right. exact Hl.
           ++ right. exact Hr.
Qed.

Lemma socket_callbacks_exn_facts ready c u :
  let c' := fst (fst (socket_callbacks_exn U run_io raises_io ready c u)) in
  store_keeps c c' /\ (clock_wf c -> clock_wf c') /\
  frame_callbacks c' = frame_callbacks c.
Proof.
  revert c u. induction ready as [| s ready IH]; intros c u; simpl.
  - split; [apply store_keeps_refl |]. split; [exact (fun W => W) | reflexivity].
  - destruct (read_sockets c !! s) as [cb |]; [| apply IH].
    destruct (run_io cb u c) as [acts u1].
    destruct (raises_io cb u c); simpl.
    + split; [apply store_keeps_actions |].
      split; [apply clock_wf_actions | apply actions_frame_callbacks].
    + destruct (IH (apply_actions acts c) u1) as (K & W & F).
      split; [eapply store_keeps_trans; [apply store_keeps_actions | exact K] |].
      split; [intros W0; apply W, clock_wf_actions, W0 |].
      rewrite F. apply actions_frame_callbacks.
Qed.

Lemma wait_phase_exn_facts now ready c u :
  let c' := fst (fst (fst (wait_phase_exn U run_io raises_io now ready c u))) in
  store_keeps c c' /\ (clock_wf c -> clock_wf c') /\
  frame_callbacks c' = frame_callbacks c.
Proof.
  unfold wait_phase_exn.
  pose proof (sleep_until_next_event_store now c) as Hs.
  pose proof (sleep_until_next_event_frame_callbacks now c) as Hf.
  pose proof (clock_wf_sleep now c) as Hw.
  destruct (sleep_until_next_event now c) as [c1 w]; simpl in Hs, Hf, Hw.
  assert (K1 : store_keeps c c1) by (apply store_keeps_same_store; exact Hs).
  destruct w as [| m | socks tmo]; simpl; try (split; [exact K1 |]; split; assumption).
  pose proof (socket_callbacks_exn_facts ready c1 u) as H.
  destruct (socket_callbacks_exn U run_io raises_io ready c1 u) as [[c2 u2] x].
  simpl in *. destruct H as (K & W & F).
  split; [eapply store_keeps_trans; eassumption |].
  split; [exact (fun W0 => W (Hw W0)) | congruence].
Qed.

Lemma time_advance_facts current c :
  clk_store (time_advance current c) = clk_store c /\
  ordered_events (time_advance current c) = ordered_events c /\
  frame_callbacks (time_advance current c) = frame_callbacks c /\
  clk_last_tick (time_advance current c) = current /\
  (clock_wf c -> clock_wf (time_advance current c)).
Proof.
  repeat (split; [reflexivity |]).
  intros W. eapply clock_wf_same; [| | | exact W]; reflexivity.
Qed.

Lemma entry_of_event_same_store c c' :
  clk_store c' = clk_store c ->
  forall ent, entry_of_event c ent -> entry_of_event c' ent.
Proof. intros Hs ent. unfold entry_of_event. rewrite Hs. exact (fun H => H). Qed.

(** What a tick keeps, however it ends. *)
Lemma tick_exn_facts now ready current c u c' u' t fin :
  ClockBase_tick_exn U run run_io raises raises_io now ready current c u =
    (c', u', t, fin) ->
  store_keeps c c' /\ (clock_wf c -> clock_wf c') /\
  (Forall (entry_of_event c) (frame_callbacks c) ->
   Forall (entry_of_event c') (frame_callbacks c')) /\
  (has_returned fin = true -> frame_callbacks c' = []).
Proof.
  unfold ClockBase_tick_exn.
  pose proof (wait_phase_exn_facts now ready c u) as H2.
  destruct (wait_phase_exn U run_io raises_io now ready c u)
    as [[[c2 u2] w] x]. simpl in H2. destruct H2 as (K2 & W2 & F2).
  assert (Q2 : Forall (entry_of_event c) (frame_callbacks c) ->
               Forall (entry_of_event c2) (frame_callbacks c2)).
  { intros Hq. rewrite F2. eapply Forall_impl; [exact Hq |].
    intros ent. apply entry_of_event_keeps. exact K2. }
  destruct x.
  { intros [= <- <- <- <-]. split; [exact K2 |]. split; [exact W2 |].
    split; [exact Q2 | discriminate]. }
  set (c3 := time_advance current c2).
  destruct (time_advance_facts current c2) as (S3 & _ & F3 & _ & W3).
  fold c3 in S3, F3, W3.
  unfold process_event_callbacks_exn.
  destruct (dispatch_exn U run raises _ (process_events c3) u2)
    as [[[c5 u5] t5] x5] eqn:E5.
  apply dispatch_exn_facts in E5 as (K5 & W5 & F5 & _ & _).
  intros [= <- <- <- <-].
  assert (K : store_keeps c c5).
  { eapply store_keeps_trans; [exact K2 |].
    eapply store_keeps_trans; [apply store_keeps_same_store; exact S3 |].
    eapply store_keeps_trans; [apply store_keeps_process_events | exact K5]. }
  assert (W : clock_wf c -> clock_wf c5).
  { intros W0. apply W5, clock_wf_process_events, W3, W2, W0. }
  assert (Q5 : Forall (entry_of_event c) (frame_callbacks c) ->
               Forall (entry_of_event c5) (frame_callbacks c5)).
  { intros Hq. rewrite F5.
    eapply Forall_impl; [apply process_events_queue |].
    - rewrite F3. eapply Forall_impl; [exact (Q2 Hq) |].
      apply entry_of_event_same_store. exact S3.
    - intros ent. apply entry_of_event_keeps. exact K5. }
  destruct x5 as [ent |].
  - split; [exact K |]. split; [exact W |]. split; [exact Q5 | discriminate].
  - split; [eapply store_keeps_trans;
             [exact K | apply store_keeps_same_store; reflexivity] |].
    split; [intros W0; eapply clock_wf_same; [| | | exact (W W0)]; reflexivity |].
    split; [intros _; constructor | reflexivity].
Qed.

(** The states a clock can reach, ticks that raise included. *)
Lemma steps_exn_facts l : forall c u c' u' t ends,
  steps_exn U run run_io raises raises_io l c u = (c', u', t, ends) ->
  store_keeps c c' /\ (clock_wf c -> clock_wf c') /\
  (Forall (entry_of_event c) (frame_callbacks c) ->
   Forall (entry_of_event c') (frame_callbacks c')) /\
  (match ends with [] => frame_callbacks c = [] | _ => last_tick_returned ends = true end ->
   frame_callbacks c' = []).
Proof.
  induction l as [| s l IH]; intros c u c' u' t ends; simpl.
  - intros [= <- <- <- <-]. split; [apply store_keeps_refl |].
    split; [exact (fun W => W) |]. split; exact (fun H => H).
  - destruct (step_exn U run run_io raises raises_io s c u)
      as [[[c1 u1] t1] f1] eqn:E1.
    destruct (steps_exn U run run_io raises raises_io l c1 u1)
      as [[[c2 u2] t2] f2] eqn:E2.
    intros [= <- <- <- <-]. apply IH in E2 as (K2 & W2 & Q2 & N2).
    destruct s as [now ready current | a]; simpl in E1.
    + destruct (ClockBase_tick_exn U run run_io raises raises_io
                  now ready current c u) as [[[c0 u0] t0] fin] eqn:E.
      injection E1 as <- <- <- <-.
      apply tick_exn_facts in E as (K1 & W1 & Q1 & N1).
      split; [eapply store_keeps_trans; eassumption |].
      split; [exact (fun W => W2 (W1 W)) |].
      split; [exact (fun H => Q2 (Q1 H)) |].
      simpl. intros H. apply N2. destruct f2 as [| f f2]; [| exact H].
      apply N1. exact H.
    + injection E1 as <- <- <- <-.
      split; [eapply store_keeps_trans; [apply store_keeps_action | exact K2] |].
      split; [intros W; apply W2, clock_wf_action, W |].
      split.
      * intros H. apply Q2. rewrite action_frame_callbacks.
        eapply Forall_impl; [exact H |]. intros ent.
        apply entry_of_event_keeps, store_keeps_action.
      * simpl. intros H. apply N2. destruct f2; [| exact H].
        rewrite action_frame_callbacks. exact H.
Qed.
End RaisingFacts.

(** ** The tuples that [_process_events] queues *)





Section OrderTheorem.
Variable U : Type.
Variable run : cbid -> Q -> U -> Clock -> list Action * PyVal * U.
Variable run_io : cbid -> U -> Clock -> list Action * U.
Variable raises : cbid -> Q -> U -> Clock -> bool.
Variable raises_io : cbid -> U -> Clock -> bool.

End OrderTheorem.

Section NoRaise.
Variable U : Type.
Variable run : cbid -> Q -> U -> Clock -> list Action * PyVal * U.
Variable run_io : cbid -> U -> Clock -> list Action * U.

Lemma dispatch_exn_no_raise q c u :
  dispatch_exn U run (fun _ _ _ _ => false) q c u =
  (dispatch U run q c u, None).
Proof.
  revert c u. induction q as [| ent q IH]; intros c u; simpl; [reflexivity |].
  assert (H1 : dispatch_entry_exn U run (fun _ _ _ _ => false) ent c u =
               (dispatch_entry U run ent c u, false)).
  { unfold dispatch_entry_exn.
    destruct (entry_callback ent c);
      destruct (dispatch_entry U run ent c u) as [[c1 u1] t1]; reflexivity. }
  rewrite H1. destruct (dispatch_entry U run ent c u) as [[c1 u1] t1].
  rewrite IH. destruct (dispatch U run q c1 u1) as [[c2 u2] t2]. reflexivity.
Qed.

Lemma socket_callbacks_exn_no_raise ready c u :
  socket_callbacks_exn U run_io (fun _ _ _ => false) ready c u =
  (socket_callbacks U run_io ready c u, false).
Proof.
  revert c u. induction ready as [| s ready IH]; intros c u; simpl;
    [reflexivity |].
  destruct (read_sockets c !! s) as [cb |]; [| apply IH].
  destruct (run_io cb u c) as [acts u1]. apply IH.
Qed.

(** When no callback raises, the tick is [ClockBase_tick]. *)
Lemma tick_exn_no_raise now ready current c u :
  ClockBase_tick_exn U run run_io (fun _ _ _ _ => false) (fun _ _ _ => false)
    now ready current c u =
  let '(c', u', o) := ClockBase_tick U run run_io now ready current c u in
  (c', u', to_calls o, Returned (to_result o)).
Proof.
  unfold ClockBase_tick_exn, ClockBase_tick, wait_phase_exn, before_callbacks,
    process_event_callbacks_exn, process_event_callbacks, time_advance.
  destruct (sleep_until_next_event now c) as [c1 w].
  destruct w as [| m | socks tmo].
  - rewrite dispatch_exn_no_raise.
    destruct (dispatch U run _ _ u) as [[c5 u5] t]. reflexivity.
  - rewrite dispatch_exn_no_raise.
    destruct (dispatch U run _ _ u) as [[c5 u5] t]. reflexivity.
  - rewrite socket_callbacks_exn_no_raise.
    destruct (socket_callbacks U run_io ready c1 u) as [c2 u2].
    rewrite dispatch_exn_no_raise.
    destruct (dispatch U run _ _ u2) as [[c5 u5] t]. reflexivity.
Qed.
End NoRaise.

Section Invariant.
Variable U : Type.
Variable run : cbid -> Q -> U -> Clock -> list Action * PyVal * U.
Variable run_io : cbid -> U -> Clock -> list Action * U.
Variable raises : cbid -> Q -> U -> Clock -> bool.
Variable raises_io : cbid -> U -> Clock -> bool.

Lemma reachable_exn max_fps now n0 l u c u' t ends :
  steps_exn U run run_io raises raises_io l (ClockBase_init max_fps now n0) u =
    (c, u', t, ends) ->
  clock_wf c /\ Forall (entry_of_event c) (frame_callbacks c) /\
  (last_tick_returned ends = true -> frame_callbacks c = []).
Proof.
  intros E. apply steps_exn_facts in E as (_ & W & Q & N).
  split; [apply W, clock_wf_init |]. split; [apply Q; constructor |].
  intros H. apply N. destruct ends; [reflexivity | exact H].
Qed.

(** X12.  From [__init__] on, with the shared counter at any value, through
    any ticks, ticks left by an exception of a callback included, and any
    calls made by the application, by callbacks or by other clocks, the
    clock stays in good order: ids are below the counter and all different;
    [ordered_events] holds exactly the events whose [_is_triggered] is set,
    each of them once; every tuple of the queue of the frame carries the
    negated priority and the id of its event; and the queue of the frame is
    empty whenever the last tick returned. *)
Theorem scheduled_events_invariant max_fps now n0 l u :
  let '(c, _, _, ends) :=
    steps_exn U run run_io raises raises_io l
      (ClockBase_init max_fps now n0) u in
  clock_wf c /\
  (forall r1 r2 e1 e2, clk_store c !! r1 = Some e1 ->
     clk_store c !! r2 = Some e2 -> ev_id e1 = ev_id e2 -> r1 = r2) /\
  Forall (entry_of_event c) (frame_callbacks c) /\
  (last_tick_returned ends = true -> frame_callbacks c = []).
Proof.
  destruct (steps_exn U run run_io raises raises_io l
              (ClockBase_init max_fps now n0) u) as [[[c u'] t] ends] eqn:E.
  apply reachable_exn in E as (W & Q & N).
  split; [exact W |]. split; [| split; assumption].
  intros r1 r2 e1 e2. apply clock_wf_ids. exact W.
Qed.

End Invariant.

(** A tick that an exception leaves keeps its queue: the next tick calls
    the callbacks of these tuples again, also that of a one-shot event
    that was called before the exception. *)
Example aborted_tick_keeps_queue :
  let '(c1, t1, ends1) := example_steps_exn [StepTick 0 [] 1] clock_boom in
  map inv_cb t1 = [cb_plain] /\
  map has_returned ends1 = [false] /\
  map fe_event (frame_callbacks c1) = [0%nat; 1%nat] /\
  ordered_events c1 = [] /\
  let '(c2, t2, ends2) := example_steps_exn [StepTick 1 [] 2] c1 in
  map inv_cb t2 = [cb_plain; cb_boom] /\
  map has_returned ends2 = [true] /\
  frame_callbacks c2 = [].
Proof. vm_compute. repeat split; reflexivity. Qed.

(** The two one-shot callbacks of [clock_two_once] at the next tick: the
    one with the higher priority first, and the tick returns. *)
Example two_once_order_returns :
  let '(c1, t1, ends1) := example_steps_exn [StepTick 0 [] 1] clock_two_once in
  map inv_cb t1 = [1%nat; cb_plain] /\
  map has_returned ends1 = [true] /\
  frame_callbacks c1 = [].
Proof. vm_compute. repeat split; reflexivity. Qed.

(** ** More on the timers of the time-travel loop *)

Lemma pyset_mem_witness x s :
  pyset_mem x s = true -> exists y, y ∈ s /\ x == y.
Proof.
  induction s as [| z s IH]; simpl; [discriminate |].
  destruct (Qeq_bool x z) eqn:E; simpl.
  - intros _. exists z. split; [left | apply Qeq_bool_iff; exact E].
  - intros Hm. destruct (IH Hm) as (y & Hy & Hxy). exists y.
    split; [right; exact Hy | exact Hxy].
Qed.

Section MoreTimers.
Context `{Heapq}.

(** X13.  With no deadline added in between, two successive calls of
    [pop_closest] return strictly increasing deadlines: no value comes out
    twice and none comes out before a smaller one. *)
Theorem pop_closest_ascending t m1 t1 m2 t2 :
  nt_reachable t ->
  NextTimers_pop_closest t = inr (m1, t1) ->
  NextTimers_pop_closest t1 = inr (m2, t2) ->
  m1 < m2.
Proof.
  intros Hr H1 H2.
  pose proof (pop_closest_spec t (nt_reachable_inv t Hr)) as S1.
  rewrite H1 in S1. destruct S1 as (_ & Hmin & Hset & Hinv1).
  pose proof (pop_closest_spec t1 Hinv1) as S2.
  rewrite H2 in S2. destruct S2 as (Hin2 & _).
  apply Hset in Hin2 as [Hin Hne]. specialize (Hmin m2 Hin).
  apply Qle_lteq in Hmin as [Hlt | Heq]; [exact Hlt | contradiction].
Qed.

(** X14.  After [call_at(when)], with nothing ready to run, [_run_once]
    takes the loop to a pending deadline that is not later than [when]:
    the loop never jumps past a deadline, and a deadline that lies before
    the present time takes the time of the loop back. *)
Theorem run_once_reaches_no_later_than when l :
  nt_reachable (loop_timers l) -> loop_ready l = [] ->
  exists l', loop_run_once (loop_call_at when l) = inr l' /\
    loop_time l' <= when /\
    loop_time l' ∈ timers_set (loop_timers (loop_call_at when l)) /\
    (when < loop_time l -> loop_time l' < loop_time l).
Proof.
  intros Hr Hready.
  assert (Hr' : nt_reachable (loop_timers (loop_call_at when l)))
    by (apply nt_reach_add; exact Hr).
  pose proof (pop_closest_spec _ (nt_reachable_inv _ Hr')) as Hs.
  assert (Hmem : pyset_mem when
                   (timers_set (loop_timers (loop_call_at when l))) = true).
  { simpl. unfold NextTimers_add, pyset_add.
    destruct (pyset_mem when (timers_set (loop_timers l))) eqn:Hm;
      [exact Hm |].
    simpl. assert (E : Qeq_bool when when = true)
      by (apply Qeq_bool_iff; reflexivity).
    rewrite E. reflexivity. }
  destruct (pyset_mem_witness _ _ Hmem) as (y & Hy & Hwy).
  unfold loop_run_once, NextTimers_is_empty in *.
  change (loop_ready (loop_call_at when l)) with (loop_ready l).
  rewrite Hready. cbn [length Nat.eqb].
  destruct (timers_set (loop_timers (loop_call_at when l)))
    as [| x0 s0] eqn:Hset; [inversion Hy |].
  cbn [length Nat.eqb negb] in *.
  destruct (NextTimers_pop_closest (loop_timers (loop_call_at when l)))
    as [[|] | [m t']]; try discriminate; try contradiction.
  destruct Hs as (Hin & Hmin & _).
  exists (mkLoop m t' []). split; [reflexivity |]. simpl.
  assert (Hle : m <= when) by (rewrite Hwy; apply Hmin; exact Hy).
  split; [exact Hle |]. split; [exact Hin |]. intros Hlt. lra.
Qed.
End MoreTimers.

Lemma pop_closest_ascending_witness : (1 # 2) < 3.
Proof.
  apply (@pop_closest_ascending sorted_heapq timers_example
           (1 # 2) (mkNextTimers [3] [3]) 3 (mkNextTimers [] [])).
  - unfold timers_example. repeat apply nt_reach_add. apply nt_reach_init.
  - reflexivity.
  - reflexivity.
Defined.

Lemma run_once_reaches_no_later_than_witness :
  exists l', loop_run_once (loop_call_at 2 (mkLoop 5 timers_example [])) = inr l' /\
    loop_time l' <= 2 /\
    loop_time l' ∈
      timers_set (loop_timers (loop_call_at 2 (mkLoop 5 timers_example []))) /\
    (2 < loop_time (mkLoop 5 timers_example []) ->
     loop_time l' < loop_time (mkLoop 5 timers_example [])).
Proof.
  apply (@run_once_reaches_no_later_than sorted_heapq 2
           (mkLoop 5 timers_example [])).
  - unfold timers_example. simpl.
    repeat apply nt_reach_add. apply nt_reach_init.
  - reflexivity.
Defined.

(** ** The other parts of the clock module *)

(** X15.  [_hash] is a number from 0 to 255: the second-lowest byte of the
    identity.  For a bound method it depends on the object alone, so that
    all methods of one object get the same value. *)
Theorem clock_hash_is_a_byte self_id cb_id :
  let i := match self_id with Some s => s | None => cb_id end in
  (0 <= clock_hash self_id cb_id < 256)%Z /\
  clock_hash self_id cb_id = ((i / 256) mod 256)%Z /\
  (forall cb_id', self_id <> None ->
     clock_hash self_id cb_id' = clock_hash self_id cb_id).
Proof.
  assert (Hb : forall i, Z.shiftr (Z.land i 65280) 8 = ((i / 256) mod 256)%Z).
  { intros i. rewrite Z.shiftr_land.
    change (Z.shiftr 65280 8) with (Z.ones 8).
    rewrite Z.land_ones by lia. rewrite Z.shiftr_div_pow2 by lia.
    reflexivity. }
  unfold clock_hash. destruct self_id as [s |]; rewrite Hb.
  - split; [apply Z.mod_pos_bound; lia |]. split; [reflexivity |].
    intros cb' _. reflexivity.
  - split; [apply Z.mod_pos_bound; lia |]. split; [reflexivity |].
    intros cb' Hne. contradiction.
Qed.

(** ** The selector, readers and writers of the time-travel loop *)

Lemma dict_get_Some {V : Type} k (v : V) d :
  dict_get k d = Some v -> (k, v) ∈ d.
Proof.
  induction d as [| [k' v'] d IH]; simpl; [discriminate |].
  destruct (Nat.eqb_spec k' k) as [-> | Hne].
  - intros [= ->]. apply list_elem_of_here.
  - intros Hg. apply list_elem_of_further. auto.
Qed.

Lemma dict_get_None {V : Type} k (d : list (nat * V)) :
  dict_get k d = None <-> k ∉ map fst d.
Proof.
  induction d as [| [k' v'] d IH]; simpl.
  - split; [intros _ Hin; inversion Hin | reflexivity].
  - rewrite not_elem_of_cons. destruct (Nat.eqb_spec k' k) as [-> | Hne].
    + split; [discriminate | intros [Hk _]; contradiction].
    + rewrite IH. split; [intros Hn; split; [congruence | exact Hn] | tauto].
Qed.

Lemma dict_get_in {V : Type} k (v : V) d :
  NoDup (map fst d) -> (k, v) ∈ d -> dict_get k d = Some v.
Proof.
  induction d as [| [k' v'] d IH]; simpl; intros Hnd Hin.
  - inversion Hin.
  - apply NoDup_cons in Hnd as [Hk Hnd].
    apply elem_of_cons in Hin as [[= -> ->] | Hin].
    + rewrite Nat.eqb_refl. reflexivity.
    + destruct (Nat.eqb_spec k' k) as [-> | Hne]; [| auto].
      exfalso. apply Hk. apply list_elem_of_fmap. exists (k, v). auto.
Qed.

Lemma dict_set_absent {V : Type} k (v : V) d :
  dict_get k d = None -> dict_set k v d = d ++ [(k, v)].
Proof.
  induction d as [| [k' v'] d IH]; simpl; [reflexivity |].
  destruct (Nat.eqb k' k); [discriminate |].
  intros Hg. rewrite IH by exact Hg. reflexivity.
Qed.

Lemma dict_del_absent {V : Type} k (d : list (nat * V)) :
  dict_get k d = None -> dict_del k d = d.
Proof.
  unfold dict_del. induction d as [| [k' v'] d IH]; simpl; [reflexivity |].
  destruct (Nat.eqb k' k); [discriminate |]. simpl.
  intros Hg. rewrite IH by exact Hg. reflexivity.
Qed.

Lemma dict_del_elem {V : Type} k (d : list (nat * V)) p :
  p ∈ dict_del k d <-> p ∈ d /\ fst p <> k.
Proof.
  unfold dict_del. rewrite list_elem_of_In, List.filter_In, <- list_elem_of_In.
  rewrite negb_true_iff, Nat.eqb_neq. reflexivity.
Qed.

Lemma dict_get_del {V : Type} k (d : list (nat * V)) :
  dict_get k (dict_del k d) = None.
Proof.
  apply dict_get_None. intros Hin.
  apply list_elem_of_fmap in Hin as (p & -> & Hp).
  apply dict_del_elem in Hp as [_ Hne]. congruence.
Qed.

Lemma dict_get_del_ne {V : Type} k k' (d : list (nat * V)) :
  k' <> k -> dict_get k' (dict_del k d) = dict_get k' d.
Proof.
  intros Hne. unfold dict_del.
  induction d as [| [k0 v0] d IH]; simpl; [reflexivity |].
  destruct (Nat.eqb_spec k0 k) as [-> | Hk]; simpl.
  - destruct (Nat.eqb_spec k k'); [congruence | exact IH].
  - rewrite IH. reflexivity.
Qed.

Lemma dict_get_app {V : Type} k (d1 d2 : list (nat * V)) :
  dict_get k (d1 ++ d2) =
    match dict_get k d1 with Some v => Some v | None => dict_get k d2 end.
Proof.
  induction d1 as [| [k' v'] d1 IH]; simpl; [reflexivity |].
  destruct (Nat.eqb k' k); [reflexivity | exact IH].
Qed.

Lemma dict_del_NoDup {V : Type} k (d : list (nat * V)) :
  NoDup (map fst d) -> NoDup (map fst (dict_del k d)).
Proof.
  unfold dict_del. induction d as [| [k' v'] d IH]; simpl; intros Hnd.
  - constructor.
  - apply NoDup_cons in Hnd as [Hk Hnd].
    destruct (Nat.eqb k' k); simpl; [auto |].
    apply NoDup_cons. split; [| auto].
    intros Hin. apply Hk.
    apply list_elem_of_fmap in Hin as (p & Hp1 & Hp2).
    apply list_elem_of_fmap. exists p. split; [exact Hp1 |].
    apply (dict_del_elem k d p). exact Hp2.
Qed.

Lemma registered_handles_app d1 d2 :
  registered_handles (d1 ++ d2) = registered_handles d1 ++ registered_handles d2.
Proof. unfold registered_handles. apply flat_map_app. Qed.

Lemma registered_handles_elem keys h :
  h ∈ registered_handles keys <->
  exists fd key, (fd, key) ∈ keys /\ h ∈ key_handles key.
Proof.
  unfold registered_handles. rewrite list_elem_of_In, in_flat_map. split.
  - intros ([fd key] & Hin & Hh). exists fd, key.
    rewrite !list_elem_of_In. auto.
  - intros (fd & key & Hin & Hh). exists (fd, key).
    rewrite <- !list_elem_of_In. auto.
Qed.

Lemma registered_del_perm k key d :
  NoDup (map fst d) -> dict_get k d = Some key ->
  Permutation (registered_handles d)
              (key_handles key ++ registered_handles (dict_del k d)).
Proof.
  induction d as [| [k' v'] d IH]; simpl; intros Hnd Hg; [discriminate |].
  apply NoDup_cons in Hnd as [Hk Hnd].
  unfold dict_del. simpl.
  destruct (Nat.eqb_spec k' k) as [-> | Hne]; simpl.
  - injection Hg as ->.
    fold (dict_del k d). rewrite dict_del_absent; [reflexivity |].
    apply dict_get_None. exact Hk.
  - fold (dict_del k d).
    change (registered_handles ((k', v') :: dict_del k d))
      with (key_handles v' ++ registered_handles (dict_del k d)).
    change (registered_handles ((k', v') :: d))
      with (key_handles v' ++ registered_handles d).
    rewrite (IH Hnd Hg). apply Permutation_app_swap_app.
Qed.

Lemma io_wf_unregister l fd hs c rdy :
  io_wf l ->
  handles_live (dict_del fd (io_keys l)) hs ->
  io_wf (mkIO c (dict_del fd (io_keys l)) hs rdy).
Proof.
  intros (Hnd & Hok & Hnh & Hl) Hlive. unfold io_wf. simpl.
  split; [apply dict_del_NoDup; exact Hnd |].
  split; [intros fd' key Hin; apply Hok;
          apply dict_del_elem in Hin as [Hin _]; exact Hin |].
  split; [| exact Hlive].
  destruct (dict_get fd (io_keys l)) as [key |] eqn:Hg.
  - pose proof (registered_del_perm fd key _ Hnd Hg) as Hp.
    rewrite Hp in Hnh. apply NoDup_app in Hnh as (_ & _ & Hnh). exact Hnh.
  - rewrite dict_del_absent by exact Hg. exact Hnh.
Qed.

Lemma io_wf_replace l fd newkey hs c rdy :
  io_wf l ->
  key_ok fd newkey ->
  NoDup (key_handles newkey) ->
  (forall h, h ∈ key_handles newkey ->
     h ∉ registered_handles (dict_del fd (io_keys l))) ->
  handles_live (dict_del fd (io_keys l) ++ [(fd, newkey)]) hs ->
  io_wf (mkIO c (dict_del fd (io_keys l) ++ [(fd, newkey)]) hs rdy).
Proof.
  intros W Hkey Hndk Hfresh Hlive.
  assert (Hlive' : handles_live (dict_del fd (io_keys l)) hs).
  { intros h Hh. apply Hlive. rewrite registered_handles_app.
    apply elem_of_app. left. exact Hh. }
  pose proof (io_wf_unregister l fd hs c rdy W Hlive') as (Hnd & Hok & Hnh & _).
  simpl in Hnd, Hok, Hnh.
  unfold io_wf. simpl. split; [| split; [| split; [| exact Hlive]]].
  - rewrite map_app. simpl. apply NoDup_app. split; [exact Hnd |].
    split; [| apply NoDup_singleton].
    intros k Hk Hk'. apply list_elem_of_singleton in Hk'. subst k.
    apply list_elem_of_fmap in Hk as (p & Hp1 & Hp2).
    apply dict_del_elem in Hp2 as [_ Hne]. congruence.
  - intros fd' key Hin. apply elem_of_app in Hin as [Hin | Hin].
    + apply Hok. exact Hin.
    + apply list_elem_of_singleton in Hin. injection Hin as -> ->. exact Hkey.
  - rewrite registered_handles_app. apply NoDup_app. split; [exact Hnh |].
    unfold registered_handles at 2. simpl. rewrite app_nil_r.
    split; [| exact Hndk].
    intros h Hh Hh'. exact (Hfresh h Hh' Hh).
Qed.

Lemma live_lt hs h : live hs h -> (h < length hs)%nat.
Proof. intros (hd & Hl & _). apply lookup_lt_Some in Hl. exact Hl. Qed.

Lemma live_app hs x h : live hs h -> live (hs ++ x) h.
Proof.
  intros (hd & Hl & Hc). exists hd. split; [| exact Hc].
  apply lookup_app_l_Some. exact Hl.
Qed.

Lemma live_new hs cb : live (hs ++ [mkHandle (Some cb) false]) (length hs).
Proof.
  exists (mkHandle (Some cb) false). split; [| split].
  - apply list_lookup_middle. reflexivity.
  - reflexivity.
  - discriminate.
Qed.

Lemma live_cancel_handle hs ro h :
  ro <> Some h -> live hs h -> live (cancel_handle ro hs) h.
Proof.
  intros Hne (hd & Hl & Hc). destruct ro as [r |]; simpl; [| exists hd; auto].
  exists hd. split; [| exact Hc].
  rewrite list_lookup_alter_ne by congruence. exact Hl.
Qed.

Lemma cancel_handle_cancelled hs r :
  (r < length hs)%nat ->
  exists hd, cancel_handle (Some r) hs !! r = Some hd /\ h_cancelled hd = true.
Proof.
  intros Hlt. apply lookup_lt_is_Some in Hlt as [hd Hl]. simpl.
  exists (Handle_cancel hd). rewrite list_lookup_alter_eq, Hl.
  split; [reflexivity |].
  unfold Handle_cancel. destruct (h_cancelled hd) eqn:Hc; [exact Hc | reflexivity].
Qed.

Lemma old_key_facts l fd key :
  io_wf l -> dict_get fd (io_keys l) = Some key ->
  key_ok fd key /\
  NoDup (key_handles key) /\
  (forall h, h ∈ key_handles key ->
     h ∉ registered_handles (dict_del fd (io_keys l))) /\
  (forall h, h ∈ key_handles key -> live (io_handles l) h) /\
  handles_live (dict_del fd (io_keys l)) (io_handles l).
Proof.
  intros (Hnd & Hok & Hnh & Hl) Hg.
  pose proof (registered_del_perm fd key _ Hnd Hg) as Hp.
  split; [apply Hok, dict_get_Some, Hg |].
  assert (Hnh' := Hnh). rewrite Hp in Hnh'.
  apply NoDup_app in Hnh' as (H1 & H2 & _).
  split; [exact H1 |]. split; [exact H2 |]. split.
  - intros h Hh. apply Hl. rewrite Hp. apply elem_of_app. left. exact Hh.
  - intros h Hh. apply Hl. rewrite Hp. apply elem_of_app. right. exact Hh.
Qed.

Lemma absent_key_facts l fd :
  io_wf l -> dict_get fd (io_keys l) = None ->
  handles_live (dict_del fd (io_keys l)) (io_handles l).
Proof.
  intros (_ & _ & _ & Hl) Hg. rewrite dict_del_absent by exact Hg. exact Hl.
Qed.

Lemma key_handles_data key :
  key_handles key =
    option_list (fst (key_data key)) ++ option_list (snd (key_data key)).
Proof. reflexivity. Qed.

(** *** add_reader and add_writer *)

Lemma loop_add_reader_open fd cb l :
  io_closed l = false ->
  loop_add_reader fd cb l =
    inr (mkIO false
           (dict_del fd (io_keys l) ++
              [(fd, mkKey fd 0 (Z.lor (old_events fd l) EVENT_READ)
                      (Some (length (io_handles l)), old_writer fd l))])
           (cancel_handle (old_reader fd l)
              (io_handles l ++ [mkHandle (Some cb) false]))
           (io_ready l)).
Proof.
  intros Hopen. unfold loop_add_reader, old_events, old_writer, old_reader.
  rewrite Hopen. unfold Selector_get_key, Selector_modify,
    TestSelector_unregister, TestSelector_register.
  destruct (dict_get fd (io_keys l)) as [key |] eqn:Hg; cbn [fst snd].
  - rewrite dict_set_absent by apply dict_get_del. reflexivity.
  - rewrite dict_set_absent by exact Hg.
    rewrite dict_del_absent by exact Hg. reflexivity.
Qed.

Lemma loop_add_writer_open fd cb l :
  io_closed l = false ->
  loop_add_writer fd cb l =
    inr (mkIO false
           (dict_del fd (io_keys l) ++
              [(fd, mkKey fd 0 (Z.lor (old_events fd l) EVENT_WRITE)
                      (old_reader fd l, Some (length (io_handles l))))])
           (cancel_handle (old_writer fd l)
              (io_handles l ++ [mkHandle (Some cb) false]))
           (io_ready l)).
Proof.
  intros Hopen. unfold loop_add_writer, old_events, old_writer, old_reader.
  rewrite Hopen. unfold Selector_get_key, Selector_modify,
    TestSelector_unregister, TestSelector_register.
  destruct (dict_get fd (io_keys l)) as [key |] eqn:Hg; cbn [fst snd].
  - rewrite dict_set_absent by apply dict_get_del. reflexivity.
  - rewrite dict_set_absent by exact Hg.
    rewrite dict_del_absent by exact Hg. reflexivity.
Qed.

(** The facts about the socket [fd] that all four methods rest on, whether
    it is registered or not. *)
Lemma socket_facts l fd :
  io_wf l ->
  old_events fd l =
    Z.lor (match old_reader fd l with Some _ => EVENT_READ | None => 0 end)
          (match old_writer fd l with Some _ => EVENT_WRITE | None => 0 end) /\
  NoDup (option_list (old_reader fd l) ++ option_list (old_writer fd l)) /\
  (forall h, h ∈ option_list (old_reader fd l) ++ option_list (old_writer fd l) ->
     (h ∉ registered_handles (dict_del fd (io_keys l))) /\
     live (io_handles l) h) /\
  handles_live (dict_del fd (io_keys l)) (io_handles l).
Proof.
  intros W. unfold old_events, old_reader, old_writer.
  destruct (dict_get fd (io_keys l)) as [key |] eqn:Hg.
  - destruct (old_key_facts l fd key W Hg) as ((_ & _ & Hev & _) & H1 & H2 & H3 & H4).
    split; [exact Hev |]. split; [exact H1 |].
    split; [intros h Hh; split; [apply H2 | apply H3]; exact Hh | exact H4].
  - split; [reflexivity |]. split; [constructor |].
    split; [intros h Hh; inversion Hh |].
    apply absent_key_facts; assumption.
Qed.

(** One step of any of the four methods: the key of [fd] is dropped or
    replaced by [nk], whose handles are old handles of [fd] or the handle
    just made, and [co], an old handle of [fd] that [nk] does not hold, is
    cancelled. *)
Lemma io_wf_change l fd (nk : option SelectorKey) co extra c rdy :
  io_wf l ->
  (forall key, nk = Some key ->
     key_ok fd key /\ NoDup (key_handles key) /\
     forall h, h ∈ key_handles key ->
       co <> Some h /\
       (h ∈ option_list (old_reader fd l) ++ option_list (old_writer fd l) \/
        h = length (io_handles l) /\
        exists cb, extra = [mkHandle (Some cb) false])) ->
  (forall r, co = Some r ->
     r ∈ option_list (old_reader fd l) ++ option_list (old_writer fd l)) ->
  io_wf (mkIO c
           (dict_del fd (io_keys l) ++
              match nk with Some key => [(fd, key)] | None => [] end)
           (cancel_handle co (io_handles l ++ extra)) rdy).
Proof.
  intros W Hnk Hco.
  destruct (socket_facts l fd W) as (_ & _ & Hold & Hdel).
  assert (Hd : handles_live (dict_del fd (io_keys l))
                 (cancel_handle co (io_handles l ++ extra))).
  { intros h Hh. apply live_cancel_handle; [| apply live_app, Hdel, Hh].
    intros Hc. apply (Hold h (Hco h Hc)). exact Hh. }
  destruct nk as [key |].
  - destruct (Hnk key eq_refl) as (Hok & Hndk & Hk).
    apply io_wf_replace; [exact W | exact Hok | exact Hndk | |].
    + intros h Hh Hin. destruct (Hk h Hh) as [_ [Ho | [-> _]]].
      * apply (Hold h Ho). exact Hin.
      * apply Hdel, live_lt in Hin. lia.
    + intros h Hh. rewrite registered_handles_app in Hh.
      apply elem_of_app in Hh as [Hh | Hh]; [apply Hd, Hh |].
      unfold registered_handles in Hh. simpl in Hh. rewrite app_nil_r in Hh.
      destruct (Hk h Hh) as [Hc [Ho | [-> [cb ->]]]].
      * apply live_cancel_handle; [exact Hc | apply live_app, Hold, Ho].
      * apply live_cancel_handle; [exact Hc | apply live_new].
  - rewrite app_nil_r. apply io_wf_unregister; [exact W | exact Hd].
Qed.

Lemma loop_add_reader_wf fd cb l l1 :
  io_wf l -> loop_add_reader fd cb l = inr l1 -> io_wf l1.
Proof.
  intros W Hadd.
  destruct (io_closed l) eqn:Hopen.
  { unfold loop_add_reader in Hadd. rewrite Hopen in Hadd. discriminate. }
  rewrite loop_add_reader_open in Hadd by exact Hopen. injection Hadd as <-.
  destruct (socket_facts l fd W) as (Hev & Hnd & Hold & _).
  apply (io_wf_change l fd (Some _)); [exact W | |].
  - intros key [= <-]. unfold key_ok, key_handles.
    cbn [key_fileobj key_fd key_events key_data fst snd].
    destruct (old_reader fd l) as [r |], (old_writer fd l) as [w |];
      cbn [option_list app] in *; rewrite Hev.
    + split; [repeat split; discriminate |].
      assert (Hw : w <> length (io_handles l)).
      { intros ->. assert (Hl : live (io_handles l) (length (io_handles l)))
          by (apply Hold; elem_tac). apply live_lt in Hl. lia. }
      assert (Hr : r <> length (io_handles l)).
      { intros ->. assert (Hl : live (io_handles l) (length (io_handles l)))
          by (apply Hold; elem_tac). apply live_lt in Hl. lia. }
      apply NoDup_cons in Hnd as [Hrw%not_elem_of_cons _].
      split.
      * apply NoDup_cons. split; [| apply NoDup_singleton].
        intros Hin%list_elem_of_singleton. congruence.
      * intros h [-> | ->%list_elem_of_singleton]%elem_of_cons.
        -- split; [congruence |]. right. split; [reflexivity | eauto].
        -- split; [intros [= ->]; tauto |]. left. elem_tac.
    + split; [repeat split; discriminate |].
      assert (Hr : r <> length (io_handles l)).
      { intros ->. assert (Hl : live (io_handles l) (length (io_handles l)))
          by (apply Hold; elem_tac). apply live_lt in Hl. lia. }
      split; [apply NoDup_singleton |].
      intros h ->%list_elem_of_singleton.
      split; [congruence |]. right. split; [reflexivity | eauto].
    + split; [repeat split; discriminate |].
      assert (Hw : w <> length (io_handles l)).
      { intros ->. assert (Hl : live (io_handles l) (length (io_handles l)))
          by (apply Hold; elem_tac). apply live_lt in Hl. lia. }
      split.
      * apply NoDup_cons. split; [| apply NoDup_singleton].
        intros Hin%list_elem_of_singleton. congruence.
      * intros h [-> | ->%list_elem_of_singleton]%elem_of_cons.
        -- split; [discriminate |]. right. split; [reflexivity | eauto].
        -- split; [discriminate |]. left. elem_tac.
    + split; [repeat split; discriminate |].
      split; [apply NoDup_singleton |].
      intros h ->%list_elem_of_singleton.
      split; [discriminate |]. right. split; [reflexivity | eauto].
  - intros r Hr. rewrite Hr. simpl. elem_tac.
Qed.

Lemma loop_add_writer_wf fd cb l l1 :
  io_wf l -> loop_add_writer fd cb l = inr l1 -> io_wf l1.
Proof.
  intros W Hadd.
  destruct (io_closed l) eqn:Hopen.
  { unfold loop_add_writer in Hadd. rewrite Hopen in Hadd. discriminate. }
  rewrite loop_add_writer_open in Hadd by exact Hopen. injection Hadd as <-.
  destruct (socket_facts l fd W) as (Hev & Hnd & Hold & _).
  apply (io_wf_change l fd (Some _)); [exact W | |].
  - intros key [= <-]. unfold key_ok, key_handles.
    cbn [key_fileobj key_fd key_events key_data fst snd].
    destruct (old_reader fd l) as [r |], (old_writer fd l) as [w |];
      cbn [option_list app] in *; rewrite Hev.
    + split; [repeat split; discriminate |].
      assert (Hw : w <> length (io_handles l)).
      { intros ->. assert (Hl : live (io_handles l) (length (io_handles l)))
          by (apply Hold; elem_tac). apply live_lt in Hl. lia. }
      assert (Hr : r <> length (io_handles l)).
      { intros ->. assert (Hl : live (io_handles l) (length (io_handles l)))
          by (apply Hold; elem_tac). apply live_lt in Hl. lia. }
      apply NoDup_cons in Hnd as [Hrw%not_elem_of_cons _].
      split.
      * apply NoDup_cons. split; [| apply NoDup_singleton].
        intros Hin%list_elem_of_singleton. congruence.
      * intros h [-> | ->%list_elem_of_singleton]%elem_of_cons.
        -- split; [intros [= ->]; tauto |]. left. elem_tac.
        -- split; [congruence |]. right. split; [reflexivity | eauto].
    + split; [repeat split; discriminate |].
      assert (Hr : r <> length (io_handles l)).
      { intros ->. assert (Hl : live (io_handles l) (length (io_handles l)))
          by (apply Hold; elem_tac). apply live_lt in Hl. lia. }
      split.
      * apply NoDup_cons. split; [| apply NoDup_singleton].
        intros Hin%list_elem_of_singleton. congruence.
      * intros h [-> | ->%list_elem_of_singleton]%elem_of_cons.
        -- split; [discriminate |]. left. elem_tac.
        -- split; [discriminate |]. right. split; [reflexivity | eauto].
    + split; [repeat split; discriminate |].
      assert (Hw : w <> length (io_handles l)).
      { intros ->. assert (Hl : live (io_handles l) (length (io_handles l)))
          by (apply Hold; elem_tac). apply live_lt in Hl. lia. }
      split; [apply NoDup_singleton |].
      intros h ->%list_elem_of_singleton.
      split; [congruence |]. right. split; [reflexivity | eauto].
    + split; [repeat split; discriminate |].
      split; [apply NoDup_singleton |].
      intros h ->%list_elem_of_singleton.
      split; [discriminate |]. right. split; [reflexivity | eauto].
  - intros r Hr. rewrite Hr. simpl.
    destruct (old_reader fd l); simpl; elem_tac.
Qed.

(** *** remove_reader and remove_writer *)

Lemma loop_remove_reader_open fd l key :
  io_closed l = false -> dict_get fd (io_keys l) = Some key ->
  loop_remove_reader fd l =
    inr (mkIO false
           (dict_del fd (io_keys l) ++
              (if (Z.land (key_events key) (Z.lnot EVENT_READ) =? 0)%Z
               then []
               else [(fd, mkKey fd 0
                            (Z.land (key_events key) (Z.lnot EVENT_READ))
                            (None, snd (key_data key)))]))
           (cancel_handle (fst (key_data key)) (io_handles l))
           (io_ready l),
         match fst (key_data key) with Some _ => true | None => false end).
Proof.
  intros Hopen Hg. unfold loop_remove_reader.
  rewrite Hopen. unfold Selector_get_key, Selector_modify,
    TestSelector_unregister, TestSelector_register. rewrite Hg.
  destruct (_ =? 0)%Z; cbn [fst snd].
  - rewrite app_nil_r. destruct (fst (key_data key)); reflexivity.
  - rewrite dict_set_absent by apply dict_get_del.
    destruct (fst (key_data key)); reflexivity.
Qed.

Lemma loop_remove_writer_open fd l key :
  io_closed l = false -> dict_get fd (io_keys l) = Some key ->
  loop_remove_writer fd l =
    inr (mkIO false
           (dict_del fd (io_keys l) ++
              (if (Z.land (key_events key) (Z.lnot EVENT_WRITE) =? 0)%Z
               then []
               else [(fd, mkKey fd 0
                            (Z.land (key_events key) (Z.lnot EVENT_WRITE))
                            (fst (key_data key), None))]))
           (cancel_handle (snd (key_data key)) (io_handles l))
           (io_ready l),
         match snd (key_data key) with Some _ => true | None => false end).
Proof.
  intros Hopen Hg. unfold loop_remove_writer.
  rewrite Hopen. unfold Selector_get_key, Selector_modify,
    TestSelector_unregister, TestSelector_register. rewrite Hg.
  destruct (_ =? 0)%Z; cbn [fst snd].
  - rewrite app_nil_r. destruct (snd (key_data key)); reflexivity.
  - rewrite dict_set_absent by apply dict_get_del.
    destruct (snd (key_data key)); reflexivity.
Qed.

Lemma loop_remove_reader_idle fd l :
  io_closed l = true \/ dict_get fd (io_keys l) = None ->
  loop_remove_reader fd l = inr (l, false).
Proof.
  unfold loop_remove_reader, Selector_get_key. intros [-> | Hg]; [reflexivity |].
  rewrite Hg. destruct (io_closed l); reflexivity.
Qed.

Lemma loop_remove_writer_idle fd l :
  io_closed l = true \/ dict_get fd (io_keys l) = None ->
  loop_remove_writer fd l = inr (l, false).
Proof.
  unfold loop_remove_writer, Selector_get_key. intros [-> | Hg]; [reflexivity |].
  rewrite Hg. destruct (io_closed l); reflexivity.
Qed.

Lemma loop_remove_reader_wf fd l :
  io_wf l ->
  exists l1 b, loop_remove_reader fd l = inr (l1, b) /\ io_closed l1 = io_closed l /\
    io_wf l1.
Proof.
  intros W.
  destruct (io_closed l) eqn:Hopen.
  { exists l, false. split; [apply loop_remove_reader_idle; auto | auto]. }
  destruct (dict_get fd (io_keys l)) as [key |] eqn:Hg.
  2: { exists l, false. split; [apply loop_remove_reader_idle; auto | auto]. }
  rewrite (loop_remove_reader_open fd l key Hopen Hg).
  eexists _, _. split; [reflexivity |]. split; [reflexivity |].
  destruct (socket_facts l fd W) as (Hev & Hnd & Hold & _).
  unfold old_events, old_reader, old_writer in Hev, Hnd, Hold.
  rewrite Hg in Hev, Hnd, Hold.
  rewrite <- (app_nil_r (io_handles l)).
  destruct (fst (key_data key)) as [r |] eqn:Hr,
           (snd (key_data key)) as [w |] eqn:Hw;
    rewrite Hev; cbn [option_list app Z.eqb Z.land Z.lor Z.lnot EVENT_READ EVENT_WRITE] in *;
    simpl Z.eqb; cbv iota.
  - apply (io_wf_change l fd (Some _)); [exact W | |].
    + intros k [= <-]. unfold key_ok, key_handles. simpl.
      split; [repeat split; discriminate |].
      split; [apply NoDup_singleton |].
      intros h ->%list_elem_of_singleton.
      apply NoDup_cons in Hnd as [Hrw%not_elem_of_cons _].
      split; [intros [= ->]; tauto |].
      left. unfold old_reader, old_writer. rewrite Hg, Hr, Hw. simpl. elem_tac.
    + intros r' [= <-]. unfold old_reader, old_writer. rewrite Hg, Hr, Hw.
      simpl. elem_tac.
  - apply (io_wf_change l fd None); [exact W | discriminate |].
    intros r' [= <-]. unfold old_reader, old_writer. rewrite Hg, Hr, Hw.
    simpl. elem_tac.
  - apply (io_wf_change l fd (Some _)); [exact W | | discriminate].
    intros k [= <-]. unfold key_ok, key_handles. simpl.
    split; [repeat split; discriminate |].
    split; [apply NoDup_singleton |].
    intros h ->%list_elem_of_singleton.
    split; [discriminate |].
    left. unfold old_reader, old_writer. rewrite Hg, Hr, Hw. simpl. elem_tac.
  - apply (io_wf_change l fd None); [exact W | discriminate | discriminate].
Qed.

Lemma loop_remove_writer_wf fd l :
  io_wf l ->
  exists l1 b, loop_remove_writer fd l = inr (l1, b) /\ io_closed l1 = io_closed l /\
    io_wf l1.
Proof.
  intros W.
  destruct (io_closed l) eqn:Hopen.
  { exists l, false. split; [apply loop_remove_writer_idle; auto | auto]. }
  destruct (dict_get fd (io_keys l)) as [key |] eqn:Hg.
  2: { exists l, false. split; [apply loop_remove_writer_idle; auto | auto]. }
  rewrite (loop_remove_writer_open fd l key Hopen Hg).
  eexists _, _. split; [reflexivity |]. split; [reflexivity |].
  destruct (socket_facts l fd W) as (Hev & Hnd & Hold & _).
  unfold old_events, old_reader, old_writer in Hev, Hnd, Hold.
  rewrite Hg in Hev, Hnd, Hold.
  rewrite <- (app_nil_r (io_handles l)).
  destruct (fst (key_data key)) as [r |] eqn:Hr,
           (snd (key_data key)) as [w |] eqn:Hw;
    rewrite Hev; cbn [option_list app Z.eqb Z.land Z.lor Z.lnot EVENT_READ EVENT_WRITE] in *;
    simpl Z.eqb; cbv iota.
  - apply (io_wf_change l fd (Some _)); [exact W | |].
    + intros k [= <-]. unfold key_ok, key_handles. simpl.
      split; [repeat split; discriminate |].
      split; [apply NoDup_singleton |].
      intros h ->%list_elem_of_singleton.
      apply NoDup_cons in Hnd as [Hrw%not_elem_of_cons _].
      split; [intros [= ->]; tauto |].
      left. unfold old_reader, old_writer. rewrite Hg, Hr, Hw. simpl. elem_tac.
    + intros r' [= <-]. unfold old_reader, old_writer. rewrite Hg, Hr, Hw.
      simpl. elem_tac.
  - apply (io_wf_change l fd (Some _)); [exact W | | discriminate].
    intros k [= <-]. unfold key_ok, key_handles. simpl.
    split; [repeat split; discriminate |].
    split; [apply NoDup_singleton |].
    intros h ->%list_elem_of_singleton.
    split; [discriminate |].
    left. unfold old_reader, old_writer. rewrite Hg, Hr, Hw. simpl. elem_tac.
  - apply (io_wf_change l fd None); [exact W | discriminate |].
    intros r' [= <-]. unfold old_reader, old_writer. rewrite Hg, Hr, Hw.
    simpl. elem_tac.
  - apply (io_wf_change l fd None); [exact W | discriminate | discriminate].
Qed.

(** *** _process_events *)

Lemma process_side_live mask bit h remove l :
  (forall r, h = Some r -> live (io_handles l) r) ->
  process_side mask bit h remove l =
    inr (mkIO (io_closed l) (io_keys l) (io_handles l)
           (io_ready l ++
              match h with
              | Some r => if (Z.land mask bit =? 0)%Z then [] else [r]
              | None => []
              end)).
Proof.
  intros Hl. unfold process_side. destruct h as [r |].
  - destruct (Hl r eq_refl) as (hd & Hlk & Hc & _).
    destruct (Z.land mask bit =? 0)%Z; simpl.
    + rewrite app_nil_r. destruct l; reflexivity.
    + unfold handle_cancelled, loop_add_callback. rewrite Hlk, Hc. reflexivity.
  - rewrite app_nil_r. destruct l; reflexivity.
Qed.

Lemma loop_process_events_app evs1 evs2 l :
  loop_process_events (evs1 ++ evs2) l =
    match loop_process_events evs1 l with
    | inl e => inl e
    | inr l1 => loop_process_events evs2 l1
    end.
Proof.
  revert l. induction evs1 as [| [key mask] evs1 IH]; intros l; simpl;
    [reflexivity |].
  destruct (process_side mask EVENT_READ _ _ l) as [e | l1]; [reflexivity |].
  destruct (process_side mask EVENT_WRITE _ _ l1) as [e | l2]; [reflexivity |].
  apply IH.
Qed.

Lemma loop_process_selected rr wr keys c K hs rdy :
  handles_live keys hs ->
  loop_process_events (TestSelector_select rr wr keys) (mkIO c K hs rdy) =
    inr (mkIO c K hs (rdy ++ ready_handles rr wr keys)).
Proof.
  revert rdy. induction keys as [| [fd key] keys IH]; intros rdy Hl.
  - simpl. rewrite app_nil_r. reflexivity.
  - assert (Hl' : handles_live keys hs).
    { intros h Hh. apply Hl.
      change (registered_handles ((fd, key) :: keys))
        with (key_handles key ++ registered_handles keys).
      apply elem_of_app. right. exact Hh. }
    assert (Hk : forall h, h ∈ key_handles key -> live hs h).
    { intros h Hh. apply Hl.
      change (registered_handles ((fd, key) :: keys))
        with (key_handles key ++ registered_handles keys).
      apply elem_of_app. left. exact Hh. }
    assert (Hr : forall r, fst (key_data key) = Some r -> live hs r).
    { intros r Hr. apply Hk. unfold key_handles. rewrite Hr.
      apply elem_of_app. left. apply list_elem_of_here. }
    assert (Hw : forall w, snd (key_data key) = Some w -> live hs w).
    { intros w Hw. apply Hk. unfold key_handles. rewrite Hw.
      apply elem_of_app. right. apply list_elem_of_here. }
    change (TestSelector_select rr wr ((fd, key) :: keys))
      with (((if rr fd then [(key, EVENT_READ)] else []) ++
             (if wr fd then [(key, EVENT_WRITE)] else [])) ++
            TestSelector_select rr wr keys).
    change (ready_handles rr wr ((fd, key) :: keys))
      with (((if rr fd then option_list (fst (key_data key)) else []) ++
             (if wr fd then option_list (snd (key_data key)) else [])) ++
            ready_handles rr wr keys).
    rewrite loop_process_events_app.
    assert (Hone :
      loop_process_events
        ((if rr fd then [(key, EVENT_READ)] else []) ++
         (if wr fd then [(key, EVENT_WRITE)] else [])) (mkIO c K hs rdy) =
      inr (mkIO c K hs
             (rdy ++ (if rr fd then option_list (fst (key_data key)) else []) ++
                     (if wr fd then option_list (snd (key_data key)) else [])))).
    { destruct (rr fd), (wr fd); cbn [app loop_process_events];
        repeat (rewrite process_side_live by (cbn [io_handles]; assumption);
                cbn [io_closed io_keys io_handles io_ready]);
        destruct (fst (key_data key)), (snd (key_data key));
        cbn [option_list app Z.land Z.eqb EVENT_READ EVENT_WRITE];
        simpl; rewrite ?app_nil_r, <- ?app_assoc; reflexivity. }
    rewrite Hone, IH by exact Hl'. rewrite <- !app_assoc. reflexivity.
Qed.

Lemma loop_process_events_wf rr wr l :
  io_wf l ->
  exists l1, loop_process_events (TestSelector_select rr wr (io_keys l)) l
             = inr l1 /\ io_wf l1 /\ io_closed l1 = io_closed l.
Proof.
  intros W. destruct l as [c K hs rdy].
  rewrite loop_process_selected by apply W.
  eexists. split; [reflexivity |]. split; [exact W | reflexivity].
Qed.

(** *** Properties of the readers and writers *)

Lemma io_step_wf op l :
  io_wf l -> io_closed l = false ->
  exists l1, io_step op l = inr l1 /\ io_wf l1 /\ io_closed l1 = false.
Proof.
  intros W Hopen. destruct op as [fd cb | fd | fd cb | fd | rr wr]; simpl.
  - pose proof (loop_add_reader_wf fd cb l) as Hwf.
    rewrite loop_add_reader_open in * by exact Hopen.
    eexists. split; [reflexivity |]. split; [eapply Hwf; eauto | reflexivity].
  - destruct (loop_remove_reader_wf fd l W) as (l1 & b & -> & Hc & W1).
    exists l1. split; [reflexivity |]. split; [exact W1 | congruence].
  - pose proof (loop_add_writer_wf fd cb l) as Hwf.
    rewrite loop_add_writer_open in * by exact Hopen.
    eexists. split; [reflexivity |]. split; [eapply Hwf; eauto | reflexivity].
  - destruct (loop_remove_writer_wf fd l W) as (l1 & b & -> & Hc & W1).
    exists l1. split; [reflexivity |]. split; [exact W1 | congruence].
  - destruct (loop_process_events_wf rr wr l W) as (l1 & -> & W1 & Hc).
    exists l1. split; [reflexivity |]. split; [exact W1 | congruence].
Qed.

Lemma io_steps_wf ops l :
  io_wf l -> io_closed l = false ->
  exists l1, io_steps ops l = inr l1 /\ io_wf l1 /\ io_closed l1 = false.
Proof.
  revert l. induction ops as [| op ops IH]; intros l W Hopen; simpl.
  - exists l. auto.
  - destruct (io_step_wf op l W Hopen) as (l1 & -> & W1 & H1). apply IH; auto.
Qed.

Lemma loop_io_init_wf : io_wf loop_io_init.
Proof.
  unfold io_wf, loop_io_init. simpl. split; [constructor |].
  split; [intros fd key Hin; inversion Hin |].
  split; [constructor |]. intros h Hh. inversion Hh.
Qed.

(** X18.  Whatever a test does with the readers and writers of a fresh
    loop -- [add_reader], [add_writer], [remove_reader], [remove_writer],
    [select] followed by [_process_events], in any order and number -- no
    call raises, and afterwards every socket of the selector has one key
    whose mask says exactly which of reader and writer it holds, no handle
    is registered twice, and no registered handle is cancelled. *)
Theorem readers_and_writers_invariant ops :
  exists l, io_steps ops loop_io_init = inr l /\
    io_closed l = false /\
    NoDup (map fst (io_keys l)) /\
    (forall fd key, (fd, key) ∈ io_keys l ->
       key_fileobj key = fd /\
       (key_events key = 1 \/ key_events key = 2 \/ key_events key = 3)%Z /\
       (Z.testbit (key_events key) 0 = true <-> fst (key_data key) <> None) /\
       (Z.testbit (key_events key) 1 = true <-> snd (key_data key) <> None)) /\
    NoDup (registered_handles (io_keys l)) /\
    (forall h, h ∈ registered_handles (io_keys l) ->
       handle_cancelled h l = false).
Proof.
  destruct (io_steps_wf ops loop_io_init loop_io_init_wf eq_refl)
    as (l & Hs & (Hnd & Hok & Hnh & Hl) & Hopen).
  exists l. split; [exact Hs |]. split; [exact Hopen |].
  split; [exact Hnd |]. split; [| split; [exact Hnh |]].
  - intros fd key Hin. destruct (Hok fd key Hin) as (Hf & _ & Hev & Hnz).
    split; [exact Hf |]. rewrite Hev in *.
    destruct (fst (key_data key)), (snd (key_data key)); simpl in *;
      (split; [tauto |]); split; split; intros; congruence.
  - intros h Hh. destruct (Hl h Hh) as (hd & Hlk & Hc & _).
    unfold handle_cancelled. rewrite Hlk. exact Hc.
Qed.

Lemma dict_del_snoc {V : Type} k (v : V) d :
  dict_del k (dict_del k d ++ [(k, v)]) = dict_del k d.
Proof.
  unfold dict_del. rewrite List.filter_app. simpl. rewrite Nat.eqb_refl. simpl.
  rewrite app_nil_r. induction d as [| [k' v'] d IH]; simpl; [reflexivity |].
  destruct (Nat.eqb k' k) eqn:Hk; simpl; [exact IH |].
  rewrite Hk. simpl. rewrite IH. reflexivity.
Qed.

Lemma dict_get_snoc {V : Type} k (v : V) d :
  dict_get k (dict_del k d ++ [(k, v)]) = Some v.
Proof.
  rewrite dict_get_app, dict_get_del. simpl. rewrite Nat.eqb_refl. reflexivity.
Qed.

Lemma dict_get_snoc_ne {V : Type} k k' (v : V) d :
  k' <> k -> dict_get k' (dict_del k d ++ [(k, v)]) = dict_get k' d.
Proof.
  intros Hne. rewrite dict_get_app, dict_get_del_ne by exact Hne. simpl.
  destruct (Nat.eqb_spec k k'); [congruence |].
  destruct (dict_get k' d); reflexivity.
Qed.

(** X19.  A reader that is added and then removed leaves the selector as
    it was for every other socket and for the writer of its own socket:
    [remove_reader] answers True, the handle just made is cancelled, the
    socket has no reader, and [_ready] is untouched. *)
Theorem add_then_remove_reader fd cb l :
  io_wf l -> io_closed l = false ->
  exists l1 l2,
    loop_add_reader fd cb l = inr l1 /\
    loop_remove_reader fd l1 = inr (l2, true) /\
    handle_cancelled (length (io_handles l)) l2 = true /\
    old_reader fd l2 = None /\
    old_writer fd l2 = old_writer fd l /\
    (forall fd', fd' <> fd ->
       dict_get fd' (io_keys l2) = dict_get fd' (io_keys l)) /\
    io_ready l2 = io_ready l.
Proof.
  intros W Hopen.
  destruct (socket_facts l fd W) as (Hev & Hnd & Hold & _).
  rewrite loop_add_reader_open by exact Hopen.
  eexists. eexists. split; [reflexivity |].
  erewrite loop_remove_reader_open;
    [| reflexivity | cbn [io_keys]; apply dict_get_snoc].
  cbn [io_keys io_handles io_ready key_events key_data fst snd].
  rewrite dict_del_snoc. split; [reflexivity |].
  assert (Hmask : Z.land (Z.lor (old_events fd l) EVENT_READ) (Z.lnot EVENT_READ)
                  = match old_writer fd l with
                    | Some _ => EVENT_WRITE | None => 0%Z end).
  { rewrite Hev. destruct (old_reader fd l), (old_writer fd l); reflexivity. }
  rewrite Hmask. split; [| split; [| split; [| split]]].
  - unfold handle_cancelled. cbn [io_handles].
    destruct (cancel_handle_cancelled
                (cancel_handle (old_reader fd l)
                   (io_handles l ++ [mkHandle (Some cb) false]))
                (length (io_handles l))) as (hd & Hlk & Hc).
    + destruct (old_reader fd l); simpl;
        rewrite ?length_alter, length_app; simpl; lia.
    + rewrite Hlk. exact Hc.
  - unfold old_reader at 1. cbn [io_keys].
    destruct (old_writer fd l); simpl.
    + rewrite dict_get_snoc. reflexivity.
    + rewrite app_nil_r, dict_get_del. reflexivity.
  - unfold old_writer at 1. cbn [io_keys].
    destruct (old_writer fd l); simpl.
    + rewrite dict_get_snoc. reflexivity.
    + rewrite app_nil_r, dict_get_del. reflexivity.
  - intros fd' Hne. destruct (old_writer fd l); simpl.
    + apply dict_get_snoc_ne. exact Hne.
    + rewrite app_nil_r. apply dict_get_del_ne. exact Hne.
  - reflexivity.
Qed.

Lemma loop_io_example_wf : io_wf loop_io_example.
Proof.
  destruct (io_steps_wf
              [AddReader 1 cb_plain; AddWriter 1 cb_stop; AddReader 2 cb_rearm]
              loop_io_init loop_io_init_wf eq_refl) as (l & Hs & W & _).
  injection Hs as <-. exact W.
Qed.

Lemma add_then_remove_reader_witness :
  exists l1 l2,
    loop_add_reader 1 cb_plain loop_io_example = inr l1 /\
    loop_remove_reader 1 l1 = inr (l2, true) /\
    handle_cancelled (length (io_handles loop_io_example)) l2 = true /\
    old_reader 1 l2 = None /\
    old_writer 1 l2 = old_writer 1 loop_io_example /\
    (forall fd', fd' <> 1%nat ->
       dict_get fd' (io_keys l2) = dict_get fd' (io_keys loop_io_example)) /\
    io_ready l2 = io_ready loop_io_example.
Proof.
  apply (add_then_remove_reader 1 cb_plain loop_io_example).
  - exact loop_io_example_wf.
  - reflexivity.
Defined.

(** X20.  [add_reader] on a socket that has a reader replaces it: the old
    handle is cancelled, the new one is not, the writer and the mask stay,
    and -- because [modify] unregisters and registers again -- the socket
    moves to the end of the order in which [select] reports. *)
Theorem add_reader_replaces fd cb l r :
  io_wf l -> io_closed l = false -> old_reader fd l = Some r ->
  exists l1,
    loop_add_reader fd cb l = inr l1 /\
    handle_cancelled r l1 = true /\
    old_reader fd l1 = Some (length (io_handles l)) /\
    handle_cancelled (length (io_handles l)) l1 = false /\
    old_writer fd l1 = old_writer fd l /\
    old_events fd l1 = old_events fd l /\
    last (map fst (io_keys l1)) = Some fd /\
    length (io_keys l1) = length (io_keys l).
Proof.
  intros W Hopen Hr.
  destruct (socket_facts l fd W) as (Hev & Hnd & Hold & _).
  rewrite Hr in Hev, Hnd, Hold.
  assert (Hlive : live (io_handles l) r).
  { apply Hold. apply elem_of_app. left. apply list_elem_of_here. }
  pose proof (live_lt _ _ Hlive) as Hlt.
  rewrite loop_add_reader_open by exact Hopen. rewrite Hr.
  eexists. split; [reflexivity |].
  unfold handle_cancelled, old_reader, old_writer, old_events.
  cbn [io_keys io_handles]. rewrite !dict_get_snoc.
  cbn [key_data key_events fst snd].
  split; [| split; [reflexivity | split; [| split; [reflexivity | split; [| split]]]]].
  - destruct (cancel_handle_cancelled
                (io_handles l ++ [mkHandle (Some cb) false]) r)
      as (hd & Hlk & Hc); [rewrite length_app; simpl; lia |].
    rewrite Hlk. exact Hc.
  - simpl. rewrite list_lookup_alter_ne by lia.
    rewrite list_lookup_middle by reflexivity. reflexivity.
  - fold (old_events fd l). rewrite Hev.
    destruct (old_writer fd l); reflexivity.
  - rewrite map_app. simpl. apply last_snoc.
  - destruct W as (Hndk & _).
    unfold old_reader in Hr.
    destruct (dict_get fd (io_keys l)) as [key |] eqn:Hg; [| discriminate].
    rewrite length_app. simpl.
    clear - Hndk Hg. revert Hndk Hg.
    induction (io_keys l) as [| [k v] d IH]; simpl; [discriminate |].
    intros Hnd%NoDup_cons Hg. destruct Hnd as [Hk Hnd].
    unfold dict_del. simpl. fold (dict_del fd d).
    destruct (Nat.eqb_spec k fd) as [-> | Hne]; simpl.
    + rewrite dict_del_absent by (apply dict_get_None; exact Hk). lia.
    + specialize (IH Hnd Hg). lia.
Qed.

Lemma add_reader_replaces_witness :
  exists l1,
    loop_add_reader 1 cb_rearm loop_io_example = inr l1 /\
    handle_cancelled 0 l1 = true /\
    old_reader 1 l1 = Some (length (io_handles loop_io_example)) /\
    handle_cancelled (length (io_handles loop_io_example)) l1 = false /\
    old_writer 1 l1 = old_writer 1 loop_io_example /\
    old_events 1 l1 = old_events 1 loop_io_example /\
    last (map fst (io_keys l1)) = Some 1%nat /\
    length (io_keys l1) = length (io_keys loop_io_example).
Proof.
  apply (add_reader_replaces 1 cb_rearm loop_io_example 0).
  - exact loop_io_example_wf.
  - reflexivity.
  - reflexivity.
Defined.

(** X21.  In such a state [_process_events], given what [select] reports,
    removes nothing and queues in [_ready], after what is there, the reader
    of every socket that can be read and the writer of every socket that can
    be written, socket by socket in the order of the selector. *)
Theorem process_events_queues_ready_handles rr wr l :
  io_wf l ->
  loop_process_events (TestSelector_select rr wr (io_keys l)) l =
    inr (mkIO (io_closed l) (io_keys l) (io_handles l)
           (io_ready l ++ ready_handles rr wr (io_keys l))).
Proof.
  intros W. destruct l as [c K hs rdy]. simpl.
  apply loop_process_selected. apply W.
Qed.

Lemma process_events_queues_ready_handles_witness :
  loop_process_events
    (TestSelector_select (fun _ => true) (fun fd => Nat.eqb fd 1)
       (io_keys loop_io_example)) loop_io_example =
    inr (mkIO (io_closed loop_io_example) (io_keys loop_io_example)
           (io_handles loop_io_example)
           (io_ready loop_io_example ++
              ready_handles (fun _ => true) (fun fd => Nat.eqb fd 1)
                (io_keys loop_io_example))).
Proof.
  apply (process_events_queues_ready_handles
           (fun _ => true) (fun fd => Nat.eqb fd 1) loop_io_example).
  exact loop_io_example_wf.
Defined.

(** The handles of the example reach [_ready] in the order reader of
    socket 1, writer of socket 1, reader of socket 2. *)
Example process_events_example :
  loop_process_events
    (TestSelector_select (fun _ => true) (fun fd => Nat.eqb fd 1)
       (io_keys loop_io_example)) loop_io_example =
    inr (mkIO false (io_keys loop_io_example) (io_handles loop_io_example)
           [0; 1; 2]%nat).
Proof. reflexivity. Qed.

(** X22.  [remove_reader] and [remove_writer] never raise, and a second
    call changes nothing and answers False; the first answers True exactly
    when the loop is open and the socket had a reader (a writer). *)
Theorem remove_twice fd l :
  (exists l1 b,
     loop_remove_reader fd l = inr (l1, b) /\
     loop_remove_reader fd l1 = inr (l1, false) /\
     (b = true <-> io_closed l = false /\ old_reader fd l <> None)) /\
  (exists l1 b,
     loop_remove_writer fd l = inr (l1, b) /\
     loop_remove_writer fd l1 = inr (l1, false) /\
     (b = true <-> io_closed l = false /\ old_writer fd l <> None)).
Proof.
  assert (Hland : forall a b, Z.land (Z.land a b) b = Z.land a b).
  { intros a b. rewrite <- Z.land_assoc, Z.land_diag. reflexivity. }
  split.
  - destruct (io_closed l) eqn:Hopen.
    { exists l, false. rewrite !loop_remove_reader_idle by auto.
      split; [reflexivity |]. split; [reflexivity |].
      split; [discriminate | intros [? _]; discriminate]. }
    unfold old_reader.
    destruct (dict_get fd (io_keys l)) as [key |] eqn:Hg.
    2: { exists l, false. rewrite !loop_remove_reader_idle by auto.
         split; [reflexivity |]. split; [reflexivity |].
         split; [discriminate | intros [_ ?]; congruence]. }
    rewrite (loop_remove_reader_open fd l key Hopen Hg).
    eexists _, _. split; [reflexivity |]. split.
    + destruct (Z.land (key_events key) (Z.lnot EVENT_READ) =? 0)%Z eqn:Hm.
      * rewrite app_nil_r. apply loop_remove_reader_idle. right.
        apply dict_get_del.
      * erewrite loop_remove_reader_open;
          [| reflexivity | cbn [io_keys]; apply dict_get_snoc].
        cbn [io_keys io_handles io_ready key_events key_data fst snd].
        rewrite dict_del_snoc, Hland, Hm. reflexivity.
    + destruct (fst (key_data key)); split; try tauto; try discriminate;
        try (intros [_ ?]; congruence). intros _. split; [reflexivity | discriminate].
  - destruct (io_closed l) eqn:Hopen.
    { exists l, false. rewrite !loop_remove_writer_idle by auto.
      split; [reflexivity |]. split; [reflexivity |].
      split; [discriminate | intros [? _]; discriminate]. }
    unfold old_writer.
    destruct (dict_get fd (io_keys l)) as [key |] eqn:Hg.
    2: { exists l, false. rewrite !loop_remove_writer_idle by auto.
         split; [reflexivity |]. split; [reflexivity |].
         split; [discriminate | intros [_ ?]; congruence]. }
    rewrite (loop_remove_writer_open fd l key Hopen Hg).
    eexists _, _. split; [reflexivity |]. split.
    + destruct (Z.land (key_events key) (Z.lnot EVENT_WRITE) =? 0)%Z eqn:Hm.
      * rewrite app_nil_r. apply loop_remove_writer_idle. right.
        apply dict_get_del.
      * erewrite loop_remove_writer_open;
          [| reflexivity | cbn [io_keys]; apply dict_get_snoc].
        cbn [io_keys io_handles io_ready key_events key_data fst snd].
        rewrite dict_del_snoc, Hland, Hm. reflexivity.
    + destruct (snd (key_data key)); split; try tauto; try discriminate;
        try (intros [_ ?]; congruence). intros _. split; [reflexivity | discriminate].
Qed.

(** *** Mocked sockets *)

(** X23.  A socket that is not open and is mocked for an address is
    handed out by [_open_mock_socket] for that address once: the call marks
    it open and a second call raises AssertionError, as does a call for any
    other address that the same socket is mocked for. *)
Theorem mocked_socket_opens_once host port s net :
  s ∉ net_open net ->
  exists net2,
    loop_open_mock_socket host port (loop_mock_socket host port s net)
      = inr (net2, s) /\
    s ∈ net_open net2 /\
    net_mock_sockets net2 = <[mock_key host port := s]> (net_mock_sockets net) /\
    loop_open_mock_socket host port net2 = inl AssertionError /\
    (forall host' port',
       net_mock_sockets net2 !! mock_key host' port' = Some s ->
       loop_open_mock_socket host' port' net2 = inl AssertionError).
Proof.
  intros Hs. unfold loop_open_mock_socket at 1, loop_mock_socket.
  cbn [net_mock_sockets net_open]. rewrite lookup_insert_eq.
  rewrite bool_decide_eq_false_2 by exact Hs.
  eexists. split; [reflexivity |]. cbn [net_open net_mock_sockets].
  split; [set_solver |]. split; [reflexivity |].
  assert (Hopen : forall host' port',
            <[mock_key host port := s]> (net_mock_sockets net)
              !! mock_key host' port' = Some s ->
            loop_open_mock_socket host' port'
              (mkNet ({[s]} ∪ net_open net)
                 (<[mock_key host port := s]> (net_mock_sockets net)))
            = inl AssertionError).
  { intros host' port' Hl. unfold loop_open_mock_socket.
    cbn [net_mock_sockets net_open]. rewrite Hl.
    rewrite bool_decide_eq_true_2 by set_solver. reflexivity. }
  split; [apply Hopen, lookup_insert_eq | exact Hopen].
Qed.

Lemma mocked_socket_opens_once_witness :
  exists net2,
    loop_open_mock_socket "localhost" 1337
      (loop_mock_socket "localhost" 1337 0 net_example) = inr (net2, 0%nat) /\
    0%nat ∈ net_open net2 /\
    net_mock_sockets net2 =
      <[mock_key "localhost" 1337 := 0%nat]> (net_mock_sockets net_example) /\
    loop_open_mock_socket "localhost" 1337 net2 = inl AssertionError /\
    (forall host' port',
       net_mock_sockets net2 !! mock_key host' port' = Some 0%nat ->
       loop_open_mock_socket host' port' net2 = inl AssertionError).
Proof.
  apply (mocked_socket_opens_once "localhost" 1337 0 net_example).
  unfold net_example. simpl. apply not_elem_of_empty.
Defined.
